(** * PixelRNN notebook: masked-convolution model and raster-scan generation

    A shallow embedding of [pixelrnn.ipynb]: the graph built by [pixelRNN],
    the loss and clipped-gradient assembly, and the two generation loops
    [generate] and [generate_occlusions].

    Tensors are nested lists in the order the notebook indexes them
    (batch, axis 1, axis 2, channel).  The scalars of the graph are an
    abstract type with the operations the code applies to them; its
    instances are float32 (the binary32 operations of IEEE 754), integers
    and rationals (exact arithmetic) and real numbers (for the loss, whose
    formula needs the exponential and the logarithm). *)

From stdpp Require Import base option list strings pretty.
From Stdlib Require Import QArith Qminmax ZArith SpecFloat Reals Lra.

Close Scope R_scope.
Close Scope Q_scope.
Close Scope Z_scope.
Open Scope nat_scope.

Set Default Proof Using "Type*".

(** ** Hyper-parameters (cell 3, the [dotdict] [p]) *)

Record params := Params {
  batch_size : nat;
  hidden_dims : nat;
  recurrent_length : nat;
  out_hidden_dims : nat;
  out_recurrent_length : nat;
  grad_clip : Q;
  use_gpu : bool
}.

(** The values the notebook sets. *)
Definition p : params := {|
  batch_size := 100;
  hidden_dims := 16;
  recurrent_length := 7;
  out_hidden_dims := 32;
  out_recurrent_length := 2;
  grad_clip := 1%Q;
  use_gpu := true
|}.

(** ** The dataflow graph

    TensorFlow builds a symbolic graph; [pixelRNN] returns three of its
    nodes.  A node records the operation and the node it consumes. *)

Inductive mask_type := A | B.

Inductive node :=
| Placeholder (shape : list (option nat))
| Conv2d (input : node) (num_outputs : nat) (kernel_shape : nat * nat)
         (mask : mask_type) (scope : string)
| Relu (input : node)
| Sigmoid (input : node).

#[global] Instance mask_type_eq_dec : EqDecision mask_type.
Proof. solve_decision. Defined.

(** [for idx in range(n): last = body(idx, last)] *)
Definition for_range {S : Type} (lo hi : nat) (body : nat → S → S) (s : S) : S :=
  foldl (λ acc idx, body idx acc) s (seq lo (hi - lo)).

(** [input_shape] of [pixelRNN]: the layout chosen by [use_gpu]. *)
Definition input_shape (height width channel : nat) (ps : params) : list (option nat) :=
  if use_gpu ps then [None; Some height; Some width; Some channel]
  else [None; Some channel; Some height; Some width].

(** [pixelRNN(height, width, channel, params)]: returns
    [(inputs, output, conv2d_out_logits)]. *)
Definition pixelRNN (height width channel : nat) (ps : params) : node * node * node :=
  let inputs := Placeholder (input_shape height width channel ps) in
  (* input of main convolutional layers *)
  let conv_inputs := Conv2d inputs (hidden_dims ps) (7, 7) A "conv_inputs" in
  (* main convolutions layers *)
  let last_hid :=
    for_range 0 (recurrent_length ps)
      (λ idx last_hid, Conv2d last_hid 3 (1, 1) B ("CONV" +:+ pretty idx))
      conv_inputs in
  (* output convolutional layers *)
  let last_hid :=
    for_range 0 (out_recurrent_length ps)
      (λ idx last_hid,
         Relu (Conv2d last_hid (out_hidden_dims ps) (1, 1) B ("CONV_OUT" +:+ pretty idx)))
      last_hid in
  let conv2d_out_logits := Conv2d last_hid 1 (1, 1) B "conv2d_out_logits" in
  let output := Sigmoid conv2d_out_logits in
  (inputs, output, conv2d_out_logits).

(** The operations applied on the way from the placeholder to a node, first
    applied first; scopes are parameter names and are dropped. *)
Inductive layer :=
| ConvL (mask : mask_type) (kernel_shape : nat * nat) (num_outputs : nat)
| ReluL
| SigmoidL.

Fixpoint source (n : node) : node :=
  match n with
  | Placeholder _ => n
  | Conv2d x _ _ _ _ | Relu x | Sigmoid x => source x
  end.

Fixpoint layers (n : node) : list layer :=
  match n with
  | Placeholder _ => []
  | Conv2d x o k m _ => layers x ++ [ConvL m k o]
  | Relu x => layers x ++ [ReluL]
  | Sigmoid x => layers x ++ [SigmoidL]
  end.

(** The architecture in the words of the design: one "A" 7x7 convolution,
    [recurrent_length] bare "B" 1x1 convolutions to 3 channels,
    [out_recurrent_length] "B" 1x1 convolutions each followed by a ReLU,
    then the "B" 1x1 convolution to one logit channel. *)
Definition architecture (ps : params) : list layer :=
  [ConvL A (7, 7) (hidden_dims ps)]
  ++ replicate (recurrent_length ps) (ConvL B (1, 1) 3)
  ++ mjoin (replicate (out_recurrent_length ps)
              [ConvL B (1, 1) (out_hidden_dims ps); ReluL])
  ++ [ConvL B (1, 1) 1].

(** ** Scalars and tensors *)

(** The float32 arithmetic the graph applies. *)
Class Scalar (F : Type) := {
  fzero : F;
  fone : F;
  fadd : F → F → F;
  fmul : F → F → F
}.

(** The elementwise activations of the numerical engine. *)
Class Activation (F : Type) := {
  frelu : F → F;
  fsigmoid : F → F
}.

(** Exact arithmetic (integers, rationals): a product with a zeroed weight
    is zero.  Floating-point arithmetic does not meet this law, since
    [inf * 0] is NaN; what it does meet is [MaskedProduct] below. *)
Class ScalarZero (F : Type) `{Scalar F} : Prop := {
  fmul_zero_r : ∀ x : F, fmul x fzero = fzero
}.

(** What the dependency argument needs of the arithmetic when the canvas
    is binarized: through a zeroed weight [w * 0], or a weight that is
    absent, a pixel of value 1 contributes what a pixel of value 0 does.
    IEEE 754 arithmetic meets this law: [w * 0] is a zero or NaN, and its
    product with 1 and with 0 is that same zero, or NaN. *)
Class MaskedProduct (F : Type) `{Scalar F} : Prop := {
  fmul_masked_weight :
    ∀ w : F, fmul fone (fmul w fzero) = fmul fzero (fmul w fzero);
  fmul_absent_weight : fmul fone fzero = fmul fzero (fzero : F)
}.

(** A rank-4 array, indexed [t[b][i][j][k]]. *)
Abbreviation tensor F := (list (list (list (list F)))).

(** [m[i][j]], if in range. *)
Definition at2 {A : Type} (m : list (list A)) (i j : nat) : option A :=
  match m !! i with Some r => r !! j | None => None end.

Section Tensor.
Context {F : Type}.

(** [t[b, i, j]]: the channel vector of one position, if in range. *)
Definition px (t : tensor F) (b i j : nat) : option (list F) :=
  match t !! b with Some img => at2 img i j | None => None end.

(** [t[b, i]]: one row of one image. *)
Definition row (t : tensor F) (b i : nat) : option (list (list F)) :=
  at2 t b i.

(** [t[a, b, c, d]], if in range. *)
Definition get4 (t : tensor F) (a b c d : nat) : option F :=
  match at2 t a b with Some v => at2 v c d | None => None end.

Definition map4 (f : F → F) (t : tensor F) : tensor F :=
  (λ img : list (list (list F)),
     (λ r : list (list F), (λ v : list F, f <$> v) <$> r) <$> img) <$> t.

Definition zip4 (f : F → F → F) (t u : tensor F) : tensor F :=
  zip_with (zip_with (zip_with (zip_with f))) t u.

Definition dim_ok (d : option nat) (len : nat) : Prop :=
  match d with None => True | Some k => len = k end.

(** An array may be fed to a placeholder of static shape [sh] when every
    known dimension matches. *)
Definition feedable (sh : list (option nat)) (t : tensor F) : Prop :=
  match sh with
  | [d0; d1; d2; d3] =>
      dim_ok d0 (length t) ∧
      Forall (λ img, dim_ok d1 (length img) ∧
        Forall (λ r, dim_ok d2 (length r) ∧
          Forall (λ v, dim_ok d3 (length v)) r) img) t
  | _ => False
  end.

Definition has_shape (n h w c : nat) (t : tensor F) : Prop :=
  feedable [Some n; Some h; Some w; Some c] t.

(** [np.full((n, h, w, c), x)] *)
Definition np_full (n h w c : nat) (x : F) : tensor F :=
  replicate n (replicate h (replicate w (replicate c x))).

(** [t[:, i, j]]; an index out of range raises. *)
Definition slice_ij (t : tensor F) (i j : nat) : option (list (list F)) :=
  mapM (λ img, at2 img i j) t.

(** [t[:, i, j] = v] for [v] of the shape of [t[:, i, j]].  NumPy would
    also stretch a [v] with a single batch entry; the forward pass always
    returns the batch it was fed, so that case is reported as a failure
    like any other shape mismatch. *)
Definition assign_ij (t : tensor F) (i j : nat) (v : list (list F)) : option (tensor F) :=
  old ← slice_ij t i j;
  if decide (length <$> v = length <$> old)
  then Some (zip_with (λ img x, alter (λ r, <[j := x]> r) i img) t v)
  else None.
End Tensor.

#[global] Instance dim_ok_dec d len : Decision (dim_ok d len).
Proof. destruct d; simpl; apply _. Defined.

#[global] Instance feedable_dec {F} sh (t : tensor F) : Decision (feedable sh t).
Proof.
  destruct sh as [|d0 [|d1 [|d2 [|d3 [|]]]]]; simpl; try apply _.
Defined.

(** An image tensor of the design: every entry is 0 or 1. *)
Definition binarized {F : Type} `{Scalar F} (t : tensor F) : Prop :=
  Forall (Forall (Forall (Forall (λ x : F, x = fzero ∨ x = fone)))) t.

(** ** Mask generator and masked convolution *)

Section Conv.
Context {F : Type} `{Scalar F} `{Activation F}.

(** Modelled from the spec: the Mask Generator lives in [ops.py], which is
    not part of the notebook.  Following the design, the mask starts as
    all ones; the positions right of the centre in the centre row and all
    rows strictly below the centre are zeroed; type "A" additionally
    zeroes the centre.  The centre is [(kh // 2, kw // 2)]. *)
Definition mask2 (kh kw : nat) (t : mask_type) : list (list F) :=
  let center_h := kh / 2 in
  let center_w := kw / 2 in
  let mask := replicate kh (replicate kw fone) in
  (* mask[center_h, center_w+1:] = 0 *)
  let mask :=
    alter (λ r, take (center_w + 1) r ++ replicate (length r - (center_w + 1)) fzero)
          center_h mask in
  (* mask[center_h+1:, :] = 0 *)
  let mask :=
    take (center_h + 1) mask
    ++ replicate (length mask - (center_h + 1)) (replicate kw fzero) in
  match t with
  | A => alter (λ r, <[center_w := fzero]> r) center_h mask
  | B => mask
  end.

(** Modelled from the spec: the mask has the shape of the kernel,
    [kh x kw x in_channels x out_channels], the same for every channel
    pair (single-channel case). *)
Definition mask_generator (kh kw cin cout : nat) (t : mask_type) : tensor F :=
  (λ r : list F, (λ m, replicate cin (replicate cout m)) <$> r) <$> mask2 kh kw t.

Definition at4 (t : tensor F) (a b c d : nat) : F :=
  default fzero (get4 t a b c d).

(** [sum(f(k) for k in range(n))] *)
Definition fsum (n : nat) (f : nat → F) : F :=
  foldr (λ k acc, fadd (f k) acc) fzero (seq 0 n).

(** The input value under kernel tap [(dr, dc)] for output position
    [(i, j)], with "same" zero padding: [(kh - 1) // 2] rows above and
    [(kw - 1) // 2] columns to the left. *)
Definition tap (img : list (list (list F))) (kh kw i j dr dc k : nat) : F :=
  let pad_h := (kh - 1) / 2 in
  let pad_w := (kw - 1) / 2 in
  if decide (pad_h ≤ i + dr ∧ pad_w ≤ j + dc)
  then default fzero
         (match at2 img (i + dr - pad_h) (j + dc - pad_w) with
          | Some v => v !! k
          | None => None
          end)
  else fzero.

(** One output position of the convolution: for every output channel,
    the sum over the kernel taps and input channels of input times
    masked weight, plus the bias. *)
Definition conv2d_pixel (masked : tensor F) (biases : list F)
    (cin num_outputs kh kw : nat) (img : list (list (list F))) (i j : nat)
    : list F :=
  (λ o,
     fadd (fsum kh (λ dr, fsum kw (λ dc, fsum cin (λ k,
             fmul (tap img kh kw i j dr dc k) (at4 masked dr dc k o)))))
          (default fzero (biases !! o)))
  <$> seq 0 num_outputs.

(** Modelled from the spec: the Masked Convolution Layer ([conv2d] of
    [ops.py], which is not part of the notebook).  The weights are
    multiplied elementwise by the mask, a stride-1 "same" convolution is
    taken (the output has the spatial size of the input), the bias is
    added; no activation. *)
Definition conv2d (weights : tensor F) (biases : list F)
    (cin num_outputs : nat) (kernel_shape : nat * nat) (t : mask_type)
    (x : tensor F) : tensor F :=
  let masked :=
    zip4 fmul weights
         (mask_generator kernel_shape.1 kernel_shape.2 cin num_outputs t) in
  (λ img : list (list (list F)),
     imap (λ i r,
       imap (λ j _,
         conv2d_pixel masked biases cin num_outputs
                      kernel_shape.1 kernel_shape.2 img i j) r) img) <$> x.

(** The trainable variables of a session, by scope. *)
Record session := Session {
  weights : string → tensor F;
  biases : string → list F
}.

(** Static channel count of a node (last entry of its shape). *)
Fixpoint channels (n : node) : nat :=
  match n with
  | Placeholder sh => default 0 (mjoin (last sh))
  | Conv2d _ o _ _ _ => o
  | Relu x | Sigmoid x => channels x
  end.

(** Value of a node once the placeholder is bound to [feed]. *)
Fixpoint eval (sess : session) (n : node) (feed : tensor F) : tensor F :=
  match n with
  | Placeholder _ => feed
  | Conv2d x o k m scope =>
      conv2d (weights sess scope) (biases sess scope) (channels x) o k m
             (eval sess x feed)
  | Relu x => map4 frelu (eval sess x feed)
  | Sigmoid x => map4 fsigmoid (eval sess x feed)
  end.

(** [sess.run(output, {inputs: images})]: the feed must fit the
    placeholder. *)
Definition sess_run (sess : session) (output inputs : node) (images : tensor F)
    : option (tensor F) :=
  match inputs with
  | Placeholder sh =>
      if decide (feedable sh images) then Some (eval sess output images) else None
  | _ => None
  end.
End Conv.

Arguments session F : clear implicits.

(** ** Sequential generation (cell 12) *)

(** [for k in l: s = body(k, s)], where the body may raise. *)
Fixpoint for_each {S : Type} (l : list nat) (body : nat → S → option S) (s : S)
    : option S :=
  match l with
  | [] => Some s
  | k :: l' => match body k s with
               | Some s' => for_each l' body s'
               | None => None
               end
  end.

(** Python's [range(lo, hi)]. *)
Definition range (lo hi : nat) : list nat := seq lo (hi - lo).

(** The pixels visited by [for i in range(lo, hi): for j in range(0, w)],
    in the order they are visited. *)
Definition raster (lo hi w : nat) : list (nat * nat) :=
  i ← range lo hi; (λ j, (i, j)) <$> range 0 w.

Section Generation.
Context {F : Type} `{Scalar F}.

(** [utils.binarize] is not part of the notebook: it is a parameter.  It
    may draw from NumPy's generator, whose state [rng] it threads. *)
Context {rng : Type}.
Variable binarize : tensor F → rng → tensor F * rng.

(** [utils.occlude] is not part of the notebook either. *)
Variable occlude : tensor F → nat → nat → tensor F.

(** A session: [run sess output inputs images] is
    [sess.run(output, {inputs: images})]. *)
Context {Sess : Type}.
Variable run : Sess → node → node → tensor F → option (tensor F).

Definition predict (sess : Sess) (images : tensor F) (inputs output : node)
    : option (tensor F) :=
  run sess output inputs images.

(** The body of both inner loops:
    [next_sample = binarize(predict(sess, samples, inputs, output))]
    [samples[:, i, j] = next_sample[:, i, j]]. *)
Definition pixel_step (sess : Sess) (inputs output : node) (i j : nat)
    (st : tensor F * rng) : option (tensor F * rng) :=
  match predict sess st.1 inputs output with
  | None => None
  | Some probs =>
      let next_sample := binarize probs st.2 in
      match slice_ij next_sample.1 i j with
      | None => None
      | Some v =>
          match assign_ij st.1 i j v with
          | None => None
          | Some samples => Some (samples, next_sample.2)
          end
      end
  end.

(** [generate(sess, height, width, inputs, output)]; [g] is the state of
    the random generator on entry. *)
Definition generate (g : rng) (sess : Sess) (height width : nat)
    (inputs output : node) : option (tensor F) :=
  let samples := np_full 100 height width 1 fzero in
  fst <$>
    for_each (range 0 height) (λ i,
      for_each (range 0 width) (λ j,
        pixel_step sess inputs output i j))
      (samples, g).

(** [generate_occlusions(sess, height, width, inputs, output)].  The body
    reads the notebook-level variable [images]; it is the first argument
    here, before the generator state. *)
Definition generate_occlusions (images : tensor F) (g : rng) (sess : Sess)
    (height width : nat) (inputs output : node) : option (tensor F) :=
  let samples := occlude images height width in
  let starting_position := (0, height / 2) in
  fst <$>
    for_each (range starting_position.2 height) (λ i,
      for_each (range starting_position.1 width) (λ j,
        pixel_step sess inputs output i j))
      (samples, g).

(** The same steps over an explicit list of pixels; its prefixes give the
    canvas at every point of a loop. *)
Fixpoint run_steps (sess : Sess) (inputs output : node)
    (ps : list (nat * nat)) (st : tensor F * rng) : option (tensor F * rng) :=
  match ps with
  | [] => Some st
  | (i, j) :: ps' =>
      match pixel_step sess inputs output i j st with
      | Some st' => run_steps sess inputs output ps' st'
      | None => None
      end
  end.

(** State of [generate] after its first [k] pixels. *)
Definition generate_after (k : nat) (g : rng) (sess : Sess) (height width : nat)
    (inputs output : node) : option (tensor F * rng) :=
  run_steps sess inputs output (take k (raster 0 height width))
    (np_full 100 height width 1 fzero, g).

(** State of [generate_occlusions] after its first [k] pixels. *)
Definition generate_occlusions_after (k : nat) (images : tensor F) (g : rng)
    (sess : Sess) (height width : nat) (inputs output : node)
    : option (tensor F * rng) :=
  run_steps sess inputs output (take k (raster (height / 2) height width))
    (occlude images height width, g).
End Generation.

(** Raster order on positions. *)
Definition before (q r : nat * nat) : Prop :=
  q.1 < r.1 ∨ (q.1 = r.1 ∧ q.2 < r.2).

#[global] Instance before_dec q r : Decision (before q r).
Proof. unfold before; apply _. Defined.

(** Two arrays hold the same values at every position of image [b]
    strictly before [(i, j)] in raster order. *)
Definition agree_before {F : Type} (x x' : tensor F) (b i j : nat) : Prop :=
  ∀ r c, before (r, c) (i, j) → px x b r c = px x' b r c.

(** ** The reference masks

    The masks in the words of the testable properties, for comparison with
    [mask_generator]. *)

Section MaskReference.
Context {F : Type} `{Scalar F}.

(** Type "B": 1 at the centre and at every raster-earlier kernel
    position, 0 at every raster-later one. *)
Definition reference_B (kh kw cin cout : nat) : tensor F :=
  (λ r, (λ c,
     replicate cin (replicate cout
       (if decide (before (r, c) (kh / 2, kw / 2) ∨ (r, c) = (kh / 2, kw / 2))
        then fone else fzero : F)))
     <$> seq 0 kw) <$> seq 0 kh.

(** [m[center_h, center_w, :, :] = x] *)
Definition set_center (kh kw cin cout : nat) (x : F) (m : tensor F) : tensor F :=
  alter (λ r, <[kw / 2 := replicate cin (replicate cout x)]> r) (kh / 2) m.

(** Type "A": the type-"B" mask with the centre additionally set to 0. *)
Definition reference_A (kh kw cin cout : nat) : tensor F :=
  set_center kh kw cin cout fzero (reference_B kh kw cin cout).
End MaskReference.

(** ** Graphs with raster-causal dependencies *)

(** A kernel extent whose centre [k // 2] coincides with the "same" padding
    [(k - 1) // 2]: the odd extents, among them 1 and 7. *)
Definition centred (k : nat) : Prop := (k - 1) / 2 = k / 2.

#[global] Instance centred_dec k : Decision (centred k).
Proof. unfold centred; apply _. Defined.

(** Graphs whose first layer is an "A"-masked convolution of the
    placeholder and whose later layers are masked convolutions and
    elementwise activations. *)
Inductive causal : node → Prop :=
| causal_first sh o kh kw scope :
    centred kh → centred kw →
    causal (Conv2d (Placeholder sh) o (kh, kw) A scope)
| causal_conv x o kh kw t scope :
    causal x → centred kh → centred kw →
    causal (Conv2d x o (kh, kw) t scope)
| causal_relu x : causal x → causal (Relu x)
| causal_sigmoid x : causal x → causal (Sigmoid x).

(** Among them, the graphs whose later layers act on every position
    separately: 1x1 "B" convolutions and elementwise activations. *)
Inductive causal_pointwise : node → Prop :=
| pointwise_first sh o kh kw scope :
    centred kh → centred kw →
    causal_pointwise (Conv2d (Placeholder sh) o (kh, kw) A scope)
| pointwise_conv x o scope :
    causal_pointwise x → causal_pointwise (Conv2d x o (1, 1) B scope)
| pointwise_relu x : causal_pointwise x → causal_pointwise (Relu x)
| pointwise_sigmoid x : causal_pointwise x → causal_pointwise (Sigmoid x).

(** ** Concrete scalars and a small model

    Integers and rationals as scalars, and a two-by-two instance of the
    network used to exercise the statements below. *)

#[global] Instance Z_scalar : Scalar Z :=
  {| fzero := 0%Z; fone := 1%Z; fadd := Z.add; fmul := Z.mul |}.

(** On integers the sigmoid is replaced by its 0/1 limit. *)
#[global] Instance Z_activation : Activation Z :=
  {| frelu := Z.max 0; fsigmoid := λ x, if (0 <? x)%Z then 1%Z else 0%Z |}.

#[global] Instance Q_scalar : Scalar Q :=
  {| fzero := 0%Q; fone := 1%Q; fadd := Qplus; fmul := Qmult |}.

Definition tiny : params := {|
  batch_size := 1;
  hidden_dims := 3;
  recurrent_length := 1;
  out_hidden_dims := 3;
  out_recurrent_length := 1;
  grad_clip := 1%Q;
  use_gpu := true
|}.

(** All weights 1 and all biases 0, in the shapes the layers of
    [pixelRNN 2 2 1 tiny] create. *)
Definition tiny_session : session Z := {|
  weights scope :=
    if decide (scope = "conv_inputs") then np_full 7 7 1 3 1%Z
    else if decide (scope = "conv2d_out_logits") then np_full 1 1 3 1 1%Z
    else np_full 1 1 3 3 1%Z;
  biases scope :=
    if decide (scope = "conv2d_out_logits") then [0%Z] else [0%Z; 0%Z; 0%Z]
|}.

(** Two 2x2 canvases that differ only at position (1, 1). *)
Definition canvas_a : tensor Z := [[[[1%Z]; [0%Z]]; [[1%Z]; [1%Z]]]].
Definition canvas_b : tensor Z := [[[[1%Z]; [0%Z]]; [[1%Z]; [0%Z]]]].

(** [canvas_a] laid out (batch, channel, height, width). *)
Definition canvas_channel_first : tensor Z := [[[[1%Z; 0%Z]; [1%Z; 1%Z]]]].

(** ** float32 scalars

    The binary32 format of IEEE 754 (precision 24, exponent bound 128) with
    the operations of the standard library's specification of
    floating-point arithmetic: signed zeros, infinities, NaN and rounding
    to nearest. *)

Abbreviation float32 := spec_float.

Definition f32_zero : float32 := S754_zero false.
Definition f32_one : float32 := S754_finite false 8388608 (-23).
Definition f32_infinity : float32 := S754_infinity false.

#[global] Instance float32_scalar : Scalar float32 :=
  {| fzero := f32_zero; fone := f32_one;
     fadd := SFadd 24 128; fmul := SFmul 24 128 |}.

(** The ReLU is [max(x, 0)].  The library has no exponential: in the
    examples on float32 the sigmoid is replaced by the squashing function
    [(1 + x / (1 + |x|)) / 2], which like the sigmoid increases from 0 at
    minus infinity to 1 at infinity, is 1/2 at 0 and propagates NaN.  No
    statement below depends on its values. *)
#[global] Instance float32_activation : Activation float32 :=
  {| frelu := λ x, if SFltb x f32_zero then f32_zero else x;
     fsigmoid := λ x,
       match x with
       | S754_infinity negative => if negative then f32_zero else f32_one
       | _ =>
           SFdiv 24 128
             (SFadd 24 128 f32_one
                (SFdiv 24 128 x (SFadd 24 128 f32_one (SFabs x))))
             (SFadd 24 128 f32_one f32_one)
       end |}.

(** The session and the canvases above, on float32, and a canvas that
    holds an infinite value at position (1, 1). *)
Definition tiny_session32 : session float32 := {|
  weights scope :=
    if decide (scope = "conv_inputs") then np_full 7 7 1 3 f32_one
    else if decide (scope = "conv2d_out_logits") then np_full 1 1 3 1 f32_one
    else np_full 1 1 3 3 f32_one;
  biases scope :=
    if decide (scope = "conv2d_out_logits") then [f32_zero]
    else [f32_zero; f32_zero; f32_zero]
|}.

Definition canvas32_a : tensor float32 :=
  [[[[f32_one]; [f32_zero]]; [[f32_one]; [f32_one]]]].
Definition canvas32_b : tensor float32 :=
  [[[[f32_one]; [f32_zero]]; [[f32_one]; [f32_zero]]]].
Definition canvas32_inf : tensor float32 :=
  [[[[f32_one]; [f32_zero]]; [[f32_one]; [f32_infinity]]]].

(** ** A concrete generator

    Rational pixels, the threshold binarization and a forward pass that
    returns the same probability everywhere. *)

(** Modelled from the spec: [utils.binarize] is not part of the notebook.
    The threshold policy of the design: a probability above 0.5 becomes 1,
    anything else, the tie included, becomes 0.  It draws no random
    numbers, so the generator state is [unit]. *)
Definition binarize_px (x : Q) : Q :=
  if Qle_bool x (1 # 2) then 0%Q else 1%Q.

Definition binarize_threshold (t : tensor Q) (g : unit) : tensor Q * unit :=
  (map4 binarize_px t, g).

(** Modelled from the spec: [utils.occlude] is not part of the notebook.
    The design starts the canvas as a copy of the seed images. *)
Definition occlude_copy (images : tensor Q) (height width : nat) : tensor Q :=
  images.

(** A session whose forward pass returns probability [q] at every pixel of
    every image it is fed. *)
Definition constant_model (q : Q) (sess : unit) (output inputs : node)
    (images : tensor Q) : option (tensor Q) :=
  Some (map4 (λ _, q) images).

(** A 4x4 seed image whose top two rows are 1 and bottom two rows 0, and a
    blank one. *)
Definition seed_top : tensor Q :=
  [[[[1%Q]; [1%Q]; [1%Q]; [1%Q]]; [[1%Q]; [1%Q]; [1%Q]; [1%Q]];
    [[0%Q]; [0%Q]; [0%Q]; [0%Q]]; [[0%Q]; [0%Q]; [0%Q]; [0%Q]]]].

Definition seed_blank : tensor Q := np_full 1 4 4 1 0%Q.

(** The array with entry [f b i j k] at [(b, i, j, k)]. *)
Definition tabulate4 {F : Type} (n h w c : nat) (f : nat → nat → nat → nat → F)
    : tensor F :=
  (λ b, (λ i, (λ j, (λ k, f b i j k) <$> seq 0 c) <$> seq 0 w) <$> seq 0 h)
  <$> seq 0 n.

(** [sum(l)] on rationals. *)
Definition Qsum (l : list Q) : Q := foldr Qplus 0%Q l.

(** ** Loss and optimisation (cell 10) *)

(** *** The loss

    Real numbers stand for the float32 values of the logits, the images
    and the loss: rounding, overflow and NaN are left out, except for the
    NaN that the mean of no entries is. *)

#[global] Instance R_scalar : Scalar R :=
  {| fzero := 0%R; fone := 1%R; fadd := Rplus; fmul := Rmult |}.

#[global] Instance R_activation : Activation R :=
  {| frelu := λ x, Rmax x 0; fsigmoid := λ x, (/ (1 + exp (- x)))%R |}.

(** A float32 value up to rounding: NaN, an infinity or a number. *)
Inductive float_value (A : Type) :=
| NaN
| Inf (negative : bool)
| Num (x : A).

Arguments NaN {A}.
Arguments Inf {A}.
Arguments Num {A}.

(** The nodes cell 10 adds below the optimizer. *)
Inductive cross_entropy_node :=
| SigmoidCrossEntropyWithLogits (logits labels : node).

Inductive scalar_node :=
| ReduceMean (input : cross_entropy_node).

(** [loss], for the nodes [conv2d_out_logits] and [inputs] that [pixelRNN]
    returned. *)
Definition loss (conv2d_out_logits inputs : node) : scalar_node :=
  ReduceMean (SigmoidCrossEntropyWithLogits conv2d_out_logits inputs).

(** Entries of [tf.nn.sigmoid_cross_entropy_with_logits(logits=x, labels=z)],
    by the formula of its documentation:
    [max(x, 0) - x * z + log(1 + exp(-abs(x)))]. *)
Definition xent (x z : R) : R :=
  (Rmax x 0 - x * z + ln (1 + exp (- Rabs x)))%R.

(** Two arrays have the same shape. *)
Definition same_shape {F : Type} (t u : tensor F) : Prop :=
  Forall2 (Forall2 (Forall2 (λ v v' : list F, length v = length v'))) t u.

#[global] Instance same_shape_dec {F : Type} (t u : tensor F) :
  Decision (same_shape t u).
Proof. unfold same_shape. apply _. Defined.

(** [tf.nn.sigmoid_cross_entropy_with_logits]: elementwise, on logits and
    labels of the same shape; other shapes are refused. *)
Definition sigmoid_cross_entropy_with_logits (logits labels : tensor R)
    : option (tensor R) :=
  if decide (same_shape logits labels) then Some (zip4 xent logits labels)
  else None.

Definition Rsum (l : list R) : R := foldr Rplus 0%R l.

(** [tf.reduce_mean(t)]: the sum of all entries over their number; NaN
    when there is no entry. *)
Definition reduce_mean (t : tensor R) : float_value R :=
  let entries := mjoin (mjoin (mjoin t)) in
  match entries with
  | [] => NaN
  | _ => Num (Rsum entries / INR (length entries))%R
  end.

(** [sess.run(loss, feed_dict={inputs: images})] *)
Definition sess_run_loss (sess : session R) (loss : scalar_node)
    (inputs : node) (images : tensor R) : option (float_value R) :=
  match inputs, loss with
  | Placeholder sh, ReduceMean (SigmoidCrossEntropyWithLogits logits labels) =>
      if decide (feedable sh images)
      then reduce_mean <$>
             sigmoid_cross_entropy_with_logits (eval sess logits images)
                                               (eval sess labels images)
      else None
  | _, _ => None
  end.

(** The loss in the words of the design: the binary cross-entropy between
    the probability the model computes, the sigmoid of its logit, and the
    image, at every pixel of every batch element, averaged. *)
Definition binary_cross_entropy (q z : R) : R :=
  (- (z * ln q + (1 - z) * ln (1 - q)))%R.

Fixpoint sum_upto (n : nat) (f : nat → R) : R :=
  match n with
  | 0 => 0%R
  | S k => (sum_upto k f + f k)%R
  end.

Definition mean_cross_entropy (n h w : nat) (logit image : nat → nat → nat → R)
    : R :=
  (sum_upto n (λ b, sum_upto h (λ i, sum_upto w (λ j,
     binary_cross_entropy (fsigmoid (logit b i j)) (image b i j))))
   / INR (n * h * w))%R.

(** A session on reals with all weights 1 and all biases 0, in the shapes
    the layers of [pixelRNN 2 2 1 tiny] create. *)
Definition tiny_session_R : session R := {|
  weights scope :=
    if decide (scope = "conv_inputs") then np_full 7 7 1 3 1%R
    else if decide (scope = "conv2d_out_logits") then np_full 1 1 3 1 1%R
    else np_full 1 1 3 3 1%R;
  biases scope :=
    if decide (scope = "conv2d_out_logits") then [0%R] else [0%R; 0%R; 0%R]
|}.

(** *** Clipping and the optimizer *)

(** [tf.clip_by_value(t, clip_value_min, clip_value_max)], on the entries
    of a gradient: [maximum(minimum(t, clip_value_max), clip_value_min)]. *)
Definition clip_by_value (t : list Q) (clip_value_min clip_value_max : Q) : list Q :=
  (λ x, Qmax (Qmin x clip_value_max) clip_value_min) <$> t.

(** The training operation: the optimizer's [apply_gradients] on a list of
    (gradient, variable) pairs. *)
Inductive train_op :=
| ApplyGradients (grads_and_vars : list (list Q * string)).

(** [optim], for [grads_and_vars = optimizer.compute_gradients(loss)]. *)
Definition optim (ps : params) (grads_and_vars : list (list Q * string)) : train_op :=
  let new_grads_and_vars :=
    (λ gv, (clip_by_value gv.1 (- grad_clip ps) (grad_clip ps), gv.2))
    <$> grads_and_vars in
  ApplyGradients new_grads_and_vars.

(** Two gradients as [compute_gradients] may return them. *)
Definition sample_grads : list (list Q * string) :=
  [([(5 # 2)%Q; (- (3 # 1))%Q; (1 # 4)%Q], "conv_inputs/weights");
   ([(- (1 # 2))%Q], "conv_inputs/biases")].

(** The same operations on gradient entries that need not be finite.
    [tf.minimum(x, y)] is [y < x ? y : x] and [tf.maximum(x, y)] is
    [x < y ? y : x], and every comparison with NaN is false: a NaN entry
    comes out of both as it went in. *)
Module Extended.

Definition less (x y : float_value Q) : bool :=
  match x, y with
  | NaN, _ | _, NaN => false
  | Inf true, Inf true => false
  | Inf true, _ => true
  | _, Inf true => false
  | Inf false, _ => false
  | Num _, Inf false => true
  | Num a, Num b => match (a ?= b)%Q with Lt => true | _ => false end
  end.

Definition minimum (x y : float_value Q) : float_value Q :=
  if less y x then y else x.

Definition maximum (x y : float_value Q) : float_value Q :=
  if less x y then y else x.

(** [tf.clip_by_value(t, clip_value_min, clip_value_max)] *)
Definition clip_by_value (t : list (float_value Q))
    (clip_value_min clip_value_max : float_value Q) : list (float_value Q) :=
  (λ x, maximum (minimum x clip_value_max) clip_value_min) <$> t.

Inductive train_op :=
| ApplyGradients (grads_and_vars : list (list (float_value Q) * string)).

(** [optim], for [grads_and_vars = optimizer.compute_gradients(loss)]. *)
Definition optim (ps : params)
    (grads_and_vars : list (list (float_value Q) * string)) : train_op :=
  let new_grads_and_vars :=
    (λ gv, (clip_by_value gv.1 (Num (- grad_clip ps)%Q) (Num (grad_clip ps)), gv.2))
    <$> grads_and_vars in
  ApplyGradients new_grads_and_vars.

End Extended.

(** Gradients with entries of every kind. *)
Definition sample_extended_grads : list (list (float_value Q) * string) :=
  [([Num (5 # 2)%Q; Inf true; Num (1 # 4)%Q; NaN; Inf false],
    "conv_inputs/weights");
   ([Num (- (1 # 2))%Q], "conv_inputs/biases")].

(** [ps] with the layout flag set to [b]. *)
Definition with_gpu (ps : params) (b : bool) : params := {|
  batch_size := batch_size ps;
  hidden_dims := hidden_dims ps;
  recurrent_length := recurrent_length ps;
  out_hidden_dims := out_hidden_dims ps;
  out_recurrent_length := out_recurrent_length ps;
  grad_clip := grad_clip ps;
  use_gpu := b
|}.

(** ** Notions used for the generation loops with a masked model *)

(** A binarization that applies one fixed rule to every entry and draws no
    random numbers. *)
Definition pixelwise {F rng : Type} (f : F → F) (t : tensor F) (g : rng)
    : tensor F * rng :=
  (map4 f t, g).

(** A forward pass whose output at a position is determined by the input
    strictly before that position in raster order, on canvases of shape
    [(n, h, w, c)]. *)
Definition raster_causal {F Sess : Type}
    (run : Sess → node → node → tensor F → option (tensor F))
    (sess : Sess) (inputs output : node) (n h w c : nat) : Prop :=
  ∀ x x' y y' b i j,
    has_shape n h w c x → has_shape n h w c x' →
    run sess output inputs x = Some y → run sess output inputs x' = Some y' →
    agree_before x x' b i j → px y b i j = px y' b i j.

(** The variable scopes of the convolutions on the way to a node, first
    created first. *)
Fixpoint scopes (n : node) : list string :=
  match n with
  | Placeholder _ => []
  | Conv2d x _ _ _ scope => scopes x ++ [scope]
  | Relu x | Sigmoid x => scopes x
  end.

(** ** Reshaping a batch (cell 14) *)

(** The first [k] consecutive blocks of [m] entries of [l]. *)
Fixpoint chunks {A : Type} (k m : nat) (l : list A) : list (list A) :=
  match k with
  | 0 => []
  | S k' => take m l :: chunks k' m (drop m l)
  end.

(** [a.reshape([n, h, w, c])] for a rank-2 array [a], in NumPy's row-major
    order; it raises when the number of entries is not [n * h * w * c]. *)
Definition np_reshape {F : Type} (a : list (list F)) (n h w c : nat)
    : option (tensor F) :=
  let flat := mjoin a in
  if decide (length flat = n * h * w * c)
  then Some ((λ img : list F,
                (λ r : list F, chunks w c r) <$> chunks h (w * c) img)
             <$> chunks n (h * w * c) flat)
  else None.

(** ** The training cell (cell 14)

    The epoch loop, with the collaborators it calls as parameters: the two
    data sets and their cursors, [utils.binarize], [utils.occlude], the
    session runs, [np.mean], [stat.on_step] and [save_images].  The
    progress bar only displays and is left out. *)

(** The notebook-level state the cell reads and writes. *)
Record notebook (F rng Sess Data Stat : Type) := Notebook {
  nb_images : option (tensor F);   (* the variable [images]; unbound at first *)
  nb_sess : Sess;                  (* the variables held by [sess] *)
  nb_train : Data;                 (* cursor of [mnist.train] *)
  nb_test : Data;                  (* cursor of [mnist.test] *)
  nb_random : rng;                 (* NumPy's generator *)
  nb_stat : Stat;                  (* [stat] *)
  nb_samples : list (string * tensor F)
                                   (* prefix and samples of every image sheet
                                      [save_images] wrote to SAMPLE_DIR *)
}.

Arguments Notebook {F rng Sess Data Stat}.
Arguments nb_images {F rng Sess Data Stat}.
Arguments nb_sess {F rng Sess Data Stat}.
Arguments nb_train {F rng Sess Data Stat}.
Arguments nb_test {F rng Sess Data Stat}.
Arguments nb_random {F rng Sess Data Stat}.
Arguments nb_stat {F rng Sess Data Stat}.
Arguments nb_samples {F rng Sess Data Stat}.

Section Training.
Context {F : Type} `{Scalar F}.
Context {rng Sess Data Cost Stat : Type}.

(** [mnist.<split>.next_batch(x)[0]], advancing the cursor of the split. *)
Variable next_batch : Data → nat → list (list F) * Data.

(** [utils.binarize], on the rank-2 batches of the data set and on the
    rank-4 output of the model. *)
Variable binarize_rows : list (list F) → rng → list (list F) * rng.
Variable binarize : tensor F → rng → tensor F * rng.

(** [utils.occlude]; as in [generate_occlusions] above it returns a new
    array, so that filling [samples] leaves [images] as it was. *)
Variable occlude : tensor F → nat → nat → tensor F.

(** [sess.run(output, {inputs: images})],
    [sess.run([optim, loss], {inputs: images})], which updates the
    variables, and [sess.run(loss, {inputs: images})]. *)
Variable run : Sess → node → node → tensor F → option (tensor F).
Variable run_train : Sess → node → tensor F → option (Sess * Cost).
Variable run_loss : Sess → node → tensor F → option Cost.

Variable np_mean : list Cost → Cost.
Variable on_step : Stat → Cost → Cost → Stat.

(** [generate_occlusions], together with the generator state it leaves. *)
Definition generate_occlusions_state (images : tensor F) (g : rng) (sess : Sess)
    (height width : nat) (inputs output : node) : option (tensor F * rng) :=
  let samples := occlude images height width in
  let starting_position := (0, height / 2) in
  for_each (range starting_position.2 height) (λ i,
    for_each (range starting_position.1 width) (λ j,
      pixel_step binarize run sess inputs output i j))
    (samples, g).

(** [binarize(next_batch(p.batch_size))
       .reshape([p.batch_size, height, width, channel])] *)
Definition feed_batch (ps : params) (height width channel : nat)
    (data : Data) (g : rng) : option (tensor F * Data * rng) :=
  let batch := next_batch data (batch_size ps) in
  let rows := binarize_rows batch.1 g in
  match np_reshape rows.1 (batch_size ps) height width channel with
  | Some images => Some (images, batch.2, rows.2)
  | None => None
  end.

(** One pass of the training loop; the state carries [total_train_costs]. *)
Definition train_step (ps : params) (height width channel : nat)
    (inputs : node) (idx : nat)
    (st : notebook F rng Sess Data Stat * list Cost)
    : option (notebook F rng Sess Data Stat * list Cost) :=
  match feed_batch ps height width channel (nb_train st.1) (nb_random st.1) with
  | None => None
  | Some (images, data, g) =>
      match run_train (nb_sess st.1) inputs images with
      | None => None
      | Some (sess, cost) =>
          Some ({| nb_images := Some images; nb_sess := sess;
                   nb_train := data; nb_test := nb_test st.1;
                   nb_random := g; nb_stat := nb_stat st.1;
                   nb_samples := nb_samples st.1 |},
                st.2 ++ [cost])
      end
  end.

(** One pass of the test loop; the state carries [total_test_costs]. *)
Definition test_step (ps : params) (height width channel : nat)
    (inputs : node) (idx : nat)
    (st : notebook F rng Sess Data Stat * list Cost)
    : option (notebook F rng Sess Data Stat * list Cost) :=
  match feed_batch ps height width channel (nb_test st.1) (nb_random st.1) with
  | None => None
  | Some (images, data, g) =>
      match run_loss (nb_sess st.1) inputs images with
      | None => None
      | Some cost =>
          Some ({| nb_images := Some images; nb_sess := nb_sess st.1;
                   nb_train := nb_train st.1; nb_test := data;
                   nb_random := g; nb_stat := nb_stat st.1;
                   nb_samples := nb_samples st.1 |},
                st.2 ++ [cost])
      end
  end.

(** The body of [for epoch in iterator]. *)
Definition epoch_body (ps : params) (height width channel : nat)
    (train_step_per_epoch test_step_per_epoch : nat)
    (inputs output : node) (epoch : nat)
    (nb : notebook F rng Sess Data Stat)
    : option (notebook F rng Sess Data Stat) :=
  (* 1. train *)
  match for_each (range 0 train_step_per_epoch)
          (train_step ps height width channel inputs) (nb, []) with
  | None => None
  | Some (nb, total_train_costs) =>
  (* 2. test *)
  match for_each (range 0 test_step_per_epoch)
          (test_step ps height width channel inputs) (nb, []) with
  | None => None
  | Some (nb, total_test_costs) =>
  let avg_train_cost := np_mean total_train_costs in
  let avg_test_cost := np_mean total_test_costs in
  let stat := on_step (nb_stat nb) avg_train_cost avg_test_cost in
  (* 3. generate samples *)
  match nb_images nb with
  | None => None
  | Some images =>
  match generate_occlusions_state images (nb_random nb) (nb_sess nb)
          height width inputs output with
  | None => None
  | Some (samples, g) =>
      Some {| nb_images := nb_images nb; nb_sess := nb_sess nb;
              nb_train := nb_train nb; nb_test := nb_test nb;
              nb_random := g; nb_stat := stat;
              nb_samples :=
                nb_samples nb ++ [("epoch_" +:+ pretty epoch, samples)] |}
  end end end end.

(** [for epoch in tqdm(range(p.max_epoch))] *)
Definition training (ps : params) (max_epoch height width channel : nat)
    (train_step_per_epoch test_step_per_epoch : nat)
    (inputs output : node) (nb : notebook F rng Sess Data Stat)
    : option (notebook F rng Sess Data Stat) :=
  for_each (range 0 max_epoch)
    (epoch_body ps height width channel
       train_step_per_epoch test_step_per_epoch inputs output) nb.
End Training.

(** ** A toy data pipeline

    Stand-ins for the collaborators of the training cell, small enough to
    run: batches of four-pixel rows that alternate with the cursor, the
    threshold binarization, a session that only checks the shape of what
    it is fed, and a running list of the average costs. *)

Definition toy_next_batch (data : nat) (x : nat) : list (list Q) * nat :=
  (replicate x [1%Q; 0%Q; if Nat.even data then (3 # 4)%Q else (1 # 4)%Q; 0%Q],
   S data).

Definition toy_binarize_rows (a : list (list Q)) (g : unit)
    : list (list Q) * unit :=
  ((λ r : list Q, binarize_px <$> r) <$> a, g).

Definition toy_run_train (sess : unit) (inputs : node) (images : tensor Q)
    : option (unit * Q) :=
  match inputs with
  | Placeholder sh => if decide (feedable sh images) then Some (sess, 0%Q) else None
  | _ => None
  end.

Definition toy_run_loss (sess : unit) (inputs : node) (images : tensor Q)
    : option Q :=
  match inputs with
  | Placeholder sh => if decide (feedable sh images) then Some 0%Q else None
  | _ => None
  end.

Definition toy_mean (costs : list Q) : Q :=
  (Qsum costs / inject_Z (Z.of_nat (length costs)))%Q.

Definition toy_on_step (stat : list (Q * Q)) (avg_train_cost avg_test_cost : Q)
    : list (Q * Q) :=
  stat ++ [(avg_train_cost, avg_test_cost)].

(** A fresh notebook: [images] is not bound yet. *)
Definition fresh_notebook : notebook Q unit unit nat (list (Q * Q)) := {|
  nb_images := None;
  nb_sess := tt;
  nb_train := 0;
  nb_test := 0;
  nb_random := tt;
  nb_stat := [];
  nb_samples := []
|}.

(** ** Calling [generate_occlusions] (cells 12, 14 and 16)

    A call binds its arguments to the parameters of the [def]; every other
    name the body uses, [images] among them, is looked up in the
    notebook. *)

(** What a caller can pass. *)
Inductive value (F Sess : Type) :=
| VSess (sess : Sess)
| VInt (k : nat)
| VNode (x : node)
| VArray (t : tensor F).

Arguments VSess {F Sess}.
Arguments VInt {F Sess}.
Arguments VNode {F Sess}.
Arguments VArray {F Sess}.

(** The value passed under the keyword [name], if any. *)
Fixpoint keyword {V : Type} (name : string) (kwargs : list (string * V))
    : option V :=
  match kwargs with
  | [] => None
  | (k, v) :: kwargs' => if decide (k = name) then Some v else keyword name kwargs'
  end.

(** Python's binding of the positional arguments [args] and the keyword
    arguments [kwargs] of a call to the parameters of a [def] that declares
    neither defaults nor starred parameters.  The call is a TypeError
    when there are more positional arguments than parameters, when a
    keyword names no parameter or one already bound by position, and when
    a parameter is left without a value; a keyword given twice is refused
    before the call.  Otherwise every parameter is paired with its value,
    in the order of the [def]. *)
Definition bind_args {V : Type} (params : list string) (args : list V)
    (kwargs : list (string * V)) : option (list (string * V)) :=
  let rest := drop (length args) params in
  if decide (length args ≤ length params ∧ NoDup kwargs.*1 ∧
             Forall (λ k, k ∈ rest) kwargs.*1)
  then named ← mapM (λ name, (λ v, (name, v)) <$> keyword name kwargs) rest;
       Some (zip params args ++ named)
  else None.

(** [def generate_occlusions(sess, height, width, inputs, output):] *)
Definition generate_occlusions_params : list string :=
  ["sess"; "height"; "width"; "inputs"; "output"].

Section Calls.
Context {F : Type} `{Scalar F} {rng Sess Data Stat : Type}.
Variable binarize : tensor F → rng → tensor F * rng.
Variable occlude : tensor F → nat → nat → tensor F.
Variable run : Sess → node → node → tensor F → option (tensor F).

(** A call of [generate_occlusions] with the positional arguments [args]
    and the keyword arguments [kwargs], in the notebook [nb].  The body
    reads [images] from the notebook; it is a NameError when the variable
    is unbound.  The session and the two nodes are used by [sess.run]
    only, on the first pixel the loops visit: values of another kind fail
    there, and go unnoticed when there is no pixel to visit.  The errors
    of the binding, of the lookup and of the body are all [None]; sizes
    that are not integers are outside the model and reported as [None] as
    well. *)
Definition call_generate_occlusions (nb : notebook F rng Sess Data Stat)
    (args : list (value F Sess)) (kwargs : list (string * value F Sess))
    : option (tensor F) :=
  match bind_args generate_occlusions_params args kwargs with
  | Some [(_, sess); (_, VInt height); (_, VInt width);
          (_, inputs); (_, output)] =>
      match nb_images nb with
      | Some images =>
          match sess, inputs, output with
          | VSess sess, VNode inputs, VNode output =>
              generate_occlusions binarize occlude run images (nb_random nb)
                sess height width inputs output
          | _, _, _ =>
              if decide (height = 0 ∨ width = 0)
              then Some (occlude images height width)
              else None
          end
      | None => None
      end
  | _ => None
  end.
End Calls.

(** The toy notebook with [images] bound. *)
Definition notebook_with (images : tensor Q)
    : notebook Q unit unit nat (list (Q * Q)) := {|
  nb_images := Some images;
  nb_sess := tt;
  nb_train := 0;
  nb_test := 0;
  nb_random := tt;
  nb_stat := [];
  nb_samples := []
|}.

(** * Properties *)

(** ** The graph built by [pixelRNN] *)

Lemma layers_bare_stack (name : nat → string) l x :
  layers (foldl (λ acc idx, Conv2d acc 3 (1, 1) B (name idx)) x l)
  = layers x ++ replicate (length l) (ConvL B (1, 1) 3).
Proof.
  revert x. induction l as [|k l IH]; intros x; simpl.
  - by rewrite app_nil_r.
  - rewrite IH. simpl. by rewrite <- app_assoc.
Qed.

Lemma layers_relu_stack (name : nat → string) o l x :
  layers (foldl (λ acc idx, Relu (Conv2d acc o (1, 1) B (name idx))) x l)
  = layers x ++ mjoin (replicate (length l) [ConvL B (1, 1) o; ReluL]).
Proof.
  revert x. induction l as [|k l IH]; intros x; simpl.
  - by rewrite app_nil_r.
  - rewrite IH. simpl. by rewrite <- !app_assoc.
Qed.

Lemma source_foldl (f : nat → node → node) l x :
  (∀ k y, source (f k y) = source y) →
  source (foldl (λ acc idx, f idx acc) x l) = source x.
Proof.
  intros Hf. revert x. induction l as [|k l IH]; intros x; simpl; [done|].
  by rewrite IH, Hf.
Qed.

(** C4: [pixelRNN] returns the placeholder, the sigmoid of the logits and
    the logits; the logits are the placeholder passed through, in this
    order, one "A" 7x7 convolution to [hidden_dims] channels,
    [recurrent_length] "B" 1x1 convolutions to 3 channels with nothing in
    between, [out_recurrent_length] "B" 1x1 convolutions to
    [out_hidden_dims] channels each followed by a ReLU, and one "B" 1x1
    convolution to a single channel. *)
Theorem pixelRNN_architecture (height width channel : nat) (ps : params) :
  let '(inputs, output, conv2d_out_logits) := pixelRNN height width channel ps in
  inputs = Placeholder (input_shape height width channel ps) ∧
  source conv2d_out_logits = inputs ∧
  layers conv2d_out_logits = architecture ps ∧
  output = Sigmoid conv2d_out_logits ∧
  layers output = architecture ps ++ [SigmoidL] ∧
  ∀ (F : Type) (SF : Scalar F) (AF : Activation F) (sess : session F)
    (feed : tensor F),
    eval sess output feed = map4 fsigmoid (eval sess conv2d_out_logits feed).
Proof.
  unfold pixelRNN, for_range, architecture. simpl.
  rewrite layers_relu_stack, layers_bare_stack, !length_seq, !Nat.sub_0_r.
  rewrite !source_foldl by done. simpl.
  repeat split; by rewrite <- ?app_assoc.
Qed.

(** ** Lookups *)

Lemma at2_Some {A : Type} (m : list (list A)) i j x :
  at2 m i j = Some x ↔ ∃ r, m !! i = Some r ∧ r !! j = Some x.
Proof.
  unfold at2. destruct (m !! i) as [r|].
  - split; [eauto|]. intros (r' & ? & ?). by simplify_eq.
  - split; [done|]. by intros (r' & ? & ?).
Qed.

(** ** The mask generator *)

Section MaskFacts.
Context {F : Type} `{Scalar F}.

Lemma mask2_A kh kw :
  mask2 (F:=F) kh kw A
  = alter (λ r, <[kw / 2 := fzero]> r) (kh / 2) (mask2 kh kw B).
Proof. reflexivity. Qed.

Lemma mask2_length kh kw t : length (mask2 (F:=F) kh kw t) = kh.
Proof.
  destruct t; rewrite ?mask2_A, ?length_alter; unfold mask2;
    rewrite length_app, length_take, length_replicate, length_alter,
      length_replicate; lia.
Qed.

(** Rows above the centre are all ones. *)
Lemma mask2_row_above kh kw r :
  r < kh / 2 → r < kh →
  mask2 (F:=F) kh kw B !! r = Some (replicate kw fone).
Proof.
  intros Hr Hkh. unfold mask2.
  rewrite lookup_app_l by (rewrite length_take, length_alter, length_replicate; lia).
  rewrite lookup_take_lt by lia.
  rewrite list_lookup_alter_ne by lia.
  by apply lookup_replicate_2.
Qed.

(** Rows below the centre are all zeros. *)
Lemma mask2_row_below kh kw r :
  kh / 2 < r → r < kh →
  mask2 (F:=F) kh kw B !! r = Some (replicate kw fzero).
Proof.
  intros Hr Hkh. unfold mask2.
  rewrite lookup_app_r by (rewrite length_take, length_alter, length_replicate; lia).
  rewrite length_take, length_alter, length_replicate.
  apply lookup_replicate_2. lia.
Qed.

(** The centre row: ones up to the centre, then zeros. *)
Lemma mask2_row_center kh kw :
  0 < kh →
  mask2 (F:=F) kh kw B !! (kh / 2)
  = Some (replicate (kw `min` (kw / 2 + 1)) fone
          ++ replicate (kw - (kw / 2 + 1)) fzero).
Proof.
  intros Hkh. unfold mask2.
  assert (kh / 2 < kh) by (apply Nat.div_lt; lia).
  rewrite lookup_app_l by (rewrite length_take, length_alter, length_replicate; lia).
  rewrite lookup_take_lt by lia.
  rewrite list_lookup_alter_eq, lookup_replicate_2 by lia. simpl.
  rewrite take_replicate, length_replicate. do 3 f_equal. lia.
Qed.

(** Entry of the "B" mask, by raster order against the centre. *)
Lemma mask2_B_entry kh kw r c :
  r < kh → c < kw →
  at2 (mask2 (F:=F) kh kw B) r c
  = Some (if decide (before (r, c) (kh / 2, kw / 2) ∨ (r, c) = (kh / 2, kw / 2))
          then fone else fzero).
Proof.
  intros Hr Hc. unfold at2.
  assert (kw / 2 < kw) by (apply Nat.div_lt; lia).
  destruct (lt_eq_lt_dec r (kh / 2)) as [[Hlt|Heq]|Hgt].
  - rewrite mask2_row_above, lookup_replicate_2 by lia.
    rewrite decide_True; [done|]. left. unfold before; cbn [fst snd]; lia.
  - subst r. rewrite mask2_row_center by lia.
    destruct (decide (c ≤ kw / 2)) as [Hle|Hnle].
    + rewrite lookup_app_l, lookup_replicate_2 by (rewrite ?length_replicate; lia).
      rewrite decide_True; [done|].
      rewrite pair_equal_spec. unfold before; cbn [fst snd]; lia.
    + rewrite lookup_app_r by (rewrite ?length_replicate; lia).
      rewrite lookup_replicate_2 by (rewrite ?length_replicate; lia).
      rewrite decide_False; [done|].
      rewrite pair_equal_spec. unfold before; cbn [fst snd]; lia.
  - rewrite mask2_row_below, lookup_replicate_2 by lia.
    rewrite decide_False; [done|].
    rewrite pair_equal_spec. unfold before; cbn [fst snd]; lia.
Qed.

(** Entry of the "A" mask: the "B" entry, except zero at the centre. *)
Lemma mask2_A_entry kh kw r c :
  r < kh → c < kw →
  at2 (mask2 (F:=F) kh kw A) r c
  = Some (if decide (before (r, c) (kh / 2, kw / 2)) then fone else fzero).
Proof.
  intros Hr Hc. pose proof (mask2_B_entry kh kw r c Hr Hc) as HB.
  rewrite mask2_A. apply at2_Some in HB as (rw & Hrw & HB). unfold at2.
  assert (kw / 2 < kw) by (apply Nat.div_lt; lia).
  assert (Hpos : ∀ X Y : F,
    (r, c) ≠ (kh / 2, kw / 2) →
    (if decide (before (r, c) (kh / 2, kw / 2) ∨ (r, c) = (kh / 2, kw / 2))
     then X else Y)
    = (if decide (before (r, c) (kh / 2, kw / 2)) then X else Y)).
  { intros X Y Hne. repeat case_decide; try done; tauto. }
  destruct (decide (r = kh / 2)) as [->|Hne].
  - rewrite list_lookup_alter_eq, Hrw. cbn [fmap option_fmap option_map].
    destruct (decide (c = kw / 2)) as [->|Hc'].
    + rewrite list_lookup_insert_eq by (by apply lookup_lt_Some in HB).
      rewrite decide_False; [done|]. unfold before; cbn [fst snd]; lia.
    + rewrite list_lookup_insert_ne, HB, Hpos by congruence. done.
  - rewrite list_lookup_alter_ne, Hrw, HB, Hpos by congruence. done.
Qed.

Lemma tabulate_eq {A : Type} (l : list A) n (f : nat → A) :
  length l = n → (∀ i, i < n → l !! i = Some (f i)) → l = f <$> seq 0 n.
Proof.
  intros Hlen Hl. apply list_eq. intros i. rewrite list_lookup_fmap.
  destruct (decide (i < n)) as [Hi|Hi].
  - by rewrite Hl, lookup_seq_lt.
  - rewrite lookup_seq_ge, lookup_ge_None_2 by lia. done.
Qed.

Lemma mask2_B_row_length kh kw r rw :
  mask2 (F:=F) kh kw B !! r = Some rw → length rw = kw.
Proof.
  intros Hrw. pose proof (lookup_lt_Some _ _ _ Hrw) as Hr.
  rewrite mask2_length in Hr.
  destruct (lt_eq_lt_dec r (kh / 2)) as [[Hlt|Heq]|Hgt].
  - rewrite mask2_row_above in Hrw by done. simplify_eq.
    by rewrite length_replicate.
  - subst r. rewrite mask2_row_center in Hrw by lia. simplify_eq.
    rewrite length_app, !length_replicate. lia.
  - rewrite mask2_row_below in Hrw by done. simplify_eq.
    by rewrite length_replicate.
Qed.

(** The spatial "B" mask, position by position. *)
Lemma mask2_B_tabulate kh kw :
  mask2 (F:=F) kh kw B
  = (λ r, (λ c,
       if decide (before (r, c) (kh / 2, kw / 2) ∨ (r, c) = (kh / 2, kw / 2))
       then fone else fzero) <$> seq 0 kw) <$> seq 0 kh.
Proof.
  apply tabulate_eq; [apply mask2_length|]. intros r Hr.
  destruct (lookup_lt_is_Some_2 (mask2 (F:=F) kh kw B) r) as [rw Hrw];
    [by rewrite mask2_length|].
  rewrite Hrw. f_equal.
  apply tabulate_eq; [by eapply mask2_B_row_length|]. intros c Hc.
  pose proof (mask2_B_entry kh kw r c Hr Hc) as HB.
  apply at2_Some in HB as (rw' & Hrw' & HB). by simplify_eq.
Qed.
End MaskFacts.

(** C3: for every kernel size the generated masks are the reference masks:
    the type-"B" mask is 1 at the centre and at all raster-earlier
    positions and 0 at all raster-later ones, all ones for a 1x1 kernel;
    the type-"A" mask is the type-"B" mask with the centre set to 0. *)
Theorem mask_generator_reference {F : Type} `{Scalar F} (kh kw cin cout : nat) :
  mask_generator (F:=F) kh kw cin cout B = reference_B kh kw cin cout ∧
  mask_generator (F:=F) kh kw cin cout A
    = set_center kh kw cin cout fzero (mask_generator kh kw cin cout B) ∧
  mask_generator (F:=F) kh kw cin cout A = reference_A kh kw cin cout ∧
  mask_generator (F:=F) 1 1 cin cout B = np_full 1 1 cin cout fone.
Proof.
  assert (HB : mask_generator (F:=F) kh kw cin cout B = reference_B kh kw cin cout).
  { unfold mask_generator, reference_B. rewrite mask2_B_tabulate.
    rewrite <- list_fmap_compose. apply list_fmap_ext. intros _ r _. simpl.
    rewrite <- list_fmap_compose. by apply list_fmap_ext. }
  assert (HA : mask_generator (F:=F) kh kw cin cout A
    = set_center kh kw cin cout fzero (mask_generator kh kw cin cout B)).
  { unfold mask_generator, set_center. rewrite mask2_A.
    apply list_fmap_alter. apply Forall_forall. intros r _.
    by rewrite list_fmap_insert. }
  split; [done|]. split; [done|]. split; [|done].
  unfold reference_A. by rewrite <- HB.
Qed.

(** ** What one output position of a masked convolution reads *)

Section ConvFacts.
Context {F : Type} `{Scalar F} `{Activation F}.

Lemma fsum_ext n (f g : nat → F) :
  (∀ k, k < n → f k = g k) → fsum n f = fsum n g.
Proof.
  unfold fsum. intros Hfg.
  assert (Hin : ∀ k, k ∈ seq 0 n → f k = g k).
  { intros k Hk. apply Hfg. apply elem_of_seq in Hk. lia. }
  clear Hfg. induction (seq 0 n) as [|k l IH]; simpl; [done|].
  rewrite Hin by left. rewrite IH; [done|].
  intros k' Hk'. apply Hin. by right.
Qed.

Lemma get4_zip4 (f : F → F → F) t u a b c d :
  get4 (zip4 f t u) a b c d
  = match get4 t a b c d, get4 u a b c d with
    | Some x, Some y => Some (f x y)
    | _, _ => None
    end.
Proof.
  unfold get4, zip4, at2.
  repeat (rewrite ?lookup_zip_with;
          match goal with
          | |- context [?l !! ?i] => is_var l; destruct (l !! i); simpl
          end);
    done.
Qed.

Lemma get4_mask_generator kh kw cin cout t dr dc k o m :
  get4 (mask_generator (F:=F) kh kw cin cout t) dr dc k o = Some m →
  at2 (mask2 kh kw t) dr dc = Some m.
Proof.
  unfold get4, mask_generator. intros Hm.
  destruct (at2 _ dr dc) as [v|] eqn:Hv; [|done].
  apply at2_Some in Hv as (r & Hr & Hv).
  rewrite list_lookup_fmap in Hr.
  destruct (mask2 kh kw t !! dr) as [r0|] eqn:Hr0; [|done].
  simpl in Hr. simplify_eq.
  rewrite list_lookup_fmap in Hv.
  destruct (r0 !! dc) as [m0|] eqn:Hm0; [|done].
  simpl in Hv. simplify_eq.
  apply at2_Some in Hm as (r1 & Hr1 & Hm).
  apply lookup_replicate in Hr1 as [-> _].
  apply lookup_replicate in Hm as [-> _].
  apply at2_Some. eauto.
Qed.

Lemma tap_agree img img' kh kw i j dr dc k :
  ((kh - 1) / 2 ≤ i + dr → (kw - 1) / 2 ≤ j + dc →
   at2 img (i + dr - (kh - 1) / 2) (j + dc - (kw - 1) / 2)
   = at2 img' (i + dr - (kh - 1) / 2) (j + dc - (kw - 1) / 2)) →
  tap (F:=F) img kh kw i j dr dc k = tap img' kh kw i j dr dc k.
Proof.
  intros Hag. unfold tap. cbv zeta. case_decide as Hpad; [|done].
  destruct Hpad as [Hh Hw]. by rewrite Hag.
Qed.

Lemma px_conv2d w bs cin o k t (x : tensor F) b i j :
  px (conv2d w bs cin o k t x) b i j
  = match x !! b with
    | Some img =>
        match at2 img i j with
        | Some _ =>
            Some (conv2d_pixel
                    (zip4 fmul w (mask_generator k.1 k.2 cin o t)) bs cin o
                    k.1 k.2 img i j)
        | None => None
        end
    | None => None
    end.
Proof.
  unfold px, conv2d. cbv zeta. rewrite list_lookup_fmap.
  destruct (x !! b) as [img|]; simpl; [|done].
  unfold at2. rewrite list_lookup_imap.
  destruct (img !! i) as [r|]; simpl; [|done].
  rewrite list_lookup_imap. by destruct (r !! j).
Qed.

Lemma px_map4 (f : F → F) (x : tensor F) b i j :
  px (map4 f x) b i j = fmap (M:=list) f <$> px x b i j.
Proof.
  unfold px, map4, at2. rewrite list_lookup_fmap.
  destruct (x !! b) as [img|]; simpl; [|done].
  rewrite list_lookup_fmap.
  destruct (img !! i) as [r|]; simpl; [|done].
  by rewrite list_lookup_fmap.
Qed.

Lemma px_Some_img (x : tensor F) b img r c :
  x !! b = Some img → px x b r c = at2 img r c.
Proof. unfold px. by intros ->. Qed.

(** The mask entry of a tap is zero unless the tap lies at or before the
    centre (strictly before, for type "A"). *)
Lemma mask2_entry_cases kh kw t dr dc :
  dr < kh → dc < kw →
  at2 (mask2 (F:=F) kh kw t) dr dc = Some fzero ∨
  before (dr, dc) (kh / 2, kw / 2) ∨ (t = B ∧ (dr, dc) = (kh / 2, kw / 2)).
Proof.
  intros Hr Hc. destruct t.
  - rewrite mask2_A_entry by done. case_decide; auto.
  - rewrite mask2_B_entry by done. case_decide as Hd; [|auto].
    destruct Hd; auto.
Qed.

(** The input position under a tap at or before the centre lies at or
    before the output position. *)
Lemma tap_position kh kw i j dr dc :
  centred kh → centred kw →
  (kh - 1) / 2 ≤ i + dr → (kw - 1) / 2 ≤ j + dc →
  (before (dr, dc) (kh / 2, kw / 2) →
   before (i + dr - (kh - 1) / 2, j + dc - (kw - 1) / 2) (i, j)) ∧
  ((dr, dc) = (kh / 2, kw / 2) →
   (i + dr - (kh - 1) / 2, j + dc - (kw - 1) / 2) = (i, j)).
Proof.
  unfold centred, before. cbn [fst snd]. intros -> -> Hh Hw.
  rewrite !pair_equal_spec. lia.
Qed.

(** A weight whose mask entry is zero contributes [w * 0] for a weight
    [w], or zero when the kernel holds no weight there. *)
Lemma masked_weight_cases w kh kw cin cout t dr dc k o :
  at2 (mask2 (F:=F) kh kw t) dr dc = Some fzero →
  at4 (zip4 fmul w (mask_generator kh kw cin cout t)) dr dc k o = fzero ∨
  ∃ w0, at4 (zip4 fmul w (mask_generator kh kw cin cout t)) dr dc k o
        = fmul w0 fzero.
Proof.
  intros Hz. unfold at4. rewrite get4_zip4.
  destruct (get4 w dr dc k o) as [x|]; [|by left].
  destruct (get4 (mask_generator _ _ _ _ _) _ _ _ _) as [m|] eqn:Hm; [|by left].
  apply get4_mask_generator in Hm. simplify_eq. simpl. right. by exists x.
Qed.

(** Under a tap a binarized image shows 0 or 1: one of its entries, or the
    zero padding. *)
Lemma tap_binarized img kh kw i j dr dc k :
  Forall (Forall (Forall (λ x : F, x = fzero ∨ x = fone))) img →
  tap img kh kw i j dr dc k = fzero ∨ tap img kh kw i j dr dc k = fone.
Proof.
  intros Himg. unfold tap. cbv zeta. case_decide as Hpad; [|by left].
  destruct (at2 img _ _) as [v|] eqn:Hv; [|by left].
  apply at2_Some in Hv as (r & Hr & Hv).
  destruct (v !! k) as [x|] eqn:Hx; [|by left]. simpl.
  eapply Forall_lookup_1 in Himg; [|exact Hr].
  eapply Forall_lookup_1 in Himg; [|exact Hv].
  eapply Forall_lookup_1 in Himg; [|exact Hx]. done.
Qed.

(** A 1x1 "B" convolution computes every position from that position
    alone. *)
Lemma conv2d_pointwise_depends w bs cin o (y y' : tensor F) b i j :
  px y b i j = px y' b i j →
  px (conv2d w bs cin o (1, 1) B y) b i j
  = px (conv2d w bs cin o (1, 1) B y') b i j.
Proof.
  intros Hpx. rewrite !px_conv2d. cbn [fst snd]. unfold px in Hpx.
  destruct (y !! b) as [img|], (y' !! b) as [img'|].
  - rewrite <- Hpx. destruct (at2 img i j) as [v|] eqn:Hv; [|done].
    f_equal. unfold conv2d_pixel. apply list_fmap_ext. intros _ oc _.
    f_equal. apply fsum_ext. intros dr Hdr.
    apply fsum_ext. intros dc Hdc. apply fsum_ext. intros k Hk.
    f_equal. apply tap_agree. intros _ _.
    assert (dr = 0) as -> by lia. assert (dc = 0) as -> by lia.
    change ((1 - 1) / 2) with 0. rewrite !Nat.add_0_r, !Nat.sub_0_r.
    by rewrite Hv.
  - by rewrite Hpx.
  - by rewrite <- Hpx.
  - done.
Qed.

(** Evaluation keeps the batch and spatial extent of the feed. *)
Lemma eval_positions (sess : session F) n (x : tensor F) b i j :
  is_Some (px (eval sess n x) b i j) ↔ is_Some (px x b i j).
Proof.
  induction n as [sh|n IH o k m scope|n IH|n IH]; simpl.
  - done.
  - rewrite px_conv2d. rewrite <- IH. unfold px.
    destruct (eval sess n x !! b) as [img|]; [|done].
    by destruct (at2 img i j).
  - rewrite px_map4, <- IH. apply fmap_is_Some.
  - rewrite px_map4, <- IH. apply fmap_is_Some.
Qed.

Lemma before_trans q r s : before q r → before r s → before q s.
Proof. unfold before. lia. Qed.


(** *** Exact arithmetic *)

Section Exact.
Context `{!ScalarZero F}.

(** A weight whose mask entry is zero contributes a zero weight. *)
Lemma masked_weight_zero w kh kw cin cout t dr dc k o :
  at2 (mask2 (F:=F) kh kw t) dr dc = Some fzero →
  at4 (zip4 fmul w (mask_generator kh kw cin cout t)) dr dc k o = fzero.
Proof.
  intros Hz. unfold at4. rewrite get4_zip4.
  destruct (get4 w dr dc k o) as [x|]; [|done].
  destruct (get4 (mask_generator _ _ _ _ _) _ _ _ _) as [m|] eqn:Hm; [|done].
  apply get4_mask_generator in Hm. simplify_eq. simpl.
  apply fmul_zero_r.
Qed.

(** One output position of a masked convolution is determined by the
    input at the positions strictly before it and, for type "B", at the
    position itself. *)
Lemma conv2d_depends w bs cin o kh kw t (y y' : tensor F) b i j :
  centred kh → centred kw →
  (is_Some (px y b i j) ↔ is_Some (px y' b i j)) →
  (∀ r c, before (r, c) (i, j) ∨ (t = B ∧ (r, c) = (i, j)) →
          px y b r c = px y' b r c) →
  px (conv2d w bs cin o (kh, kw) t y) b i j
  = px (conv2d w bs cin o (kh, kw) t y') b i j.
Proof.
  intros Hkh Hkw Hpos Hag. rewrite !px_conv2d. cbn [fst snd].
  unfold px in Hpos.
  destruct (y !! b) as [img|] eqn:Himg, (y' !! b) as [img'|] eqn:Himg'.
  - destruct (at2 img i j) as [v|] eqn:Hv, (at2 img' i j) as [v'|] eqn:Hv';
      try done.
    + f_equal. unfold conv2d_pixel. apply list_fmap_ext. intros _ oc _.
      f_equal. apply fsum_ext. intros dr Hdr.
      apply fsum_ext. intros dc Hdc. apply fsum_ext. intros k Hk.
      destruct (mask2_entry_cases kh kw t dr dc Hdr Hdc) as [Hz|Htap].
      * by rewrite masked_weight_zero, !fmul_zero_r.
      * f_equal. apply tap_agree. intros Hh Hw.
        destruct (tap_position kh kw i j dr dc Hkh Hkw Hh Hw) as [Hb He].
        rewrite <- (px_Some_img y b img) by done.
        rewrite <- (px_Some_img y' b img') by done.
        apply Hag. destruct Htap as [?|[? ?]]; [left; auto|right; auto].
    + destruct Hpos as [Hpos _]. by destruct Hpos.
    + destruct Hpos as [_ Hpos]. by destruct Hpos.
  - destruct (at2 img i j) as [v|] eqn:Hv; [|done].
    destruct Hpos as [Hpos _]. by destruct Hpos.
  - destruct (at2 img' i j) as [v|] eqn:Hv; [|done].
    destruct Hpos as [_ Hpos]. by destruct Hpos.
  - done.
Qed.

(** In a causal graph the value at a position is a function of the feed
    strictly before that position. *)
Lemma causal_depends (sess : session F) n :
  causal n →
  ∀ (x x' : tensor F) b i j,
    (∀ r c, is_Some (px x b r c) ↔ is_Some (px x' b r c)) →
    agree_before x x' b i j →
    px (eval sess n x) b i j = px (eval sess n x') b i j.
Proof.
  induction 1 as [sh o kh kw scope Hkh Hkw
                 |n o kh kw t scope Hn IH Hkh Hkw|n Hn IH|n Hn IH];
    intros x x' b i j Hpos Hag; simpl.
  - apply conv2d_depends; [done|done|apply Hpos|].
    intros r c [Hb|[[=] _]]. by apply Hag.
  - apply conv2d_depends; [done|done| |].
    + by rewrite !eval_positions.
    + intros r c Hrc. apply IH; [done|].
      intros r' c' Hb. apply Hag.
      destruct Hrc as [Hrc|[_ [= -> ->]]]; [|done].
      by eapply before_trans.
  - rewrite !px_map4. f_equal. by apply IH.
  - rewrite !px_map4. f_equal. by apply IH.
Qed.
End Exact.

(** *** Binarized canvases *)

Section Binarized.
Context `{!MaskedProduct F}.

(** One output position of an "A"-masked convolution of a binarized
    canvas is determined by the canvas strictly before that position. *)
Lemma conv2d_first_depends w bs cin o kh kw (y y' : tensor F) b i j :
  centred kh → centred kw →
  binarized y → binarized y' →
  (is_Some (px y b i j) ↔ is_Some (px y' b i j)) →
  agree_before y y' b i j →
  px (conv2d w bs cin o (kh, kw) A y) b i j
  = px (conv2d w bs cin o (kh, kw) A y') b i j.
Proof.
  intros Hkh Hkw Hy Hy' Hpos Hag. rewrite !px_conv2d. cbn [fst snd].
  unfold px in Hpos.
  destruct (y !! b) as [img|] eqn:Himg, (y' !! b) as [img'|] eqn:Himg'.
  - destruct (at2 img i j) as [v|] eqn:Hv, (at2 img' i j) as [v'|] eqn:Hv';
      try done.
    + f_equal. unfold conv2d_pixel. apply list_fmap_ext. intros _ oc _.
      f_equal. apply fsum_ext. intros dr Hdr.
      apply fsum_ext. intros dc Hdc. apply fsum_ext. intros k Hk.
      destruct (mask2_entry_cases kh kw A dr dc Hdr Hdc) as [Hz|Htap].
      * eapply Forall_lookup_1 in Hy; [|exact Himg].
        eapply Forall_lookup_1 in Hy'; [|exact Himg'].
        destruct (tap_binarized img kh kw i j dr dc k Hy) as [->| ->],
                 (tap_binarized img' kh kw i j dr dc k Hy') as [->| ->];
          try done;
          destruct (masked_weight_cases w kh kw cin o A dr dc k oc Hz)
            as [->|[w0 ->]];
          auto using fmul_masked_weight, fmul_absent_weight,
                     eq_sym.
      * f_equal. apply tap_agree. intros Hh Hw.
        destruct (tap_position kh kw i j dr dc Hkh Hkw Hh Hw) as [Hb He].
        rewrite <- (px_Some_img y b img) by done.
        rewrite <- (px_Some_img y' b img') by done.
        apply Hag. by destruct Htap as [?|[? ?]]; [auto|].
    + destruct Hpos as [Hpos _]. by destruct Hpos.
    + destruct Hpos as [_ Hpos]. by destruct Hpos.
  - destruct (at2 img i j) as [v|] eqn:Hv; [|done].
    destruct Hpos as [Hpos _]. by destruct Hpos.
  - destruct (at2 img' i j) as [v|] eqn:Hv; [|done].
    destruct Hpos as [_ Hpos]. by destruct Hpos.
  - done.
Qed.

(** In a graph of this kind the value at a position is a function of the
    binarized feed strictly before that position. *)
Lemma causal_pointwise_depends (sess : session F) n :
  causal_pointwise n →
  ∀ (x x' : tensor F) b i j,
    (∀ r c, is_Some (px x b r c) ↔ is_Some (px x' b r c)) →
    binarized x → binarized x' →
    agree_before x x' b i j →
    px (eval sess n x) b i j = px (eval sess n x') b i j.
Proof.
  induction 1 as [sh o kh kw scope Hkh Hkw|n o scope Hn IH|n Hn IH|n Hn IH];
    intros x x' b i j Hpos Hx Hx' Hag; simpl.
  - by apply conv2d_first_depends.
  - apply conv2d_pointwise_depends. by apply IH.
  - rewrite !px_map4. f_equal. by apply IH.
  - rewrite !px_map4. f_equal. by apply IH.
Qed.
End Binarized.
End ConvFacts.

(** ** The network reads only earlier pixels *)

#[global] Instance Z_scalar_zero : ScalarZero Z.
Proof. split. intros x. apply Z.mul_0_r. Qed.

(** Exact arithmetic meets the law for binarized canvases, and so does
    float32: on each kind of value [w], [w * 0] is NaN or a zero with the
    sign of [w], and multiplying it by 1 or by 0 leaves it as it is. *)
#[global] Instance exact_masked_product {F : Type} `{ScalarZero F} :
  MaskedProduct F.
Proof. split; [intros w|]; by rewrite !fmul_zero_r. Qed.

#[global] Instance float32_masked_product : MaskedProduct float32.
Proof. split; [intros [[]|[]| |[] m e]|]; reflexivity. Qed.

Lemma causal_foldl (f : nat → node → node) l x :
  (∀ k y, causal y → causal (f k y)) →
  causal x → causal (foldl (λ acc idx, f idx acc) x l).
Proof.
  intros Hf. revert x. induction l as [|k l IH]; intros x Hx; simpl; [done|].
  apply IH. by apply Hf.
Qed.

Lemma pixelRNN_causal height width channel ps :
  causal (pixelRNN height width channel ps).1.2.
Proof.
  unfold pixelRNN, for_range. cbn [fst snd].
  apply causal_sigmoid, causal_conv; [|done|done].
  apply causal_foldl.
  { intros k y Hy. apply causal_relu, causal_conv; done. }
  apply causal_foldl.
  { intros k y Hy. apply causal_conv; done. }
  by apply causal_first.
Qed.

Lemma pixelRNN_causal_pointwise height width channel ps :
  causal_pointwise (pixelRNN height width channel ps).1.2.
Proof.
  unfold pixelRNN, for_range. cbn [fst snd].
  apply pointwise_sigmoid, pointwise_conv.
  generalize (seq 0 (out_recurrent_length ps - 0)).
  generalize (seq 0 (recurrent_length ps - 0)). intros l1 l2.
  assert (Hfold : ∀ (f : nat → node → node) l x,
            (∀ k y, causal_pointwise y → causal_pointwise (f k y)) →
            causal_pointwise x →
            causal_pointwise (foldl (λ acc idx, f idx acc) x l)).
  { intros f l. induction l as [|k l IH]; intros x Hf Hx; simpl; [done|].
    apply IH; [done|]. by apply Hf. }
  apply Hfold.
  { intros k y Hy. by apply pointwise_relu, pointwise_conv. }
  apply Hfold.
  { intros k y Hy. by apply pointwise_conv. }
  by apply pointwise_first.
Qed.

Lemma feedable_px_is_Some {F : Type} d0 d1 d2 d3 (x : tensor F) b r c :
  feedable [d0; Some d1; Some d2; d3] x →
  is_Some (px x b r c) ↔ b < length x ∧ r < d1 ∧ c < d2.
Proof.
  intros [_ Hx]. unfold px, at2.
  destruct (x !! b) as [img|] eqn:Himg.
  - pose proof (lookup_lt_Some _ _ _ Himg).
    eapply Forall_lookup_1 in Hx as [Hlen Himgs]; [|done]. simpl in Hlen.
    destruct (img !! r) as [rw|] eqn:Hrw.
    + pose proof (lookup_lt_Some _ _ _ Hrw).
      eapply Forall_lookup_1 in Himgs as [Hlen' _]; [|done]. simpl in Hlen'.
      rewrite lookup_lt_is_Some. lia.
    + apply lookup_ge_None_1 in Hrw. split; [by intros []|lia].
  - apply lookup_ge_None_1 in Himg. split; [by intros []|lia].
Qed.

(** C1: the probability the model computes at a position depends only on
    the input strictly before that position in raster order: two binarized
    canvases (image tensors, every entry 0 or 1) that fit the placeholder,
    have the same batch size and agree at every position strictly before
    [(i, j)] are both accepted and receive the same output at [(i, j)].
    The arithmetic is any that meets [MaskedProduct]: exact arithmetic and
    float32 do. *)
Theorem pixelRNN_reads_only_earlier_pixels
    {F : Type} `{MaskedProduct F} `{Activation F} (sess : session F)
    (height width channel : nat) (ps : params) (x x' : tensor F) (b i j : nat) :
  feedable (input_shape height width channel ps) x →
  feedable (input_shape height width channel ps) x' →
  length x = length x' →
  binarized x → binarized x' →
  agree_before x x' b i j →
  let '(inputs, output, _) := pixelRNN height width channel ps in
  ∃ y y',
    sess_run sess output inputs x = Some y ∧
    sess_run sess output inputs x' = Some y' ∧
    px y b i j = px y' b i j.
Proof.
  intros Hx Hx' Hlen Hbin Hbin' Hag.
  pose proof (pixelRNN_causal_pointwise height width channel ps) as Hc.
  unfold pixelRNN in *. cbn [fst snd] in Hc. unfold sess_run.
  rewrite !decide_True by done.
  eexists _, _. split; [done|]. split; [done|].
  apply causal_pointwise_depends; [done| |done|done|done].
  intros r c. unfold input_shape in Hx, Hx'.
  destruct (use_gpu ps);
    rewrite (feedable_px_is_Some _ _ _ _ x), (feedable_px_is_Some _ _ _ _ x'),
      Hlen by done; done.
Qed.

(** On float32, for the two canvases that differ at position (1, 1). *)
Lemma pixelRNN_reads_only_earlier_pixels_witness :
  feedable (input_shape 2 2 1 tiny) canvas32_a ∧
  feedable (input_shape 2 2 1 tiny) canvas32_b ∧
  length canvas32_a = length canvas32_b ∧
  binarized canvas32_a ∧ binarized canvas32_b ∧
  agree_before canvas32_a canvas32_b 0 1 1 ∧
  ∃ y y',
    sess_run tiny_session32 (pixelRNN 2 2 1 tiny).1.2 (pixelRNN 2 2 1 tiny).1.1
      canvas32_a = Some y ∧
    sess_run tiny_session32 (pixelRNN 2 2 1 tiny).1.2 (pixelRNN 2 2 1 tiny).1.1
      canvas32_b = Some y' ∧
    px y 0 1 1 = px y' 0 1 1.
Proof.
  assert (Hag : agree_before canvas32_a canvas32_b 0 1 1).
  { intros r c [Hlt|[Heq Hlt]]; cbn [fst snd] in *.
    - assert (r = 0) as -> by lia. by destruct c as [|[|c]].
    - assert (c = 0) as -> by lia. by subst r. }
  assert (Ha : binarized canvas32_a).
  { unfold binarized, canvas32_a. repeat constructor; by auto. }
  assert (Hb : binarized canvas32_b).
  { unfold binarized, canvas32_b. repeat constructor; by auto. }
  split; [vm_compute; repeat constructor|].
  split; [vm_compute; repeat constructor|].
  split; [reflexivity|]. split; [exact Ha|]. split; [exact Hb|].
  split; [exact Hag|].
  apply (pixelRNN_reads_only_earlier_pixels tiny_session32 2 2 1 tiny
           canvas32_a canvas32_b 0 1 1).
  - vm_compute; repeat constructor.
  - vm_compute; repeat constructor.
  - reflexivity.
  - exact Ha.
  - exact Hb.
  - exact Hag.
Defined.

(** Why the canvases are taken binarized: on float32 an infinite value at
    a masked position reaches the output, since [inf * 0] is NaN.  The
    canvases [canvas32_a] and [canvas32_inf] agree strictly before
    (1, 1); the logit at (1, 1) is 54 for the first and NaN for the
    second. *)
Example pixelRNN_infinite_pixel :
  agree_before canvas32_a canvas32_inf 0 1 1 ∧
  px (eval tiny_session32 (pixelRNN 2 2 1 tiny).2 canvas32_a) 0 1 1
    = Some [S754_finite false 14155776 (-18)] ∧
  px (eval tiny_session32 (pixelRNN 2 2 1 tiny).2 canvas32_inf) 0 1 1
    = Some [S754_nan] ∧
  px (eval tiny_session32 (pixelRNN 2 2 1 tiny).1.2 canvas32_inf) 0 1 1
    = Some [S754_nan].
Proof.
  split; [|by vm_compute].
  intros r c [Hlt|[Heq Hlt]]; cbn [fst snd] in *.
  - assert (r = 0) as -> by lia. by destruct c as [|[|c]].
  - assert (c = 0) as -> by lia. by subst r.
Qed.

(** ** Shapes, slices and in-place assignment *)

Section TensorFacts.
Context {F : Type}.
Implicit Types t : tensor F.

Lemma has_shape_alt n h w c t :
  has_shape n h w c t ↔
  length t = n ∧
  ∀ b img, t !! b = Some img →
    length img = h ∧
    ∀ i r, img !! i = Some r →
      length r = w ∧ ∀ j (v : list F), r !! j = Some v → length v = c.
Proof.
  unfold has_shape, feedable, dim_ok. rewrite Forall_lookup.
  apply and_iff_compat_l.
  split.
  - intros Ht b img Himg. destruct (Ht b img Himg) as [Hl Hi].
    split; [done|]. rewrite Forall_lookup in Hi. intros i r Hr.
    destruct (Hi i r Hr) as [Hl' Hr']. split; [done|].
    by rewrite Forall_lookup in Hr'.
  - intros Ht b img Himg. destruct (Ht b img Himg) as [Hl Hi].
    split; [done|]. rewrite Forall_lookup. intros i r Hr.
    destruct (Hi i r Hr) as [Hl' Hr']. split; [done|].
    by rewrite Forall_lookup.
Qed.

Lemma has_shape_px n h w c t b i j :
  has_shape n h w c t → b < n → i < h → j < w →
  ∃ v, px t b i j = Some v ∧ length v = c.
Proof.
  rewrite has_shape_alt. intros [Hn Ht] Hb Hi Hj. unfold px, at2.
  destruct (lookup_lt_is_Some_2 t b) as [img Himg]; [lia|]. rewrite Himg.
  destruct (Ht b img Himg) as [Hh Hrows].
  destruct (lookup_lt_is_Some_2 img i) as [r Hr]; [lia|]. rewrite Hr.
  destruct (Hrows i r Hr) as [Hw Hpx].
  destruct (lookup_lt_is_Some_2 r j) as [v Hv]; [lia|]. rewrite Hv.
  eauto.
Qed.

Lemma has_shape_px_is_Some n h w c t b i j :
  has_shape n h w c t → is_Some (px t b i j) ↔ b < n ∧ i < h ∧ j < w.
Proof.
  intros Ht. pose proof Ht as [Hn _].
  rewrite (feedable_px_is_Some _ _ _ _ _ _ _ _ Ht). simpl in Hn. by rewrite Hn.
Qed.

Lemma np_full_shape n h w c (x : F) : has_shape n h w c (np_full n h w c x).
Proof.
  apply has_shape_alt. unfold np_full. split; [apply length_replicate|].
  intros b img [-> _]%lookup_replicate. split; [apply length_replicate|].
  intros i r [-> _]%lookup_replicate. split; [apply length_replicate|].
  intros j v [-> _]%lookup_replicate. apply length_replicate.
Qed.

Lemma px_np_full n h w c (x : F) b i j :
  b < n → i < h → j < w → px (np_full n h w c x) b i j = Some (replicate c x).
Proof.
  intros Hb Hi Hj. unfold px, at2, np_full.
  by rewrite !lookup_replicate_2.
Qed.

(** [t[:, i, j]] lists the channel vectors [t[b, i, j]]. *)
Lemma slice_ij_lookup t i j v b :
  slice_ij t i j = Some v → b < length t → v !! b = px t b i j.
Proof.
  unfold slice_ij, px. intros Hv%mapM_Some Hb.
  destruct (lookup_lt_is_Some_2 t b Hb) as [img Himg]. rewrite Himg.
  destruct (Forall2_lookup_l _ _ _ _ _ Hv Himg) as (x & Hx & Hat).
  by rewrite Hx, Hat.
Qed.

Lemma slice_ij_length t i j v :
  slice_ij t i j = Some v → length v = length t.
Proof. unfold slice_ij. intros Hv%length_mapM. done. Qed.

Lemma slice_ij_shape n h w c t i j :
  has_shape n h w c t → i < h → j < w →
  ∃ v, slice_ij t i j = Some v ∧ length <$> v = replicate n c.
Proof.
  intros Ht Hi Hj.
  assert (His : is_Some (slice_ij t i j)).
  { apply mapM_is_Some, Forall_lookup. intros b img Himg. simpl.
    pose proof Ht as [Hn _]. simpl in Hn.
    destruct (has_shape_px n h w c t b i j Ht) as (v & Hv & _); try done.
    { apply lookup_lt_Some in Himg. lia. }
    unfold px in Hv. rewrite Himg in Hv. by rewrite Hv. }
  destruct His as [v Hv]. exists v. split; [done|].
  pose proof Ht as [Hn _]. simpl in Hn.
  pose proof (slice_ij_length _ _ _ _ Hv) as Hlen.
  apply list_eq. intros b. rewrite list_lookup_fmap.
  destruct (decide (b < n)) as [Hb|Hb].
  - rewrite (slice_ij_lookup t i j v b Hv) by lia.
    destruct (has_shape_px n h w c t b i j Ht) as (x & -> & Hx); try done.
    simpl. by rewrite Hx, lookup_replicate_2.
  - rewrite lookup_ge_None_2 by lia. simpl.
    symmetry. apply lookup_replicate_None. lia.
Qed.

(** The canvas after [t[:, i, j] = v]. *)
Lemma assign_ij_Some t i j v t' :
  assign_ij t i j v = Some t' →
  length v = length t ∧
  t' = zip_with (λ img x, alter (λ r, <[j := x]> r) i img) t v.
Proof.
  unfold assign_ij. destruct (slice_ij t i j) as [old|] eqn:Hold; [|done].
  simpl. case_decide as Hlen; [|done]. intros [= <-]. split; [|done].
  apply slice_ij_length in Hold.
  apply (f_equal length) in Hlen. rewrite !length_fmap in Hlen. lia.
Qed.

Lemma px_assign_ij t i j v t' b r c :
  assign_ij t i j v = Some t' →
  is_Some (px t b i j) →
  px t' b r c = if decide ((r, c) = (i, j)) then v !! b else px t b r c.
Proof.
  intros [Hlen ->]%assign_ij_Some Hin. unfold px in *.
  rewrite lookup_zip_with.
  destruct (t !! b) as [img|] eqn:Himg; [simpl|by destruct Hin].
  destruct (lookup_lt_is_Some_2 v b) as [x Hx].
  { apply lookup_lt_Some in Himg. lia. }
  rewrite Hx. simpl. unfold at2 in *.
  destruct (img !! i) as [ri|] eqn:Hri; [|by destruct Hin].
  destruct (decide (r = i)) as [->|Hr].
  - rewrite list_lookup_alter_eq, Hri. simpl.
    destruct (decide (c = j)) as [->|Hc].
    + rewrite decide_True by done.
      rewrite list_lookup_insert_eq; [done|].
      by apply lookup_lt_is_Some_1.
    + rewrite decide_False by congruence.
      by rewrite list_lookup_insert_ne.
  - rewrite decide_False by congruence.
    by rewrite list_lookup_alter_ne.
Qed.

Lemma assign_ij_shape n h w c t i j v :
  has_shape n h w c t → i < h → j < w →
  length <$> v = replicate n c →
  ∃ t', assign_ij t i j v = Some t' ∧ has_shape n h w c t'.
Proof.
  intros Ht Hi Hj Hv.
  destruct (slice_ij_shape n h w c t i j Ht Hi Hj) as (old & Hold & Hlen).
  unfold assign_ij. rewrite Hold. simpl.
  rewrite decide_True by congruence. eexists; split; [done|].
  apply has_shape_alt in Ht as [Hn Ht]. apply has_shape_alt.
  assert (Hvn : length v = n).
  { apply (f_equal length) in Hv.
    by rewrite length_fmap, length_replicate in Hv. }
  split; [rewrite length_zip_with; lia|].
  intros b img' (img & x & -> & Himg & Hx)%lookup_zip_with_Some.
  destruct (Ht b img Himg) as [Hh Hrows].
  split; [by rewrite length_alter|].
  assert (Hxc : length x = c).
  { apply (f_equal (λ l, l !! b)) in Hv.
    rewrite list_lookup_fmap, Hx in Hv. simpl in Hv.
    symmetry in Hv. by apply lookup_replicate in Hv as [[= ->] _]. }
  intros i' r' Hr'.
  destruct (decide (i' = i)) as [->|Hne].
  - rewrite list_lookup_alter_eq in Hr'.
    destruct (img !! i) as [r|] eqn:Hr; [|done]. simpl in Hr'. simplify_eq.
    destruct (Hrows i r Hr) as [Hw Hpx].
    split; [by rewrite length_insert|].
    intros j' v' Hv'.
    destruct (decide (j' = j)) as [->|Hnej].
    + rewrite list_lookup_insert_eq in Hv' by lia. by simplify_eq.
    + rewrite list_lookup_insert_ne in Hv' by done. eauto.
  - rewrite list_lookup_alter_ne in Hr' by done. eauto.
Qed.

(** Rows are equal when they exist together and hold the same pixels. *)
Lemma row_ext t t' b i :
  (is_Some (row t b i) ↔ is_Some (row t' b i)) →
  (∀ j, px t b i j = px t' b i j) →
  row t b i = row t' b i.
Proof.
  unfold row, px, at2. intros His Hpx.
  destruct (t !! b) as [img|], (t' !! b) as [img'|]; simpl in *.
  - destruct (img !! i) as [r|], (img' !! i) as [r'|]; simpl in *.
    + f_equal. by apply list_eq.
    + destruct His as [His _]. by destruct His.
    + destruct His as [_ His]. by destruct His.
    + done.
  - destruct (img !! i) as [r|]; [|done].
    destruct His as [His _]. by destruct His.
  - destruct (img' !! i) as [r|]; [|done].
    destruct His as [_ His]. by destruct His.
  - done.
Qed.

Lemma has_shape_row_is_Some n h w c t b i :
  has_shape n h w c t → is_Some (row t b i) ↔ b < n ∧ i < h.
Proof.
  rewrite has_shape_alt. intros [Hn Ht]. unfold row, at2.
  destruct (t !! b) as [img|] eqn:Himg.
  - pose proof (lookup_lt_Some _ _ _ Himg).
    destruct (Ht b img Himg) as [Hh _].
    rewrite lookup_lt_is_Some. lia.
  - apply lookup_ge_None_1 in Himg. split; [by intros []|lia].
Qed.
End TensorFacts.

(** ** Raster order and the visiting order of the loops *)

Lemma raster_rows lo m w :
  raster lo (lo + S m) w
  = ((λ j, (lo, j)) <$> seq 0 w) ++ raster (S lo) (S lo + m) w.
Proof.
  unfold raster, range.
  replace (lo + S m - lo) with (S m) by lia.
  replace (S lo + m - S lo) with m by lia.
  by rewrite Nat.sub_0_r.
Qed.

Lemma raster_empty lo w : raster lo lo w = [].
Proof. unfold raster, range. by rewrite Nat.sub_diag. Qed.

(** The [k]-th pixel visited is [(i, j)] exactly when [k] is the row-major
    index of [(i, j)] in the visited block. *)
Lemma raster_lookup m w : ∀ lo k i j,
  raster lo (lo + m) w !! k = Some (i, j)
  ↔ j < w ∧ lo ≤ i < lo + m ∧ k = (i - lo) * w + j.
Proof.
  induction m as [|m IH]; intros lo k i j.
  - rewrite Nat.add_0_r, raster_empty. split; [done|lia].
  - rewrite raster_rows.
    destruct (decide (k < w)) as [Hk|Hk].
    + rewrite lookup_app_l by (by rewrite length_fmap, length_seq).
      rewrite list_lookup_fmap, lookup_seq_lt by done. simpl. split.
      * intros [= <- <-]. split; [done|]. split; [lia|]. nia.
      * intros (Hj & Hi & ->).
        assert (i = lo) as -> by nia. do 2 f_equal. nia.
    + rewrite lookup_app_r by (rewrite length_fmap, length_seq; lia).
      rewrite length_fmap, length_seq, IH. split.
      * intros (Hj & Hi & Hkk). split; [done|]. split; [lia|].
        replace (i - lo) with (S (i - S lo)) by lia. simpl. lia.
      * intros (Hj & Hi & ->).
        assert (lo < i) by nia. split; [done|]. split; [lia|].
        replace (i - lo) with (S (i - S lo)) by lia. simpl. lia.
Qed.

Lemma raster_lookup_ix lo hi w i j :
  lo ≤ i < hi → j < w → raster lo hi w !! ((i - lo) * w + j) = Some (i, j).
Proof.
  intros Hi Hj. replace hi with (lo + (hi - lo)) by lia.
  apply raster_lookup. lia.
Qed.

Lemma raster_elem lo hi w i j :
  (i, j) ∈ raster lo hi w ↔ lo ≤ i < hi ∧ j < w.
Proof.
  rewrite list_elem_of_lookup. split.
  - intros [k Hk]. destruct (decide (lo ≤ hi)) as [Hle|Hgt].
    + replace hi with (lo + (hi - lo)) in Hk by lia.
      apply raster_lookup in Hk. lia.
    + unfold raster, range in Hk. by replace (hi - lo) with 0 in Hk by lia.
  - intros [Hi Hj]. eexists. by apply raster_lookup_ix.
Qed.

Lemma raster_NoDup lo hi w : NoDup (raster lo hi w).
Proof.
  destruct (decide (lo ≤ hi)) as [Hle|Hgt].
  - replace hi with (lo + (hi - lo)) by lia.
    apply NoDup_alt. intros k k' [i j] Hk Hk'.
    apply raster_lookup in Hk, Hk'. lia.
  - unfold raster, range. replace (hi - lo) with 0 by lia. constructor.
Qed.

(** Row-major indices order positions as the raster order does. *)
Lemma index_before w i j i' j' :
  j < w → j' < w → i * w + j < i' * w + j' ↔ before (i, j) (i', j').
Proof. unfold before. cbn [fst snd]. intros Hj Hj'. split; nia. Qed.

(** The pixels among the first [k] visited. *)
Lemma raster_take_elem lo hi w k i j :
  (i, j) ∈ take k (raster lo hi w)
  ↔ lo ≤ i < hi ∧ j < w ∧ (i - lo) * w + j < k.
Proof.
  rewrite elem_of_take. split.
  - intros (k' & Hk' & Hlt).
    pose proof (list_elem_of_lookup_2 _ _ _ Hk') as [Hi Hj]%raster_elem.
    replace hi with (lo + (hi - lo)) in Hk' by lia.
    apply raster_lookup in Hk'. lia.
  - intros (Hi & Hj & Hlt). eexists. split; [by apply raster_lookup_ix|done].
Qed.

(** ** The generation loops *)

Section GenFacts.
Context {F : Type} `{Scalar F} {rng Sess : Type}.
Variable binarize : tensor F → rng → tensor F * rng.
Variable run : Sess → node → node → tensor F → option (tensor F).
Variables (sess : Sess) (inputs output : node).

Local Abbreviation step := (pixel_step binarize run sess inputs output).
Local Abbreviation steps := (run_steps binarize run sess inputs output).

Lemma run_steps_app ps qs st :
  steps (ps ++ qs) st = steps ps st ≫= steps qs.
Proof.
  revert st. induction ps as [|[i j] ps IH]; intros st; simpl; [done|].
  destruct (step i j st) as [st'|]; simpl; [apply IH|done].
Qed.

Lemma for_each_row i l st :
  for_each l (λ j, step i j) st = steps ((λ j, (i, j)) <$> l) st.
Proof.
  revert st. induction l as [|j l IH]; intros st; simpl; [done|].
  destruct (step i j st) as [st'|]; [apply IH|done].
Qed.

(** The nested loops visit the pixels of [raster] one after the other. *)
Lemma for_each_raster lo hi w st :
  for_each (range lo hi) (λ i, for_each (range 0 w) (λ j, step i j)) st
  = steps (raster lo hi w) st.
Proof.
  unfold raster. generalize (range lo hi) as rows. intros rows. revert st.
  induction rows as [|i rows IH]; intros st; simpl; [done|].
  rewrite run_steps_app, for_each_row.
  destruct (steps _ st) as [st'|]; simpl; [apply IH|done].
Qed.

(** The run is well shaped: the forward pass and the binarization return
    arrays of the shape they are given. *)
Variables n h w c : nat.
Hypothesis run_shape : ∀ t,
  has_shape n h w c t →
  ∃ y, run sess output inputs t = Some y ∧ has_shape n h w c y.
Hypothesis binarize_shape : ∀ t g,
  has_shape n h w c t → has_shape n h w c (binarize t g).1.

(** One step writes the binarized output at [(i, j)], for every image of
    the batch, and nothing else. *)
Lemma pixel_step_spec i j s g :
  has_shape n h w c s → i < h → j < w →
  ∃ s' probs,
    run sess output inputs s = Some probs ∧
    step i j (s, g) = Some (s', (binarize probs g).2) ∧
    has_shape n h w c s' ∧
    (∀ b, px s' b i j = px (binarize probs g).1 b i j) ∧
    (∀ b r c', (r, c') ≠ (i, j) → px s' b r c' = px s b r c').
Proof.
  intros Hs Hi Hj.
  destruct (run_shape s Hs) as (probs & Hrun & Hprobs).
  pose proof (binarize_shape probs g Hprobs) as Hnext.
  destruct (slice_ij_shape n h w c _ i j Hnext Hi Hj) as (v & Hv & Hvlen).
  destruct (assign_ij_shape n h w c s i j v Hs Hi Hj Hvlen) as (s' & Hs' & Hshape).
  exists s', probs. split; [done|].
  unfold pixel_step, predict. cbn [fst snd]. rewrite Hrun, Hv, Hs'.
  split; [done|]. split; [done|].
  pose proof Hnext as [Hn _]. simpl in Hn.
  assert (Hpx : ∀ b r c',
    px s' b r c'
    = if decide (b < n)
      then (if decide ((r, c') = (i, j)) then v !! b else px s b r c')
      else None).
  { intros b r c'. case_decide as Hb.
    - apply px_assign_ij; [done|].
      eapply has_shape_px_is_Some; [done|lia].
    - destruct (px s' b r c') eqn:Hp; [|done].
      assert (is_Some (px s' b r c')) as Hsome by done.
      eapply has_shape_px_is_Some in Hsome; [|done]. lia. }
  split.
  - intros b. rewrite Hpx. destruct (decide (b < n)) as [Hb|Hb].
    + rewrite decide_True by done. apply slice_ij_lookup; [done|lia].
    + destruct (px _ b i j) eqn:Hp; [|done].
      assert (is_Some (px (binarize probs g).1 b i j)) as Hsome by done.
      eapply has_shape_px_is_Some in Hsome; [|done]. lia.
  - intros b r c' Hne. rewrite Hpx. destruct (decide (b < n)) as [Hb|Hb].
    + by rewrite decide_False.
    + destruct (px s b r c') eqn:Hp; [|done].
      assert (is_Some (px s b r c')) as Hsome by done.
      eapply has_shape_px_is_Some in Hsome; [|done]. lia.
Qed.

(** Running over distinct in-range pixels succeeds; every pixel not
    visited keeps its value, and every visited pixel holds the binarized
    output computed from the canvas as it stood when it was visited. *)
Lemma run_steps_spec ps : ∀ s g,
  has_shape n h w c s →
  Forall (λ q, q.1 < h ∧ q.2 < w) ps → NoDup ps →
  ∃ s' g',
    steps ps (s, g) = Some (s', g') ∧
    has_shape n h w c s' ∧
    (∀ b r c', (r, c') ∉ ps → px s' b r c' = px s b r c') ∧
    (∀ k i j, ps !! k = Some (i, j) →
       ∃ sk gk probs,
         steps (take k ps) (s, g) = Some (sk, gk) ∧
         run sess output inputs sk = Some probs ∧
         ∀ b, px s' b i j = px (binarize probs gk).1 b i j).
Proof.
  induction ps as [|[i j] ps IH] using rev_ind; intros s g Hs Hin Hnd.
  - exists s, g. split; [done|]. split; [done|]. split; [done|].
    intros k i j Hk. done.
  - apply Forall_app in Hin as [Hin Hij]. rewrite Forall_singleton in Hij.
    simpl in Hij. destruct Hij as [Hi Hj].
    apply NoDup_app in Hnd as (Hnd & Hfresh & _).
    destruct (IH s g Hs Hin Hnd) as (s1 & g1 & Hrun1 & Hs1 & Hframe & Hvals).
    destruct (pixel_step_spec i j s1 g1 Hs1 Hi Hj)
      as (s2 & probs & Hprobs & Hstep & Hs2 & Hwritten & Hother).
    exists s2, (binarize probs g1).2.
    split; [by rewrite run_steps_app, Hrun1; simpl; rewrite Hstep|].
    split; [done|]. split.
    + intros b r c' [Hnot Hne]%not_elem_of_app.
      rewrite list_elem_of_singleton in Hne.
      rewrite Hother by done. by apply Hframe.
    + intros k i' j' Hk. apply lookup_snoc_Some in Hk as [[Hlt Hk]|[-> Heq]].
      * destruct (Hvals k i' j' Hk) as (sk & gk & pk & Hsk & Hpk & Hval).
        exists sk, gk, pk. rewrite take_app_le by lia.
        split; [done|]. split; [done|]. intros b.
        rewrite Hother; [apply Hval|].
        intros [= -> ->]. eapply Hfresh; [by eapply list_elem_of_lookup_2|].
        by apply list_elem_of_singleton.
      * simplify_eq. exists s1, g1, probs. rewrite take_app_length.
        split; [done|]. split; [done|]. apply Hwritten.
Qed.

Lemma take_drop_disjoint {A : Type} (l : list A) k x :
  NoDup l → x ∈ take k l → x ∉ drop k l.
Proof.
  intros Hnd Hx. rewrite <- (take_drop k l) in Hnd.
  apply NoDup_app in Hnd as (_ & Hdis & _). by apply Hdis.
Qed.

(** The run around its [k]-th pixel [(i, j)]: the canvas before the
    step, after the step, and at the end. *)
Lemma run_steps_at ps k i j s g :
  has_shape n h w c s →
  Forall (λ q, q.1 < h ∧ q.2 < w) ps → NoDup ps →
  ps !! k = Some (i, j) →
  ∃ s0 g0 probs s1 s2 g2,
    steps (take k ps) (s, g) = Some (s0, g0) ∧
    run sess output inputs s0 = Some probs ∧
    steps (take (S k) ps) (s, g) = Some (s1, (binarize probs g0).2) ∧
    steps ps (s, g) = Some (s2, g2) ∧
    (∀ b, px s1 b i j = px (binarize probs g0).1 b i j) ∧
    (∀ b r c', (r, c') ≠ (i, j) → px s1 b r c' = px s0 b r c') ∧
    (∀ b r c', (r, c') ∉ take (S k) ps → px s1 b r c' = px s b r c') ∧
    (∀ b r c', (r, c') ∉ drop (S k) ps → px s2 b r c' = px s1 b r c') ∧
    has_shape n h w c s0 ∧ has_shape n h w c s2.
Proof.
  intros Hs Hin Hnd Hk.
  assert (Hnd0 : NoDup (take k ps)) by (eapply sublist_NoDup; [exact Hnd|apply sublist_take]).
  assert (Hnd1 : NoDup (take (S k) ps)) by (eapply sublist_NoDup; [exact Hnd|apply sublist_take]).
  assert (Hnd2 : NoDup (drop (S k) ps)) by (eapply sublist_NoDup; [exact Hnd|apply sublist_drop]).
  destruct (run_steps_spec (take k ps) s g Hs (Forall_take _ _ _ Hin) Hnd0)
    as (s0 & g0 & Hrun0 & Hs0 & _ & _).
  pose proof (Forall_lookup_1 _ _ _ _ Hin Hk) as [Hi Hj]. simpl in Hi, Hj.
  destruct (pixel_step_spec i j s0 g0 Hs0 Hi Hj)
    as (s1 & probs & Hprobs & Hstep & Hs1 & Hwritten & Hother).
  assert (Hrun1 : steps (take (S k) ps) (s, g) = Some (s1, (binarize probs g0).2)).
  { rewrite (take_S_r ps k (i, j)) by done.
    rewrite run_steps_app, Hrun0. simpl. by rewrite Hstep. }
  destruct (run_steps_spec (take (S k) ps) s g Hs (Forall_take _ _ _ Hin) Hnd1)
    as (s1' & g1' & Hrun1' & _ & Hframe1 & _).
  rewrite Hrun1 in Hrun1'. simplify_eq.
  destruct (run_steps_spec (drop (S k) ps) s1' (binarize probs g0).2 Hs1
              (Forall_drop _ _ _ Hin) Hnd2)
    as (s2 & g2 & Hrun2 & Hs2 & Hframe2 & _).
  exists s0, g0, probs, s1', s2, g2.
  split; [done|]. split; [done|]. split; [done|]. split.
  { rewrite <- (take_drop (S k) ps) at 1.
    rewrite run_steps_app, Hrun1. done. }
  done.
Qed.
End GenFacts.

(** ** [generate] *)

Lemma generate_run {F : Type} `{Scalar F} {rng Sess : Type}
    (binarize : tensor F → rng → tensor F * rng)
    (run : Sess → node → node → tensor F → option (tensor F))
    (g : rng) (sess : Sess) (height width : nat) (inputs output : node) :
  generate binarize run g sess height width inputs output
  = fst <$> run_steps binarize run sess inputs output (raster 0 height width)
              (np_full 100 height width 1 fzero, g).
Proof. unfold generate. by rewrite for_each_raster. Qed.

Lemma raster_in_range lo hi w :
  Forall (λ q : nat * nat, q.1 < hi ∧ q.2 < w) (raster lo hi w).
Proof.
  apply Forall_forall. intros [i j] Hin%raster_elem. simpl. lia.
Qed.

(** C2: [generate] fills the canvas in raster order.  The step for pixel
    [(i, j)] runs on the canvas left by the previous steps and changes
    position [(i, j)] only, to the binarized model output there; afterwards
    every position strictly after [(i, j)] still holds its initial value
    and every position at or before [(i, j)] holds the value it has in the
    returned canvas. *)
Theorem generate_fills_in_raster_order {F : Type} `{Scalar F} {rng Sess : Type}
    (binarize : tensor F → rng → tensor F * rng)
    (run : Sess → node → node → tensor F → option (tensor F))
    (g : rng) (sess : Sess) (height width : nat) (inputs output : node)
    (i j : nat) :
  (∀ t, has_shape 100 height width 1 t →
        ∃ y, run sess output inputs t = Some y ∧ has_shape 100 height width 1 y) →
  (∀ t g', has_shape 100 height width 1 t →
           has_shape 100 height width 1 (binarize t g').1) →
  i < height → j < width →
  ∃ s0 g0 probs s1 out,
    generate_after binarize run (i * width + j) g sess height width inputs output
      = Some (s0, g0) ∧
    run sess output inputs s0 = Some probs ∧
    generate_after binarize run (i * width + j + 1) g sess height width inputs output
      = Some (s1, (binarize probs g0).2) ∧
    generate binarize run g sess height width inputs output = Some out ∧
    (∀ b, px s1 b i j = px (binarize probs g0).1 b i j) ∧
    (∀ b r c, (r, c) ≠ (i, j) → px s1 b r c = px s0 b r c) ∧
    (∀ b r c, before (i, j) (r, c) →
              px s1 b r c = px (np_full 100 height width 1 fzero) b r c) ∧
    (∀ b r c, before (r, c) (i, j) ∨ (r, c) = (i, j) →
              px s1 b r c = px out b r c).
Proof.
  intros Hrun Hbin Hi Hj.
  assert (Hk : raster 0 height width !! (i * width + j) = Some (i, j)).
  { rewrite <- (Nat.sub_0_r i) at 1. apply raster_lookup_ix; lia. }
  destruct (run_steps_at binarize run sess inputs output 100 height width 1
              Hrun Hbin (raster 0 height width) (i * width + j) i j
              (np_full 100 height width 1 fzero) g
              (np_full_shape _ _ _ _ _) (raster_in_range _ _ _)
              (raster_NoDup _ _ _) Hk)
    as (s0 & g0 & probs & s1 & s2 & g2 & H0 & Hp & H1 & H2 & Hw & Ho & Hinit & Hfin & _).
  exists s0, g0, probs, s1, s2. unfold generate_after.
  rewrite generate_run, H2. replace (i * width + j + 1) with (S (i * width + j)) by lia.
  split; [done|]. split; [done|]. split; [done|]. split; [done|].
  split; [done|]. split; [done|]. split.
  - intros b r c Hafter. apply Hinit.
    rewrite raster_take_elem, Nat.sub_0_r. intros (Hr & Hc & Hlt).
    assert (r * width + c < i * width + j ∨ (r, c) = (i, j)) as [Hlt'|[= -> ->]].
    { destruct (decide (r * width + c = i * width + j)) as [Heq|Hne]; [|lia].
      right. assert (r = i) as -> by nia. f_equal. lia. }
    + apply index_before in Hlt'; [|done..].
      unfold before in *. cbn [fst snd] in *. lia.
    + unfold before in Hafter. cbn [fst snd] in Hafter. lia.
  - intros b r c Hrc. symmetry. apply Hfin.
    destruct (decide ((r, c) ∈ raster 0 height width)) as [Hin|Hout].
    + apply take_drop_disjoint; [apply raster_NoDup|].
      apply raster_elem in Hin as [Hr Hc].
      rewrite raster_take_elem, Nat.sub_0_r. split; [done|]. split; [done|].
      destruct Hrc as [Hb|[= -> ->]]; [|lia].
      pose proof (proj2 (index_before width r c i j Hc Hj) Hb). lia.
    + intros Hd. apply Hout. by eapply subseteq_drop.
Qed.

Lemma map4_shape {F : Type} (f : F → F) n h w c (t : tensor F) :
  has_shape n h w c t → has_shape n h w c (map4 f t).
Proof.
  rewrite !has_shape_alt. intros [Hn Ht]. unfold map4.
  split; [by rewrite length_fmap|].
  intros b img' (img & -> & Himg)%list_lookup_fmap_Some.
  destruct (Ht b img Himg) as [Hh Hrows].
  split; [by rewrite length_fmap|].
  intros i r' (r & -> & Hr)%list_lookup_fmap_Some.
  destruct (Hrows i r Hr) as [Hw Hpx].
  split; [by rewrite length_fmap|].
  intros j v' (v & -> & Hv)%list_lookup_fmap_Some.
  rewrite length_fmap. eauto.
Qed.

Lemma constant_model_shape q sess output inputs n h w c (t : tensor Q) :
  has_shape n h w c t →
  ∃ y, constant_model q sess output inputs t = Some y ∧ has_shape n h w c y.
Proof. intros Ht. eexists. split; [done|]. by apply map4_shape. Qed.

Lemma binarize_threshold_shape n h w c (t : tensor Q) g :
  has_shape n h w c t → has_shape n h w c (binarize_threshold t g).1.
Proof. intros Ht. by apply map4_shape. Qed.

Lemma generate_fills_in_raster_order_witness :
  ∃ s0 g0 probs s1 out,
    generate_after binarize_threshold (constant_model (9 # 10)) (0 * 2 + 1)
      tt tt 2 2 (pixelRNN 2 2 1 p).1.1 (pixelRNN 2 2 1 p).1.2 = Some (s0, g0) ∧
    constant_model (9 # 10) tt (pixelRNN 2 2 1 p).1.2 (pixelRNN 2 2 1 p).1.1 s0
      = Some probs ∧
    generate_after binarize_threshold (constant_model (9 # 10)) (0 * 2 + 1 + 1)
      tt tt 2 2 (pixelRNN 2 2 1 p).1.1 (pixelRNN 2 2 1 p).1.2
      = Some (s1, (binarize_threshold probs g0).2) ∧
    generate binarize_threshold (constant_model (9 # 10))
      tt tt 2 2 (pixelRNN 2 2 1 p).1.1 (pixelRNN 2 2 1 p).1.2 = Some out ∧
    (∀ b, px s1 b 0 1 = px (binarize_threshold probs g0).1 b 0 1) ∧
    (∀ b r c, (r, c) ≠ (0, 1) → px s1 b r c = px s0 b r c) ∧
    (∀ b r c, before (0, 1) (r, c) →
              px s1 b r c = px (np_full 100 2 2 1 (fzero : Q)) b r c) ∧
    (∀ b r c, before (r, c) (0, 1) ∨ (r, c) = (0, 1) →
              px s1 b r c = px out b r c).
Proof.
  apply (generate_fills_in_raster_order binarize_threshold
           (constant_model (9 # 10)) tt tt 2 2
           (pixelRNN 2 2 1 p).1.1 (pixelRNN 2 2 1 p).1.2 0 1).
  - intros t. apply constant_model_shape.
  - intros t g'. apply binarize_threshold_shape.
  - lia.
  - lia.
Defined.

(** C7 as amended: [generate] has no batch-size argument; whatever the
    caller's batch size, the canvas it returns holds 100 images of
    [height] rows, [width] columns and one channel. *)
Theorem generate_shape {F : Type} `{Scalar F} {rng Sess : Type}
    (binarize : tensor F → rng → tensor F * rng)
    (run : Sess → node → node → tensor F → option (tensor F))
    (g : rng) (sess : Sess) (height width : nat) (inputs output : node) :
  (∀ t, has_shape 100 height width 1 t →
        ∃ y, run sess output inputs t = Some y ∧ has_shape 100 height width 1 y) →
  (∀ t g', has_shape 100 height width 1 t →
           has_shape 100 height width 1 (binarize t g').1) →
  generate_after binarize run 0 g sess height width inputs output
    = Some (np_full 100 height width 1 fzero, g) ∧
  ∃ out,
    generate binarize run g sess height width inputs output = Some out ∧
    has_shape 100 height width 1 out.
Proof.
  intros Hrun Hbin. split; [done|].
  destruct (run_steps_spec binarize run sess inputs output 100 height width 1
              Hrun Hbin (raster 0 height width)
              (np_full 100 height width 1 fzero) g
              (np_full_shape _ _ _ _ _) (raster_in_range _ _ _)
              (raster_NoDup _ _ _))
    as (out & g' & Hout & Hshape & _).
  exists out. by rewrite generate_run, Hout.
Qed.

Lemma generate_shape_witness :
  generate_after binarize_threshold (constant_model (9 # 10)) 0 tt tt 2 3
    (pixelRNN 2 3 1 p).1.1 (pixelRNN 2 3 1 p).1.2
    = Some (np_full 100 2 3 1 (fzero : Q), tt) ∧
  ∃ out,
    generate binarize_threshold (constant_model (9 # 10)) tt tt 2 3
      (pixelRNN 2 3 1 p).1.1 (pixelRNN 2 3 1 p).1.2 = Some out ∧
    has_shape 100 2 3 1 out.
Proof.
  apply (generate_shape binarize_threshold (constant_model (9 # 10)) tt tt 2 3
           (pixelRNN 2 3 1 p).1.1 (pixelRNN 2 3 1 p).1.2).
  - intros t. apply constant_model_shape.
  - intros t g'. apply binarize_threshold_shape.
Defined.

(** C7 as stated fails: a caller working with a batch of one image still
    receives a canvas of 100 images. *)
Lemma generate_batch_is_not_the_callers :
  let batch_size := 1 in
  ∃ out,
    generate binarize_threshold (constant_model (9 # 10)) tt tt 1 1
      (pixelRNN 1 1 1 p).1.1 (pixelRNN 1 1 1 p).1.2 = Some out ∧
    length out = 100 ∧ length out ≠ batch_size.
Proof. eexists. split; [vm_compute; reflexivity|]. split; [done|]. simpl. lia. Qed.

(** C9: on a 3x3 single-channel canvas a model that returns 0.9 everywhere
    generates all ones, and one that returns 0.1 everywhere generates all
    zeros (threshold 0.5): the canvas returned holds 100 images of three
    rows of three one-channel pixels, written out here entry by entry. *)
Theorem generate_constant_model :
  generate binarize_threshold (constant_model (9 # 10)) tt tt 3 3
    (pixelRNN 3 3 1 p).1.1 (pixelRNN 3 3 1 p).1.2
    = Some (replicate 100 [[[1%Q]; [1%Q]; [1%Q]];
                           [[1%Q]; [1%Q]; [1%Q]];
                           [[1%Q]; [1%Q]; [1%Q]]]) ∧
  generate binarize_threshold (constant_model (1 # 10)) tt tt 3 3
    (pixelRNN 3 3 1 p).1.1 (pixelRNN 3 3 1 p).1.2
    = Some (replicate 100 [[[0%Q]; [0%Q]; [0%Q]];
                           [[0%Q]; [0%Q]; [0%Q]];
                           [[0%Q]; [0%Q]; [0%Q]]]).
Proof. split; vm_compute; reflexivity. Qed.

(** ** [generate_occlusions] *)

Lemma generate_occlusions_run {F : Type} `{Scalar F} {rng Sess : Type}
    (binarize : tensor F → rng → tensor F * rng)
    (occlude : tensor F → nat → nat → tensor F)
    (run : Sess → node → node → tensor F → option (tensor F))
    (images : tensor F) (g : rng) (sess : Sess) (height width : nat)
    (inputs output : node) :
  generate_occlusions binarize occlude run images g sess height width inputs output
  = fst <$> run_steps binarize run sess inputs output
              (raster (height / 2) height width)
              (occlude images height width, g).
Proof. unfold generate_occlusions. cbn [fst snd]. by rewrite for_each_raster. Qed.

(** C5: the loop of [generate_occlusions] never writes a row above
    [height // 2]: after any number of steps, and in the returned canvas,
    those rows are the rows of the seeded canvas; every pixel of the rows
    from [height // 2] on is regenerated, from the canvas as it stood when
    the pixel was visited. *)
Theorem generate_occlusions_keeps_top_rows {F : Type} `{Scalar F} {rng Sess : Type}
    (binarize : tensor F → rng → tensor F * rng)
    (occlude : tensor F → nat → nat → tensor F)
    (run : Sess → node → node → tensor F → option (tensor F))
    (images : tensor F) (g : rng) (sess : Sess) (height width : nat)
    (inputs output : node) (n c : nat) :
  has_shape n height width c (occlude images height width) →
  (∀ t, has_shape n height width c t →
        ∃ y, run sess output inputs t = Some y ∧ has_shape n height width c y) →
  (∀ t g', has_shape n height width c t →
           has_shape n height width c (binarize t g').1) →
  (∀ k, ∃ s gk,
     generate_occlusions_after binarize occlude run k images g sess height width
       inputs output = Some (s, gk) ∧
     ∀ b i, i < height / 2 → row s b i = row (occlude images height width) b i) ∧
  ∃ out,
    generate_occlusions binarize occlude run images g sess height width
      inputs output = Some out ∧
    (∀ b i, i < height / 2 → row out b i = row (occlude images height width) b i) ∧
    (∀ i j, height / 2 ≤ i < height → j < width →
       ∃ sk gk probs,
         generate_occlusions_after binarize occlude run
           ((i - height / 2) * width + j) images g sess height width
           inputs output = Some (sk, gk) ∧
         run sess output inputs sk = Some probs ∧
         ∀ b, px out b i j = px (binarize probs gk).1 b i j).
Proof.
  intros Hseed Hrun Hbin.
  assert (Hrows : ∀ ps s, ps ⊆ raster (height / 2) height width →
     has_shape n height width c s →
     (∀ b r c', (r, c') ∉ ps → px s b r c' = px (occlude images height width) b r c') →
     ∀ b i, i < height / 2 → row s b i = row (occlude images height width) b i).
  { intros ps s Hsub Hs Hframe b i Hi. apply row_ext.
    - by rewrite !has_shape_row_is_Some.
    - intros j. apply Hframe. intros Hin%Hsub%raster_elem. lia. }
  split.
  - intros k. unfold generate_occlusions_after.
    destruct (run_steps_spec binarize run sess inputs output n height width c
                Hrun Hbin (take k (raster (height / 2) height width))
                (occlude images height width) g Hseed
                (Forall_take _ _ _ (raster_in_range _ _ _)))
      as (s & gk & Hs & Hshape & Hframe & _).
    { eapply sublist_NoDup; [apply raster_NoDup|apply sublist_take]. }
    exists s, gk. split; [done|].
    eapply Hrows; [apply subseteq_take|done|done].
  - destruct (run_steps_spec binarize run sess inputs output n height width c
                Hrun Hbin (raster (height / 2) height width)
                (occlude images height width) g Hseed
                (raster_in_range _ _ _) (raster_NoDup _ _ _))
      as (out & g' & Hout & Hshape & Hframe & Hvals).
    exists out. rewrite generate_occlusions_run, Hout.
    split; [done|]. split.
    + eapply Hrows; [|done|done]. done.
    + intros i j Hi Hj. unfold generate_occlusions_after.
      apply Hvals. by apply raster_lookup_ix.
Qed.

Lemma generate_occlusions_keeps_top_rows_witness :
  has_shape 1 4 4 1 (occlude_copy seed_top 4 4) ∧
  (∀ k, ∃ s gk,
     generate_occlusions_after binarize_threshold occlude_copy
       (constant_model (1 # 2)) k seed_top tt tt 4 4
       (pixelRNN 4 4 1 p).1.1 (pixelRNN 4 4 1 p).1.2 = Some (s, gk) ∧
     ∀ b i, i < 4 / 2 → row s b i = row (occlude_copy seed_top 4 4) b i) ∧
  ∃ out,
    generate_occlusions binarize_threshold occlude_copy (constant_model (1 # 2))
      seed_top tt tt 4 4 (pixelRNN 4 4 1 p).1.1 (pixelRNN 4 4 1 p).1.2
      = Some out ∧
    (∀ b i, i < 4 / 2 → row out b i = row (occlude_copy seed_top 4 4) b i) ∧
    (∀ i j, 4 / 2 ≤ i < 4 → j < 4 →
       ∃ sk gk probs,
         generate_occlusions_after binarize_threshold occlude_copy
           (constant_model (1 # 2)) ((i - 4 / 2) * 4 + j) seed_top tt tt 4 4
           (pixelRNN 4 4 1 p).1.1 (pixelRNN 4 4 1 p).1.2 = Some (sk, gk) ∧
         constant_model (1 # 2) tt (pixelRNN 4 4 1 p).1.2 (pixelRNN 4 4 1 p).1.1 sk
           = Some probs ∧
         ∀ b, px out b i j = px (binarize_threshold probs gk).1 b i j).
Proof.
  assert (Hseed : has_shape 1 4 4 1 (occlude_copy seed_top 4 4)).
  { vm_compute. repeat constructor. }
  split; [exact Hseed|].
  apply (generate_occlusions_keeps_top_rows binarize_threshold occlude_copy
           (constant_model (1 # 2)) seed_top tt tt 4 4
           (pixelRNN 4 4 1 p).1.1 (pixelRNN 4 4 1 p).1.2 1 1).
  - exact Hseed.
  - intros t. apply constant_model_shape.
  - intros t g'. apply binarize_threshold_shape.
Defined.

(** The occlusion scenario of the design: top two rows of ones, a model
    that answers 0.5 everywhere; the tie goes to 0, so the top stays and
    the bottom becomes zeros. *)
Example generate_occlusions_tie :
  generate_occlusions binarize_threshold occlude_copy (constant_model (1 # 2))
    seed_top tt tt 4 4 (pixelRNN 4 4 1 p).1.1 (pixelRNN 4 4 1 p).1.2
  = Some seed_top.
Proof. vm_compute. reflexivity. Qed.

(** ** The seed of [generate_occlusions] *)

Lemma keyword_Some {V : Type} name (kwargs : list (string * V)) v :
  keyword name kwargs = Some v → (name, v) ∈ kwargs.
Proof.
  induction kwargs as [|[k v'] kwargs IH]; simpl; [done|].
  case_decide as Hk.
  - intros [= ->]. subst k. left.
  - intros Hv. right. by apply IH.
Qed.

(** What a call that binds has bound. *)
Lemma bind_args_Some {V : Type} params args kwargs (env : list (string * V)) :
  bind_args params args kwargs = Some env →
  length args ≤ length params ∧ NoDup kwargs.*1 ∧
  (∀ k, k ∈ kwargs.*1 → k ∈ drop (length args) params) ∧
  ∃ named,
    Forall2 (λ name entry, ∃ v, keyword name kwargs = Some v ∧ entry = (name, v))
            (drop (length args) params) named ∧
    env = zip params args ++ named.
Proof.
  unfold bind_args. cbv zeta. case_decide as Hok; [|done].
  destruct Hok as (Hlen & Hnd & Hsub).
  destruct (mapM _ _) as [named|] eqn:Hnamed; [|done]. simpl.
  intros [= <-]. split; [done|]. split; [done|]. split.
  - intros k Hk. rewrite Forall_forall in Hsub. by apply Hsub.
  - exists named. split; [|done]. apply mapM_Some_1 in Hnamed.
    eapply Forall2_impl; [exact Hnamed|]. intros name entry Hentry. simpl in Hentry.
    destruct (keyword name kwargs) as [v|]; [|done].
    simpl in Hentry. injection Hentry as <-. by exists v.
Qed.

(** Every parameter is bound, in the order of the [def]. *)
Lemma bind_args_names {V : Type} params args kwargs (env : list (string * V)) :
  bind_args params args kwargs = Some env → env.*1 = params.
Proof.
  intros (Hlen & _ & _ & named & Hnamed & ->)%bind_args_Some.
  rewrite fmap_app.
  assert ((zip params args).*1 = take (length args) params) as ->.
  { rewrite <- (zip_with_take_l pair params args).
    apply fst_zip. rewrite length_take. lia. }
  assert (named.*1 = drop (length args) params) as ->.
  { induction Hnamed as [|name entry rest named (v & _ & ->) _ IH]; [done|].
    simpl. f_equal. apply IH. }
  apply take_drop.
Qed.

(** A call that binds passes as many arguments as there are parameters. *)
Lemma bind_args_count {V : Type} params args kwargs (env : list (string * V)) :
  NoDup params →
  bind_args params args kwargs = Some env →
  length args + length kwargs = length params.
Proof.
  intros Hparams (Hlen & Hnd & Hsub & named & Hnamed & ->)%bind_args_Some.
  assert (kwargs.*1 ≡ₚ drop (length args) params) as Hperm.
  { apply NoDup_Permutation; [done| |].
    - eapply sublist_NoDup; [exact Hparams|apply sublist_drop].
    - intros k. split; [apply Hsub|]. intros Hk.
      apply list_elem_of_lookup in Hk as [i Hi].
      destruct (Forall2_lookup_l _ _ _ _ _ Hnamed Hi) as (entry & _ & v0 & Hv0 & _).
      apply keyword_Some in Hv0. apply list_elem_of_fmap. by exists (k, v0). }
  apply Permutation_length in Hperm.
  rewrite length_fmap, length_drop in Hperm. lia.
Qed.

Lemma generate_occlusions_params_NoDup : NoDup generate_occlusions_params.
Proof. by apply (bool_decide_unpack _). Qed.

Lemma bind_args_positional {V : Type} (a b c d e : V) :
  bind_args generate_occlusions_params [a; b; c; d; e] []
  = Some [("sess", a); ("height", b); ("width", c); ("inputs", d); ("output", e)].
Proof. reflexivity. Qed.

(** C6 as amended: [generate_occlusions] has no seed parameter.  A call
    that goes through has bound exactly the five parameters [sess],
    [height], [width], [inputs] and [output], and passes nothing under the
    name [seed_images].  Its canvas starts as
    [occlude(images, height, width)] for the value the notebook variable
    [images] holds when the call is made, whatever the arguments are, and
    the run is determined from there (it is that canvas itself when there
    is no pixel to visit); with [images] unbound the call fails. *)
Theorem generate_occlusions_seed {F : Type} `{Scalar F} {rng Sess Data Stat : Type}
    (binarize : tensor F → rng → tensor F * rng)
    (occlude : tensor F → nat → nat → tensor F)
    (run : Sess → node → node → tensor F → option (tensor F))
    (nb : notebook F rng Sess Data Stat)
    (args : list (value F Sess)) (kwargs : list (string * value F Sess)) :
  (∀ out,
     call_generate_occlusions binarize occlude run nb args kwargs = Some out →
     ("seed_images" ∉ kwargs.*1) ∧
     length args + length kwargs = 5 ∧
     ∃ images sess height width inputs output,
       nb_images nb = Some images ∧
       bind_args generate_occlusions_params args kwargs
       = Some [("sess", sess); ("height", VInt height);
               ("width", VInt width); ("inputs", inputs);
               ("output", output)] ∧
       ((∃ sess' inputs' output',
           sess = VSess sess' ∧ inputs = VNode inputs' ∧
           output = VNode output' ∧
           generate_occlusions_after binarize occlude run 0 images
             (nb_random nb) sess' height width inputs' output'
           = Some (occlude images height width, nb_random nb) ∧
           fst <$> run_steps binarize run sess' inputs' output'
                     (raster (height / 2) height width)
                     (occlude images height width, nb_random nb) = Some out) ∨
        ((height = 0 ∨ width = 0) ∧ out = occlude images height width))) ∧
  (∀ sess height width inputs output,
     call_generate_occlusions binarize occlude run nb
       [VSess sess; VInt height; VInt width; VNode inputs; VNode output] []
     = match nb_images nb with
       | Some images =>
           fst <$> run_steps binarize run sess inputs output
                     (raster (height / 2) height width)
                     (occlude images height width, nb_random nb)
       | None => None
       end).
Proof.
  split.
  - intros out Hcall. unfold call_generate_occlusions in Hcall.
    destruct (bind_args _ _ _) as [env|] eqn:Hbind; [|done].
    pose proof (bind_args_names _ _ _ _ Hbind) as Hnames.
    pose proof (bind_args_count _ _ _ _ generate_occlusions_params_NoDup Hbind)
      as Hcount.
    apply bind_args_Some in Hbind as Hbound.
    destruct Hbound as (_ & _ & Hsub & _).
    destruct env as [|[k1 sess] [|[k2 [|height| |]] [|[k3 [|width| |]]
                    [|[k4 inputs] [|[k5 output] [|]]]]]]; try done.
    simpl in Hnames. injection Hnames as -> -> -> -> ->.
    destruct (nb_images nb) as [images|]; [|done].
    split; [|split; [done|]].
    + intros Hin%Hsub%subseteq_drop.
      by repeat (apply elem_of_cons in Hin as [?|Hin]; [done|]);
        apply elem_of_nil in Hin.
    + exists images, sess, height, width, inputs, output.
      split; [done|]. split; [done|].
      destruct sess as [sess'| | |], inputs as [| |inputs'|],
               output as [| |output'|];
        try (right; case_decide; [by injection Hcall as <-|done]).
      left. exists sess', inputs', output'. split; [done|]. split; [done|].
      split; [done|]. split; [done|]. by rewrite <- generate_occlusions_run.
  - intros sess height width inputs output. unfold call_generate_occlusions.
    rewrite bind_args_positional.
    destruct (nb_images nb) as [images|]; [|done].
    apply generate_occlusions_run.
Qed.

Lemma generate_occlusions_seed_witness :
  ∃ out,
    call_generate_occlusions (Data:=nat) (Stat:=list (Q * Q)) binarize_threshold
      occlude_copy (constant_model (1 # 2)) (notebook_with seed_top)
      [VSess tt; VInt 4; VInt 4]
      [("output", VNode (pixelRNN 4 4 1 p).1.2);
       ("inputs", VNode (pixelRNN 4 4 1 p).1.1)] = Some out ∧
    ("seed_images" ∉ ["output"; "inputs"]) ∧
    ∃ images sess height width inputs output,
      nb_images (notebook_with seed_top) = Some images ∧
      bind_args generate_occlusions_params
        [VSess (F:=Q) tt; VInt 4; VInt 4]
        [("output", VNode (pixelRNN 4 4 1 p).1.2);
         ("inputs", VNode (pixelRNN 4 4 1 p).1.1)]
      = Some [("sess", sess); ("height", VInt height);
              ("width", VInt width); ("inputs", inputs);
              ("output", output)] ∧
      ((∃ sess' inputs' output',
          sess = VSess sess' ∧ inputs = VNode inputs' ∧
          output = VNode output' ∧
          generate_occlusions_after binarize_threshold occlude_copy
            (constant_model (1 # 2)) 0 images tt sess' height width
            inputs' output'
          = Some (occlude_copy images height width, tt) ∧
          fst <$> run_steps binarize_threshold (constant_model (1 # 2)) sess'
                    inputs' output' (raster (height / 2) height width)
                    (occlude_copy images height width, tt) = Some out) ∨
       ((height = 0 ∨ width = 0) ∧ out = occlude_copy images height width)).
Proof.
  eexists. split; [vm_compute; reflexivity|].
  destruct (generate_occlusions_seed (Data:=nat) (Stat:=list (Q * Q))
              binarize_threshold occlude_copy (constant_model (1 # 2))
              (notebook_with seed_top) [VSess tt; VInt 4; VInt 4]
              [("output", VNode (pixelRNN 4 4 1 p).1.2);
               ("inputs", VNode (pixelRNN 4 4 1 p).1.1)]) as [Hcall _].
  destruct (Hcall seed_top) as (Hname & _ & Hseed); [vm_compute; reflexivity|].
  split; [exact Hname|exact Hseed].
Defined.

(** C6 as stated fails.  No parameter of [generate_occlusions] is named
    [seed_images]: the call of the design, with the seed first, and a call
    that passes the seed by that name are both refused, and a seed passed
    in the place of the session fails at the first forward pass.  The call
    the notebook makes completes whatever [images] holds: with the very
    same arguments it returns different canvases in two notebooks that
    differ only in that variable, and fails where it is unbound. *)
Lemma generate_occlusions_seed_is_not_an_argument :
  let call :=
    call_generate_occlusions (Data:=nat) (Stat:=list (Q * Q)) binarize_threshold
      occlude_copy (constant_model (1 # 2)) in
  let arguments : list (value Q unit) :=
    [VSess tt; VInt 4; VInt 4; VNode (pixelRNN 4 4 1 p).1.1;
     VNode (pixelRNN 4 4 1 p).1.2] in
  ("seed_images" ∉ generate_occlusions_params) ∧
  call (notebook_with seed_blank) [VArray seed_top; VInt 4; VInt 4] [] = None ∧
  call (notebook_with seed_blank) arguments [("seed_images", VArray seed_top)]
    = None ∧
  call (notebook_with seed_blank) (VArray seed_top :: drop 1 arguments) []
    = None ∧
  call (notebook_with seed_top) arguments [] = Some seed_top ∧
  call (notebook_with seed_blank) arguments [] = Some seed_blank ∧
  seed_top ≠ seed_blank ∧
  call fresh_notebook arguments [] = None.
Proof.
  cbv zeta. split; [|by vm_compute].
  intros Hin. by repeat (apply elem_of_cons in Hin as [?|Hin]; [done|]);
    apply elem_of_nil in Hin.
Qed.

(** ** Arrays as tables of their entries *)

Lemma join_join_fmap {A B : Type} (f : A → list (list B)) l :
  mjoin (mjoin (f <$> l)) = mjoin ((λ x, mjoin (f x)) <$> l).
Proof.
  induction l as [|x l IH]; simpl; [done|].
  rewrite join_app. f_equal. apply IH.
Qed.

Lemma length_join_fmap {A B : Type} (f : A → list B) l m :
  (∀ x, length (f x) = m) → length (mjoin (f <$> l)) = length l * m.
Proof.
  intros Hf. induction l as [|x l IH]; simpl; [done|].
  rewrite length_app, Hf. f_equal. apply IH.
Qed.

Lemma zip_with_fmap_same {A B C D : Type} (f : A → B → C) (g : D → A) (g' : D → B) l :
  zip_with f (g <$> l) (g' <$> l) = (λ x, f (g x) (g' x)) <$> l.
Proof. induction l as [|x l IH]; simpl; [done|]. f_equal. apply IH. Qed.

Lemma zip4_tabulate4 {F : Type} (f : F → F → F) n h w c g g' :
  zip4 f (tabulate4 n h w c g) (tabulate4 n h w c g')
  = tabulate4 n h w c (λ b i j k, f (g b i j k) (g' b i j k)).
Proof.
  unfold zip4, tabulate4. rewrite zip_with_fmap_same.
  apply list_fmap_ext. intros _ b _. rewrite zip_with_fmap_same.
  apply list_fmap_ext. intros _ i _. rewrite zip_with_fmap_same.
  apply list_fmap_ext. intros _ j _. by rewrite zip_with_fmap_same.
Qed.

(** A well-shaped array is the table of its entries. *)
Lemma has_shape_tabulate4 {F : Type} `{Scalar F} n h w c (t : tensor F) :
  has_shape n h w c t → t = tabulate4 n h w c (at4 t).
Proof.
  rewrite has_shape_alt. intros [Hn Ht]. unfold tabulate4.
  apply tabulate_eq; [done|]. intros b Hb.
  destruct (lookup_lt_is_Some_2 t b) as [img Himg]; [lia|].
  destruct (Ht b img Himg) as [Hh Hrows]. rewrite Himg. f_equal.
  apply tabulate_eq; [done|]. intros i Hi.
  destruct (lookup_lt_is_Some_2 img i) as [r Hr]; [lia|].
  destruct (Hrows i r Hr) as [Hw Hpx]. rewrite Hr. f_equal.
  apply tabulate_eq; [done|]. intros j Hj.
  destruct (lookup_lt_is_Some_2 r j) as [v Hv]; [lia|].
  rewrite Hv. f_equal.
  apply tabulate_eq; [by eapply Hpx|]. intros k Hk.
  destruct (lookup_lt_is_Some_2 v k) as [x Hx]; [by erewrite Hpx|].
  unfold at4, get4, at2. by rewrite Himg, Hr, Hv, Hx.
Qed.

(** ** Input layout and the generation loops *)

Section Layout.
Context {F : Type} `{Scalar F} `{Activation F}.

Lemma conv2d_shape w bs cin o k t n h wd c (x : tensor F) :
  has_shape n h wd c x → has_shape n h wd o (conv2d w bs cin o k t x).
Proof.
  rewrite !has_shape_alt. intros [Hn Hx]. unfold conv2d. cbv zeta.
  split; [by rewrite length_fmap|].
  intros b img' (img & -> & Himg)%list_lookup_fmap_Some.
  destruct (Hx b img Himg) as [Hh Hrows].
  split; [by rewrite length_imap|].
  intros i r' Hr'. rewrite list_lookup_imap in Hr'.
  destruct (img !! i) as [r|] eqn:Hr; [|done]. simpl in Hr'. simplify_eq.
  destruct (Hrows i r Hr) as [Hw Hpx].
  split; [by rewrite length_imap|].
  intros j v' Hv'. rewrite list_lookup_imap in Hv'.
  destruct (r !! j) as [v|] eqn:Hv; [|done]. simpl in Hv'. simplify_eq.
  unfold conv2d_pixel. by rewrite length_fmap, length_seq.
Qed.

Lemma eval_shape (sess : session F) nd n h w c (x : tensor F) :
  has_shape n h w c x → ∃ c', has_shape n h w c' (eval sess nd x).
Proof.
  intros Hx. induction nd as [sh|nd [c' IH] o k m scope|nd [c' IH]|nd [c' IH]];
    simpl.
  - eauto.
  - eexists. by eapply conv2d_shape.
  - eexists. by apply map4_shape.
  - eexists. by apply map4_shape.
Qed.

(** The forward pass of [pixelRNN] returns one probability per pixel of
    the canvas it is fed. *)
Lemma pixelRNN_run_eval (sess : session F) height width ps n (x : tensor F) :
  has_shape n height width 1 x →
  sess_run sess (pixelRNN height width 1 (with_gpu ps true)).1.2
    (pixelRNN height width 1 (with_gpu ps true)).1.1 x
  = Some (eval sess (pixelRNN height width 1 (with_gpu ps true)).1.2 x) ∧
  has_shape n height width 1
    (eval sess (pixelRNN height width 1 (with_gpu ps true)).1.2 x).
Proof.
  intros Hx. unfold pixelRNN, sess_run, input_shape. cbn [fst snd with_gpu use_gpu].
  rewrite decide_True.
  - split; [done|]. cbn [eval]. apply map4_shape.
    match goal with
    | |- context [eval sess ?nd x] =>
        destruct (eval_shape sess nd n height width 1 x Hx) as [c' Hc']
    end.
    by eapply conv2d_shape.
  - destruct Hx as [_ Hx]. split; [done|]. exact Hx.
Qed.

Lemma pixelRNN_run_shape (sess : session F) height width ps n (x : tensor F) :
  has_shape n height width 1 x →
  ∃ y, sess_run sess (pixelRNN height width 1 (with_gpu ps true)).1.2
         (pixelRNN height width 1 (with_gpu ps true)).1.1 x = Some y ∧
       has_shape n height width 1 y.
Proof.
  intros Hx. destruct (pixelRNN_run_eval sess height width ps n x Hx) as [Hrun Hy].
  eauto.
Qed.

(** A canvas of [generate] that fits the channel-first layout has a
    single row and a single column. *)
Lemma zeros_feedable_channel_first n height width channel :
  0 < n → 0 < height → 0 < width →
  feedable [None; Some channel; Some height; Some width]
           (np_full n height width 1 (fzero : F)) →
  channel = height ∧ height = width ∧ width = 1.
Proof.
  intros Hn Hh Hw [_ Himgs]. unfold np_full in Himgs.
  eapply (Forall_lookup_1 _ _ 0) in Himgs as [Hc Hrows];
    [|by apply lookup_replicate_2].
  simpl in Hc. rewrite length_replicate in Hc.
  eapply (Forall_lookup_1 _ _ 0) in Hrows as [Hr Hpx];
    [|by apply lookup_replicate_2].
  simpl in Hr. rewrite length_replicate in Hr.
  eapply (Forall_lookup_1 _ _ 0) in Hpx; [|by apply lookup_replicate_2].
  simpl in Hpx. lia.
Qed.
End Layout.

(** The forward pass for a canvas in the channel-first layout: the
    placeholder built without [use_gpu] accepts it, and the output has the
    extents of the canvas on axes 1 and 2. *)
Lemma pixelRNN_run_channel_first {F : Type} `{Scalar F} `{Activation F}
    (sess : session F) height width channel ps n (x : tensor F) :
  has_shape n channel height width x →
  sess_run sess (pixelRNN height width channel (with_gpu ps false)).1.2
    (pixelRNN height width channel (with_gpu ps false)).1.1 x
  = Some (eval sess (pixelRNN height width channel (with_gpu ps false)).1.2 x) ∧
  has_shape n channel height 1
    (eval sess (pixelRNN height width channel (with_gpu ps false)).1.2 x).
Proof.
  intros Hx. unfold pixelRNN, sess_run, input_shape. cbn [fst snd with_gpu use_gpu].
  rewrite decide_True.
  - split; [done|]. cbn [eval]. apply map4_shape.
    match goal with
    | |- context [eval sess ?nd x] =>
        destruct (eval_shape sess nd n channel height width x Hx) as [c' Hc']
    end.
    by eapply conv2d_shape.
  - destruct Hx as [_ Hx]. split; [done|]. exact Hx.
Qed.

Lemma sess_run_Some {F : Type} `{Scalar F} `{Activation F}
    (sess : session F) output inputs (x y : tensor F) :
  sess_run sess output inputs x = Some y → y = eval sess output x.
Proof.
  unfold sess_run. destruct inputs; try done. case_decide; [|done].
  by intros [= <-].
Qed.

(** [t[:, i, j]] with [i] beyond axis 1 is an index error. *)
Lemma slice_ij_out_of_range {F : Type} n h w c (t : tensor F) i j :
  has_shape n h w c t → 0 < n → h ≤ i → slice_ij t i j = None.
Proof.
  rewrite has_shape_alt. intros [Hn Ht] Hpos Hi.
  destruct (slice_ij t i j) as [v|] eqn:Hv; [|done].
  destruct (lookup_lt_is_Some_2 t 0) as [img Himg]; [lia|].
  destruct (Ht 0 img Himg) as [Hlen _].
  unfold slice_ij in Hv. apply mapM_Some_1 in Hv.
  eapply Forall2_lookup_l in Hv as (x & _ & Hx); [|exact Himg].
  apply at2_Some in Hx as (r & Hr & _).
  apply lookup_lt_Some in Hr. lia.
Qed.

(** A canvas of shape [(n, h, w, c)] fits the channel-first placeholder
    only when the three extents coincide. *)
Lemma channel_first_feedable {F : Type} n h w c (t : tensor F) :
  0 < n → 0 < h → 0 < w →
  has_shape n h w c t →
  feedable [None; Some c; Some h; Some w] t →
  h = c ∧ w = h ∧ c = w.
Proof.
  intros Hn Hh Hw Ht [_ Hfeed]. apply has_shape_alt in Ht as [Hlen Ht].
  destruct (lookup_lt_is_Some_2 t 0) as [img Himg]; [lia|].
  destruct (Ht 0 img Himg) as [Hil Hrows].
  eapply Forall_lookup_1 in Hfeed as [Hc Hfeed]; [|done]. simpl in Hc.
  destruct (lookup_lt_is_Some_2 img 0) as [r Hr]; [lia|].
  destruct (Hrows 0 r Hr) as [Hrl Hpx].
  eapply Forall_lookup_1 in Hfeed as [Hc' Hfeed]; [|done]. simpl in Hc'.
  destruct (lookup_lt_is_Some_2 r 0) as [v Hv]; [lia|].
  pose proof (Hpx 0 v Hv) as Hvl.
  eapply Forall_lookup_1 in Hfeed; [|done]. simpl in Hfeed. lia.
Qed.

(** C10: the placeholder is laid out (batch, height, width, channel) when
    [use_gpu] is set and (batch, channel, height, width) otherwise, while
    both generation loops index their canvas as [samples[:, i, j]], row on
    axis 1 and column on axis 2.

    With [use_gpu] the loops go through on a canvas of one channel, and
    the pixel written for [(i, j)] is the entry of the binarized output at
    row [i], column [j].  Without it, [generate_occlusions] fails on every
    seed: one laid out (batch, height, width, channel) is rejected by the
    placeholder at the first forward pass, unless the three extents
    coincide; one laid out as the placeholder is, (batch, channel, height,
    width), is indexed beyond axis 1 at the first step, when the channels
    are at most [height // 2].  The canvas of [generate] is rejected
    likewise, unless the image is a single pixel. *)
Theorem input_layout_and_generation {F : Type} `{Scalar F} `{Activation F}
    {rng : Type} (binarize : tensor F → rng → tensor F * rng)
    (occlude : tensor F → nat → nat → tensor F)
    (sess : session F) (images : tensor F) (g : rng)
    (height width channel n : nat) (ps : params) :
  input_shape height width channel (with_gpu ps true)
    = [None; Some height; Some width; Some channel] ∧
  input_shape height width channel (with_gpu ps false)
    = [None; Some channel; Some height; Some width] ∧
  (has_shape n height width 1 (occlude images height width) →
   (∀ t g', has_shape n height width 1 t →
            has_shape n height width 1 (binarize t g').1) →
   ∃ out,
     generate_occlusions binarize occlude sess_run images g sess height width
       (pixelRNN height width 1 (with_gpu ps true)).1.1
       (pixelRNN height width 1 (with_gpu ps true)).1.2 = Some out ∧
     has_shape n height width 1 out ∧
     ∀ i j, height / 2 ≤ i < height → j < width →
       ∃ sk gk,
         generate_occlusions_after binarize occlude sess_run
           ((i - height / 2) * width + j) images g sess height width
           (pixelRNN height width 1 (with_gpu ps true)).1.1
           (pixelRNN height width 1 (with_gpu ps true)).1.2 = Some (sk, gk) ∧
         ∀ b, px out b i j
              = px (binarize
                      (eval sess (pixelRNN height width 1 (with_gpu ps true)).1.2 sk)
                      gk).1 b i j) ∧
  ((∀ t g', has_shape 100 height width 1 t →
            has_shape 100 height width 1 (binarize t g').1) →
   ∃ out,
     generate binarize sess_run g sess height width
       (pixelRNN height width 1 (with_gpu ps true)).1.1
       (pixelRNN height width 1 (with_gpu ps true)).1.2 = Some out ∧
     has_shape 100 height width 1 out ∧
     ∀ i j, i < height → j < width →
       ∃ sk gk,
         generate_after binarize sess_run (i * width + j) g sess height width
           (pixelRNN height width 1 (with_gpu ps true)).1.1
           (pixelRNN height width 1 (with_gpu ps true)).1.2 = Some (sk, gk) ∧
         ∀ b, px out b i j
              = px (binarize
                      (eval sess (pixelRNN height width 1 (with_gpu ps true)).1.2 sk)
                      gk).1 b i j) ∧
  (0 < n → 0 < height → 0 < width →
   ¬ (height = channel ∧ width = height ∧ channel = width) →
   has_shape n height width channel (occlude images height width) →
   generate_occlusions binarize occlude sess_run images g sess height width
     (pixelRNN height width channel (with_gpu ps false)).1.1
     (pixelRNN height width channel (with_gpu ps false)).1.2 = None) ∧
  (0 < n → 0 < height → 0 < width → channel ≤ height / 2 →
   has_shape n channel height width (occlude images height width) →
   (∀ t g', has_shape n channel height 1 t →
            has_shape n channel height 1 (binarize t g').1) →
   generate_occlusions binarize occlude sess_run images g sess height width
     (pixelRNN height width channel (with_gpu ps false)).1.1
     (pixelRNN height width channel (with_gpu ps false)).1.2 = None) ∧
  (0 < height → 0 < width → height ≠ 1 ∨ width ≠ 1 →
   generate binarize sess_run g sess height width
     (pixelRNN height width 1 (with_gpu ps false)).1.1
     (pixelRNN height width 1 (with_gpu ps false)).1.2 = None).
Proof.
  split; [done|]. split; [done|].
  assert (Hfirst : ∀ lo w', lo < height → 0 < w' →
            ∀ (body : nat → nat → tensor F * rng → option (tensor F * rng)) st,
            body lo 0 st = None →
            for_each (range lo height) (λ i, for_each (range 0 w') (body i)) st
            = None).
  { intros lo w' Hlo Hw' body st Hnone. unfold range.
    destruct (height - lo) as [|k] eqn:Hk; [lia|].
    destruct w' as [|w']; [lia|]. cbn [Nat.sub seq for_each].
    by rewrite Hnone. }
  split; [|split; [|split; [|split]]].
  - intros Hseed Hbin.
    destruct (run_steps_spec binarize sess_run sess
                (pixelRNN height width 1 (with_gpu ps true)).1.1
                (pixelRNN height width 1 (with_gpu ps true)).1.2
                n height width 1
                (pixelRNN_run_shape sess height width ps n) Hbin
                (raster (height / 2) height width)
                (occlude images height width) g Hseed
                (raster_in_range _ _ _) (raster_NoDup _ _ _))
      as (out & g' & Hout & Hshape & _ & Hvals).
    exists out. rewrite generate_occlusions_run, Hout.
    split; [done|]. split; [done|].
    intros i j Hi Hj.
    destruct (Hvals ((i - height / 2) * width + j) i j)
      as (sk & gk & probs & Hsk & Hprobs & Hpx).
    { by apply raster_lookup_ix. }
    apply sess_run_Some in Hprobs as ->. by exists sk, gk.
  - intros Hbin.
    destruct (run_steps_spec binarize sess_run sess
                (pixelRNN height width 1 (with_gpu ps true)).1.1
                (pixelRNN height width 1 (with_gpu ps true)).1.2
                100 height width 1
                (pixelRNN_run_shape sess height width ps 100) Hbin
                (raster 0 height width)
                (np_full 100 height width 1 fzero) g
                (np_full_shape _ _ _ _ _) (raster_in_range _ _ _)
                (raster_NoDup _ _ _))
      as (out & g' & Hout & Hshape & _ & Hvals).
    exists out. rewrite generate_run, Hout.
    split; [done|]. split; [done|].
    intros i j Hi Hj.
    destruct (Hvals (i * width + j) i j)
      as (sk & gk & probs & Hsk & Hprobs & Hpx).
    { rewrite <- (Nat.sub_0_r i) at 1. apply raster_lookup_ix; lia. }
    apply sess_run_Some in Hprobs as ->. by exists sk, gk.
  - intros Hn Hh Hw Hdims Hseed. unfold generate_occlusions. cbn [fst snd].
    rewrite Hfirst; [done| |done|].
    { apply Nat.div_lt; lia. }
    unfold pixel_step, predict, pixelRNN, sess_run, input_shape.
    cbn [fst snd with_gpu use_gpu].
    rewrite decide_False; [done|].
    intros Hfeed. apply Hdims.
    exact (channel_first_feedable _ _ _ _ _ Hn Hh Hw Hseed Hfeed).
  - intros Hn Hh Hw Hc Hseed Hbin. unfold generate_occlusions. cbn [fst snd].
    rewrite Hfirst; [done| |done|].
    { apply Nat.div_lt; lia. }
    unfold pixel_step, predict. cbn [fst snd].
    destruct (pixelRNN_run_channel_first sess height width channel ps n _ Hseed)
      as [-> Hy].
    by rewrite (slice_ij_out_of_range n channel height 1 _ _ _ (Hbin _ _ Hy)).
  - intros Hh Hw Hne. unfold generate. rewrite Hfirst; [done|done|done|].
    unfold pixel_step, predict, pixelRNN, sess_run, input_shape.
    cbn [fst snd with_gpu use_gpu].
    rewrite decide_False; [done|].
    intros Hfeed. apply zeros_feedable_channel_first in Hfeed; lia.
Qed.

Lemma input_layout_and_generation_witness :
  has_shape 1 2 2 1 canvas_b ∧
  (∃ out,
     generate_occlusions (rng:=unit) (pixelwise fsigmoid) (λ t _ _, t) sess_run
       canvas_b tt tiny_session 2 2
       (pixelRNN 2 2 1 (with_gpu tiny true)).1.1
       (pixelRNN 2 2 1 (with_gpu tiny true)).1.2 = Some out ∧
     has_shape 1 2 2 1 out ∧
     ∀ i j, 2 / 2 ≤ i < 2 → j < 2 →
       ∃ sk gk,
         generate_occlusions_after (pixelwise fsigmoid) (λ t _ _, t) sess_run
           ((i - 2 / 2) * 2 + j) canvas_b tt tiny_session 2 2
           (pixelRNN 2 2 1 (with_gpu tiny true)).1.1
           (pixelRNN 2 2 1 (with_gpu tiny true)).1.2 = Some (sk, gk) ∧
         ∀ b, px out b i j
              = px (pixelwise fsigmoid
                      (eval tiny_session (pixelRNN 2 2 1 (with_gpu tiny true)).1.2 sk)
                      gk).1 b i j) ∧
  generate_occlusions (rng:=unit) (pixelwise fsigmoid) (λ t _ _, t) sess_run
    canvas_b tt tiny_session 2 2
    (pixelRNN 2 2 1 (with_gpu tiny false)).1.1
    (pixelRNN 2 2 1 (with_gpu tiny false)).1.2 = None ∧
  has_shape 1 1 2 2 canvas_channel_first ∧
  generate_occlusions (rng:=unit) (pixelwise fsigmoid) (λ t _ _, t) sess_run
    canvas_channel_first tt tiny_session 2 2
    (pixelRNN 2 2 1 (with_gpu tiny false)).1.1
    (pixelRNN 2 2 1 (with_gpu tiny false)).1.2 = None ∧
  generate (rng:=unit) (pixelwise fsigmoid) sess_run tt tiny_session 2 2
    (pixelRNN 2 2 1 (with_gpu tiny false)).1.1
    (pixelRNN 2 2 1 (with_gpu tiny false)).1.2 = None.
Proof.
  assert (Ha : has_shape 1 2 2 1 canvas_b) by (vm_compute; repeat constructor).
  assert (Hc : has_shape 1 1 2 2 canvas_channel_first)
    by (vm_compute; repeat constructor).
  destruct (input_layout_and_generation (F:=Z) (rng:=unit) (pixelwise fsigmoid)
              (λ t _ _, t) tiny_session canvas_b tt 2 2 1 1 tiny)
    as (_ & _ & Hrows & _ & Hreject & _ & Hgen).
  destruct (input_layout_and_generation (F:=Z) (rng:=unit) (pixelwise fsigmoid)
              (λ t _ _, t) tiny_session canvas_channel_first tt 2 2 1 1 tiny)
    as (_ & _ & _ & _ & _ & Hindex & _).
  split; [exact Ha|]. split; [|split; [|split; [exact Hc|split]]].
  - apply Hrows; [exact Ha|]. intros t g' Ht. by apply map4_shape.
  - apply Hreject; [lia|lia|lia|lia|exact Ha].
  - apply Hindex; [lia|lia|lia|by vm_compute|exact Hc|].
    intros t g' Ht. by apply map4_shape.
  - apply Hgen; [lia|lia|by left].
Defined.

(** ** Loss and clipped gradients *)

Lemma clip_in_range (x lo hi : Q) :
  (lo <= hi)%Q →
  (lo <= Qmax (Qmin x hi) lo <= hi)%Q ∧
  ((lo <= x <= hi)%Q → (Qmax (Qmin x hi) lo == x)%Q).
Proof.
  intros Hle. split; [split|].
  - apply Q.le_max_r.
  - apply Q.max_lub; [apply Q.le_min_r|done].
  - intros [Hlo Hhi]. rewrite Q.min_l by done. by apply Q.max_l.
Qed.

(** An entry already in range is returned as it is. *)
Lemma clip_fixes_in_range (y lo hi : Q) :
  (lo <= y)%Q → (y <= hi)%Q → Qmax (Qmin y hi) lo = y.
Proof.
  intros Hlo Hhi. apply Qle_alt in Hhi.
  apply Qle_lteq in Hlo.
  unfold Qmax, Qmin, GenericMinMax.gmax, GenericMinMax.gmin.
  destruct (y ?= hi)%Q eqn:E1; [| |done].
  - destruct (y ?= lo)%Q eqn:E2; [done| |done].
    apply Qlt_alt in E2. destruct Hlo as [Hlt|Heq].
    + exfalso. by eapply Qlt_irrefl, Qlt_trans.
    + rewrite Heq in E2. by apply Qlt_irrefl in E2.
  - destruct (y ?= lo)%Q eqn:E2; [done| |done].
    apply Qlt_alt in E2. destruct Hlo as [Hlt|Heq].
    + exfalso. by eapply Qlt_irrefl, Qlt_trans.
    + rewrite Heq in E2. by apply Qlt_irrefl in E2.
Qed.

(** The documented formula of the engine is the binary cross-entropy of
    the sigmoid. *)
Lemma xent_sigmoid (x z : R) :
  xent x z = binary_cross_entropy (fsigmoid x) z.
Proof.
  unfold xent, binary_cross_entropy. simpl.
  pose proof (exp_pos (- x)) as Hexp.
  assert (Hden : (0 < 1 + exp (- x))%R) by lra.
  assert (Hsig : ln (/ (1 + exp (- x))) = (- ln (1 + exp (- x)))%R).
  { apply ln_Rinv. lra. }
  assert (Hone : (1 - / (1 + exp (- x)) = exp (- x) * / (1 + exp (- x)))%R).
  { field. lra. }
  assert (Hlog : ln (1 - / (1 + exp (- x))) = (- x - ln (1 + exp (- x)))%R).
  { rewrite Hone, ln_mult, ln_exp, Hsig; [lra|done|].
    apply Rinv_0_lt_compat. lra. }
  rewrite Hsig, Hlog.
  destruct (Rle_lt_dec 0 x) as [Hx|Hx].
  - rewrite Rmax_left, Rabs_right by lra. lra.
  - rewrite Rmax_right, Rabs_left by lra. rewrite Ropp_involutive.
    assert (Hshift : ln (1 + exp x) = (x + ln (1 + exp (- x)))%R).
    { rewrite <- (ln_exp x) at 2. rewrite <- ln_mult; [|apply exp_pos|lra].
      f_equal. rewrite Rmult_plus_distr_l, <- exp_plus.
      replace (x + - x)%R with 0%R by lra. rewrite exp_0. lra. }
    rewrite Hshift. lra.
Qed.

Lemma Rsum_app l1 l2 : Rsum (l1 ++ l2) = (Rsum l1 + Rsum l2)%R.
Proof.
  induction l1 as [|x l1 IH]; simpl; [lra|]. rewrite IH. lra.
Qed.

Lemma Rsum_join {A : Type} (f : A → list R) l :
  Rsum (mjoin (f <$> l)) = Rsum ((λ x, Rsum (f x)) <$> l).
Proof.
  induction l as [|x l IH]; simpl; [done|].
  rewrite Rsum_app. f_equal. apply IH.
Qed.

Lemma Rsum_seq (f : nat → R) n : Rsum (f <$> seq 0 n) = sum_upto n f.
Proof.
  induction n as [|n IH]; [done|].
  rewrite seq_S, fmap_app, Rsum_app, IH. simpl. lra.
Qed.

Lemma sum_upto_ext (f g : nat → R) n :
  (∀ k, k < n → f k = g k) → sum_upto n f = sum_upto n g.
Proof.
  induction n as [|n IH]; intros Hfg; simpl; [done|].
  rewrite IH, Hfg by (intros; auto with lia). done.
Qed.

(** The entries of a one-channel table, summed and counted. *)
Lemma entries_tabulate4 n h w (f : nat → nat → nat → nat → R) :
  Rsum (mjoin (mjoin (mjoin (tabulate4 n h w 1 f))))
  = sum_upto n (λ b, sum_upto h (λ i, sum_upto w (λ j, f b i j 0))) ∧
  length (mjoin (mjoin (mjoin (tabulate4 n h w 1 f)))) = n * h * w.
Proof.
  unfold tabulate4. rewrite !join_join_fmap. split.
  - rewrite Rsum_join, Rsum_seq. apply sum_upto_ext. intros b _.
    rewrite join_join_fmap, Rsum_join, Rsum_seq. apply sum_upto_ext. intros i _.
    rewrite Rsum_join, Rsum_seq. apply sum_upto_ext. intros j _.
    simpl. lra.
  - rewrite (length_join_fmap _ _ (h * w)), length_seq; [lia|].
    intros b. rewrite join_join_fmap.
    rewrite (length_join_fmap _ _ w), length_seq; [lia|].
    intros i. rewrite (length_join_fmap _ _ 1), length_seq; [lia|].
    intros j. done.
Qed.

Lemma has_shape_same_shape {F : Type} n h w c (t u : tensor F) :
  has_shape n h w c t → has_shape n h w c u → same_shape t u.
Proof.
  rewrite !has_shape_alt. intros [Hn Ht] [Hn' Hu]. unfold same_shape.
  apply Forall2_same_length_lookup_2; [lia|]. intros b img img' Himg Himg'.
  destruct (Ht b img Himg) as [Hh Hrows], (Hu b img' Himg') as [Hh' Hrows'].
  apply Forall2_same_length_lookup_2; [lia|]. intros i r r' Hr Hr'.
  destruct (Hrows i r Hr) as [Hw Hpx], (Hrows' i r' Hr') as [Hw' Hpx'].
  apply Forall2_same_length_lookup_2; [lia|]. intros j v v' Hv Hv'.
  by rewrite (Hpx j v Hv), (Hpx' j v' Hv').
Qed.

(** The logits of [pixelRNN] have one channel per pixel of the feed. *)
Lemma pixelRNN_logits_shape {F : Type} `{Scalar F} `{Activation F}
    (sess : session F) height width channel ps n c (x : tensor F) :
  has_shape n height width c x →
  has_shape n height width 1 (eval sess (pixelRNN height width channel ps).2 x).
Proof.
  intros Hx. unfold pixelRNN. cbn [fst snd eval].
  match goal with
  | |- context [eval sess ?nd x] =>
      destruct (eval_shape sess nd n height width c x Hx) as [c' Hc']
  end.
  by eapply conv2d_shape.
Qed.

(** Clipping an entry, case by case. *)
Lemma clip_entry (x : float_value Q) (c : Q) :
  (0 <= c)%Q →
  Extended.maximum (Extended.minimum x (Num c)) (Num (- c)%Q)
  = match x with
    | NaN => NaN
    | Inf true => Num (- c)%Q
    | Inf false => Num c
    | Num q => Num (Qmax (Qmin q c) (- c))
    end.
Proof.
  intros Hc.
  assert (Hneg : (- c ?= c)%Q ≠ Gt).
  { rewrite <- Qgt_alt. apply Qle_not_lt.
    apply Qle_trans with 0%Q; [|done]. by apply (Qopp_le_compat 0). }
  destruct x as [|[]|q]; unfold Extended.maximum, Extended.minimum; simpl.
  - done.
  - done.
  - rewrite <- (Qcompare_antisym (- c) c).
    by destruct (- c ?= c)%Q.
  - unfold Qmax, Qmin, GenericMinMax.gmax, GenericMinMax.gmin.
    rewrite <- (Qcompare_antisym q c).
    destruct (q ?= c)%Q eqn:Hcmp; simpl.
    + by destruct (q ?= - c)%Q.
    + by destruct (q ?= - c)%Q.
    + rewrite <- (Qcompare_antisym (- c) c).
      by destruct (- c ?= c)%Q.
Qed.

(** The loss node on a non-empty batch of one-channel images. *)
Lemma sess_run_loss_mean (sess : session R) sh (logits_node : node)
    (images : tensor R) n h w :
  feedable sh images →
  has_shape n h w 1 images →
  has_shape n h w 1 (eval sess logits_node images) →
  0 < n → 0 < h → 0 < w →
  sess_run_loss sess (loss logits_node (Placeholder sh)) (Placeholder sh) images
  = Some (Num (mean_cross_entropy n h w
                 (λ b i j, at4 (eval sess logits_node images) b i j 0)
                 (λ b i j, at4 images b i j 0))).
Proof.
  intros Hfeed Himages Hlogits Hn Hh Hw.
  unfold loss, sess_run_loss. rewrite decide_True by done.
  change (eval sess (Placeholder sh) images) with images.
  set (logits := eval sess logits_node images) in *.
  unfold sigmoid_cross_entropy_with_logits.
  rewrite decide_True by by eapply has_shape_same_shape.
  cbn [fmap option_fmap option_map]. f_equal.
  unfold reduce_mean. cbv zeta.
  assert (zip4 xent logits images
          = tabulate4 n h w 1 (λ b i j k,
              xent (at4 logits b i j k) (at4 images b i j k))) as ->.
  { rewrite (has_shape_tabulate4 n h w 1 _ Hlogits) at 1.
    rewrite (has_shape_tabulate4 n h w 1 _ Himages) at 1.
    apply zip4_tabulate4. }
  destruct (entries_tabulate4 n h w (λ b i j k,
    xent (at4 logits b i j k) (at4 images b i j k))) as [Hsum Hlen].
  destruct (mjoin (mjoin (mjoin _))) as [|e entries] eqn:Hentries.
  { simpl in Hlen.
    assert (0 < n * h * w) by (repeat apply Nat.mul_pos_pos; lia).
    lia. }
  rewrite Hsum, Hlen. unfold mean_cross_entropy. do 2 f_equal.
  apply sum_upto_ext. intros b _. apply sum_upto_ext. intros i _.
  apply sum_upto_ext. intros j _. apply xent_sigmoid.
Qed.

(** C8: the loss the notebook builds from the logits of [pixelRNN] and
    the placeholder, run on a non-empty batch of one-channel images, is
    the binary cross-entropy between sigmoid of logit and image entry,
    averaged over every batch element and pixel.  The optimizer is applied
    to the clipped gradients: each keeps its variable, every entry that is
    not NaN comes out as a number in [-grad_clip, grad_clip], the
    infinities included, and a number already in that range is
    unchanged. *)
Theorem loss_and_clipped_gradients (sess : session R) (ps : params)
    (height width n : nat) (images : tensor R)
    (grads_and_vars : list (list (float_value Q) * string)) :
  use_gpu ps = true →
  0 < n → 0 < height → 0 < width →
  has_shape n height width 1 images →
  (0 <= grad_clip ps)%Q →
  let '(inputs, output, conv2d_out_logits) := pixelRNN height width 1 ps in
  sess_run_loss sess (loss conv2d_out_logits inputs) inputs images
  = Some (Num (mean_cross_entropy n height width
                 (λ b i j, at4 (eval sess conv2d_out_logits images) b i j 0)
                 (λ b i j, at4 images b i j 0))) ∧
  ∃ new_grads_and_vars,
    Extended.optim ps grads_and_vars
    = Extended.ApplyGradients new_grads_and_vars ∧
    Forall2 (λ gv gv',
      gv'.2 = gv.2 ∧
      gv'.1 = Extended.clip_by_value gv.1 (Num (- grad_clip ps)%Q)
                (Num (grad_clip ps)) ∧
      Forall2 (λ x x',
        (x ≠ NaN →
         ∃ q, x' = Num q ∧ (- grad_clip ps <= q <= grad_clip ps)%Q) ∧
        (∀ q, x = Num q → (- grad_clip ps <= q <= grad_clip ps)%Q → x' = x))
        gv.1 gv'.1)
      grads_and_vars new_grads_and_vars.
Proof.
  intros Hgpu Hn Hh Hw Himages Hclip.
  pose proof (pixelRNN_logits_shape sess height width 1 ps n 1 images Himages)
    as Hlogits.
  unfold pixelRNN in *. cbn [fst snd] in Hlogits.
  split.
  - apply (sess_run_loss_mean sess _ _ images n height width); try done.
    unfold input_shape. rewrite Hgpu. destruct Himages as [_ Hi]. by split.
  - eexists. split; [done|].
    apply Forall2_fmap_r, Forall_Forall2_diag, Forall_forall.
    intros [grad v] _. cbn [fst snd]. split; [done|]. split; [done|].
    unfold Extended.clip_by_value.
    apply Forall2_fmap_r, Forall_Forall2_diag, Forall_forall.
    intros x _. unfold compose. rewrite clip_entry by done.
    assert (Hrange : (- grad_clip ps <= grad_clip ps)%Q).
    { apply Qle_trans with 0%Q; [|done]. by apply (Qopp_le_compat 0). }
    split.
    + intros Hx. destruct x as [|[]|q]; [done| | |].
      * eexists. split; [done|]. split; [apply Qle_refl|done].
      * eexists. split; [done|]. split; [done|apply Qle_refl].
      * eexists. split; [done|]. by apply clip_in_range.
    + intros q -> [Hlo Hhi]. f_equal. by apply clip_fixes_in_range.
Qed.

Lemma loss_and_clipped_gradients_witness :
  (0 <= grad_clip tiny)%Q ∧
  let '(inputs, output, conv2d_out_logits) := pixelRNN 2 2 1 tiny in
  sess_run_loss tiny_session_R (loss conv2d_out_logits inputs) inputs
    (np_full 1 2 2 1 1%R)
  = Some (Num (mean_cross_entropy 1 2 2
                 (λ b i j, at4 (eval tiny_session_R conv2d_out_logits
                                  (np_full 1 2 2 1 1%R)) b i j 0)
                 (λ b i j, at4 (np_full 1 2 2 1 1%R) b i j 0))) ∧
  ∃ new_grads_and_vars,
    Extended.optim tiny sample_extended_grads
    = Extended.ApplyGradients new_grads_and_vars ∧
    Forall2 (λ gv gv',
      gv'.2 = gv.2 ∧
      gv'.1 = Extended.clip_by_value gv.1 (Num (- grad_clip tiny)%Q)
                (Num (grad_clip tiny)) ∧
      Forall2 (λ x x',
        (x ≠ NaN →
         ∃ q, x' = Num q ∧ (- grad_clip tiny <= q <= grad_clip tiny)%Q) ∧
        (∀ q, x = Num q → (- grad_clip tiny <= q <= grad_clip tiny)%Q → x' = x))
        gv.1 gv'.1)
      sample_extended_grads new_grads_and_vars.
Proof.
  split; [by vm_compute|].
  apply (loss_and_clipped_gradients tiny_session_R tiny 2 2 1
           (np_full 1 2 2 1 1%R) sample_extended_grads).
  - reflexivity.
  - lia.
  - lia.
  - lia.
  - apply np_full_shape.
  - by vm_compute.
Defined.

(** The edges the statement leaves out: the mean over an empty batch is
    NaN, and a NaN gradient entry reaches the optimizer as NaN, next to
    the clipped numbers and infinities. *)
Example loss_of_empty_batch :
  let '(inputs, output, conv2d_out_logits) := pixelRNN 2 2 1 tiny in
  sess_run_loss tiny_session_R (loss conv2d_out_logits inputs) inputs []
  = Some NaN.
Proof. reflexivity. Qed.

Example clip_by_value_keeps_nan :
  Extended.optim p sample_extended_grads
  = Extended.ApplyGradients
      [([Num 1%Q; Num (- (1))%Q; Num (1 # 4)%Q; NaN; Num 1%Q],
        "conv_inputs/weights");
       ([Num (- (1 # 2))%Q], "conv_inputs/biases")].
Proof. reflexivity. Qed.

(** On finite gradients the operations are those on rationals. *)
Lemma optim_on_numbers (ps : params) (grads_and_vars : list (list Q * string)) :
  (0 <= grad_clip ps)%Q →
  ∃ new_grads_and_vars,
    optim ps grads_and_vars = ApplyGradients new_grads_and_vars ∧
    Extended.optim ps
      ((λ gv : list Q * string, (Num <$> gv.1, gv.2)) <$> grads_and_vars)
    = Extended.ApplyGradients
        ((λ gv : list Q * string, (Num <$> gv.1, gv.2)) <$> new_grads_and_vars).
Proof.
  intros Hclip. eexists. split; [done|].
  unfold Extended.optim. cbv zeta. f_equal.
  rewrite <- !list_fmap_compose. apply list_fmap_ext. intros _ [grad v] _.
  simpl. f_equal. unfold Extended.clip_by_value, clip_by_value.
  rewrite <- !list_fmap_compose. apply list_fmap_ext. intros _ x _.
  simpl. by rewrite clip_entry.
Qed.

(** ** Generation with the masked network

    What the masking buys the generation loop: although every step
    recomputes the whole canvas and keeps one pixel, the canvas [generate]
    returns for the network of [pixelRNN] is the binarized output of the
    network on that very canvas, at every pixel.  The binarization is any
    fixed pixelwise rule with values 0 and 1, so that every canvas the
    loop feeds is binarized; the arithmetic is any that meets
    [MaskedProduct], float32 included. *)

Lemma binarized_px {F : Type} `{Scalar F} (t : tensor F) :
  binarized t ↔
  ∀ b i j v, px t b i j = Some v → Forall (λ x : F, x = fzero ∨ x = fone) v.
Proof.
  unfold binarized, px, at2. split.
  - intros Ht b i j v Hv.
    destruct (t !! b) as [img|] eqn:Himg; [|done].
    destruct (img !! i) as [r|] eqn:Hr; [|done].
    eapply Forall_lookup_1 in Ht; [|exact Himg].
    eapply Forall_lookup_1 in Ht; [|exact Hr].
    by eapply Forall_lookup_1 in Ht.
  - intros Hpx. apply Forall_lookup_2. intros b img Himg.
    apply Forall_lookup_2. intros i r Hr.
    apply Forall_lookup_2. intros j v Hv.
    apply (Hpx b i j). by rewrite Himg, Hr.
Qed.

Lemma map4_binarized {F : Type} `{Scalar F} (f : F → F) (t : tensor F) :
  (∀ x, f x = fzero ∨ f x = fone) → binarized (map4 f t).
Proof.
  intros Hf. unfold binarized, map4.
  repeat (apply Forall_fmap, Forall_true; intros ?). apply Hf.
Qed.

Lemma np_full_binarized {F : Type} `{Scalar F} n h w c :
  binarized (np_full n h w c (fzero : F)).
Proof.
  unfold binarized, np_full. repeat apply Forall_replicate. by left.
Qed.

(** The loops keep a binarized canvas binarized when [binarize] returns
    binarized arrays. *)
Lemma run_steps_binarized {F : Type} `{Scalar F} {rng Sess : Type}
    (binarize : tensor F → rng → tensor F * rng)
    (run : Sess → node → node → tensor F → option (tensor F))
    (sess : Sess) (inputs output : node) (n h w c : nat)
    (ps : list (nat * nat)) (s s' : tensor F) (g g' : rng) :
  (∀ t, has_shape n h w c t →
        ∃ y, run sess output inputs t = Some y ∧ has_shape n h w c y) →
  (∀ t g0, has_shape n h w c t → has_shape n h w c (binarize t g0).1) →
  (∀ t g0, binarized (binarize t g0).1) →
  has_shape n h w c s →
  Forall (λ q, q.1 < h ∧ q.2 < w) ps → NoDup ps →
  binarized s →
  run_steps binarize run sess inputs output ps (s, g) = Some (s', g') →
  binarized s'.
Proof.
  intros Hrun Hshape Hbin Hs Hin Hnd Hseed Hsteps.
  destruct (run_steps_spec binarize run sess inputs output n h w c
              Hrun Hshape ps s g Hs Hin Hnd)
    as (s'' & g'' & Hsteps' & _ & Hframe & Hvals).
  rewrite Hsteps in Hsteps'. injection Hsteps' as <- <-.
  apply binarized_px. intros b i j v Hv.
  destruct (decide ((i, j) ∈ ps)) as [Hel|Hnel].
  - apply list_elem_of_lookup in Hel as [k Hk].
    destruct (Hvals k i j Hk) as (sk & gk & probs & _ & _ & Hval).
    rewrite Hval in Hv. by eapply binarized_px in Hv.
  - rewrite Hframe in Hv by done. by eapply binarized_px in Hv.
Qed.

Theorem generate_is_autoregressive {F : Type} `{MaskedProduct F} `{Activation F}
    (binarize_pixel : F → F) (sess : session F) (height width : nat)
    (ps : params) :
  (∀ x, binarize_pixel x = fzero ∨ binarize_pixel x = fone) →
  ∃ out probs,
    generate (λ t (g : unit), (map4 binarize_pixel t, g)) sess_run tt sess
      height width
      (pixelRNN height width 1 (with_gpu ps true)).1.1
      (pixelRNN height width 1 (with_gpu ps true)).1.2 = Some out ∧
    sess_run sess (pixelRNN height width 1 (with_gpu ps true)).1.2
      (pixelRNN height width 1 (with_gpu ps true)).1.1 out = Some probs ∧
    ∀ b i j, px out b i j = px (map4 binarize_pixel probs) b i j.
Proof.
  intros Hpixel.
  set (binarize := λ (t : tensor F) (g : unit), (map4 binarize_pixel t, g)).
  set (inputs := (pixelRNN height width 1 (with_gpu ps true)).1.1).
  set (output := (pixelRNN height width 1 (with_gpu ps true)).1.2).
  assert (Hbin : ∀ t g', has_shape 100 height width 1 t →
                         has_shape 100 height width 1 (binarize t g').1).
  { intros t g' Ht. by apply map4_shape. }
  assert (Hbinarized : ∀ t g', binarized (binarize t g').1).
  { intros t g'. by apply map4_binarized. }
  pose proof (pixelRNN_run_shape sess height width ps 100) as Hrun.
  fold inputs output in Hrun.
  destruct (run_steps_spec binarize sess_run sess inputs output
              100 height width 1 Hrun Hbin (raster 0 height width)
              (np_full 100 height width 1 fzero) tt
              (np_full_shape _ _ _ _ _) (raster_in_range _ _ _)
              (raster_NoDup _ _ _))
    as (out & g' & Hout & Hshape & _).
  destruct (pixelRNN_run_eval sess height width ps 100 out Hshape) as [Hev Hpshape].
  fold inputs output in Hev, Hpshape.
  exists out, (eval sess output out).
  split; [by rewrite generate_run, Hout|]. split; [done|].
  intros b i j.
  destruct (decide (i < height ∧ j < width)) as [[Hi Hj]|Hout_of_range].
  - assert (Hk : raster 0 height width !! (i * width + j) = Some (i, j)).
    { rewrite <- (Nat.sub_0_r i) at 1. apply raster_lookup_ix; lia. }
    destruct (run_steps_at binarize sess_run sess inputs output
                100 height width 1 Hrun Hbin (raster 0 height width)
                (i * width + j) i j (np_full 100 height width 1 fzero) tt
                (np_full_shape _ _ _ _ _) (raster_in_range _ _ _)
                (raster_NoDup _ _ _) Hk)
      as (s0 & g0 & probs0 & s1 & s2 & g2 & Hpre & Hp0 & _ & H2 & Hw & Ho & _
          & Hfin & Hs0 & _).
    rewrite Hout in H2. injection H2 as <- <-.
    assert (binarized s0) as Hb0.
    { eapply (run_steps_binarized binarize sess_run sess inputs output
                100 height width 1 (take (i * width + j) (raster 0 height width)));
        [exact Hrun|exact Hbin|exact Hbinarized|apply np_full_shape| | |
         apply np_full_binarized|exact Hpre].
      - apply Forall_take, raster_in_range.
      - eapply sublist_NoDup; [apply raster_NoDup|apply sublist_take]. }
    assert (binarized out) as Hbout.
    { eapply (run_steps_binarized binarize sess_run sess inputs output
                100 height width 1 (raster 0 height width));
        [exact Hrun|exact Hbin|exact Hbinarized|apply np_full_shape|
         apply raster_in_range|apply raster_NoDup|apply np_full_binarized|
         exact Hout]. }
    destruct (pixelRNN_run_eval sess height width ps 100 s0 Hs0) as [Hev0 _].
    fold inputs output in Hev0. rewrite Hev0 in Hp0. simplify_eq.
    assert (Hearlier : ∀ r c, before (r, c) (i, j) ∨ (r, c) = (i, j) →
                              (r, c) ∉ drop (S (i * width + j)) (raster 0 height width)).
    { intros r c Hrc.
      destruct (decide ((r, c) ∈ raster 0 height width)) as [Hin|Hnin].
      - apply take_drop_disjoint; [apply raster_NoDup|].
        apply raster_elem in Hin as [Hr Hc].
        rewrite raster_take_elem, Nat.sub_0_r. split; [done|]. split; [done|].
        destruct Hrc as [Hb|[= -> ->]]; [|lia].
        pose proof (proj2 (index_before width r c i j Hc Hj) Hb). lia.
      - intros Hd. apply Hnin. by eapply subseteq_drop. }
    rewrite (Hfin b i j) by (apply Hearlier; by right).
    rewrite Hw. unfold binarize. cbn [fst]. rewrite !px_map4. f_equal.
    apply causal_pointwise_depends;
      [apply pixelRNN_causal_pointwise| |done|done|].
    + intros r c. by rewrite !(has_shape_px_is_Some 100 height width 1).
    + intros r c Hb. rewrite (Hfin b r c) by (apply Hearlier; by left).
      symmetry. apply Ho. intros [= -> ->].
      unfold before in Hb. cbn [fst snd] in Hb. lia.
  - rewrite px_map4.
    destruct (px out b i j) eqn:Hp.
    { assert (is_Some (px out b i j)) as Hs by done.
      eapply has_shape_px_is_Some in Hs; [|done]. lia. }
    destruct (px (eval sess output out) b i j) eqn:Hp'; [|done].
    assert (is_Some (px (eval sess output out) b i j)) as Hs by done.
    eapply has_shape_px_is_Some in Hs; [|done]. lia.
Qed.


(** * Further properties *)

(** ** Arrays are determined by their pixels *)

Lemma px_row {F : Type} (t : tensor F) b i j :
  px t b i j = match row t b i with Some r => r !! j | None => None end.
Proof. unfold px, row, at2. by destruct (t !! b). Qed.

Lemma tensor_ext {F : Type} n h w c (t t' : tensor F) :
  has_shape n h w c t → has_shape n h w c t' →
  (∀ b i j, px t b i j = px t' b i j) → t = t'.
Proof.
  rewrite !has_shape_alt. intros [Hn Ht] [Hn' Ht'] Hpx.
  apply list_eq. intros b.
  destruct (t !! b) as [img|] eqn:Himg, (t' !! b) as [img'|] eqn:Himg'.
  - f_equal. destruct (Ht b img Himg) as [Hh Hrows].
    destruct (Ht' b img' Himg') as [Hh' Hrows'].
    apply list_eq. intros i.
    destruct (img !! i) as [r|] eqn:Hr, (img' !! i) as [r'|] eqn:Hr'.
    + f_equal. apply list_eq. intros j.
      specialize (Hpx b i j). unfold px, at2 in Hpx.
      by rewrite Himg, Himg', Hr, Hr' in Hpx.
    + apply lookup_lt_Some in Hr. apply lookup_ge_None_1 in Hr'. lia.
    + apply lookup_lt_Some in Hr'. apply lookup_ge_None_1 in Hr. lia.
    + done.
  - apply lookup_lt_Some in Himg. apply lookup_ge_None_1 in Himg'. lia.
  - apply lookup_lt_Some in Himg'. apply lookup_ge_None_1 in Himg. lia.
  - done.
Qed.

Lemma px_out_of_range {F : Type} n h w c (t : tensor F) b i j :
  has_shape n h w c t → ¬ (b < n ∧ i < h ∧ j < w) → px t b i j = None.
Proof.
  intros Ht Hout. destruct (px t b i j) eqn:Hp; [|done].
  assert (is_Some (px t b i j)) as Hs by done.
  eapply has_shape_px_is_Some in Hs; [|done]. tauto.
Qed.

Lemma px_of_map4 {F : Type} (f : F → F) (x : tensor F) b i j :
  px (map4 f x) b i j = fmap (M:=list) f <$> px x b i j.
Proof.
  unfold px, map4, at2. rewrite list_lookup_fmap.
  destruct (x !! b) as [img|]; simpl; [|done].
  rewrite list_lookup_fmap.
  destruct (img !! i) as [r|]; simpl; [|done].
  by rewrite list_lookup_fmap.
Qed.

(** ** The loops with a raster-causal model *)

Lemma pixelwise_shape {F rng : Type} (f : F → F) n h w c (t : tensor F) (g : rng) :
  has_shape n h w c t → has_shape n h w c (pixelwise f t g).1.
Proof. intros Ht. by apply map4_shape. Qed.

(** Among the pixels at or before a visited pixel, none is visited later. *)
Lemma raster_earlier_not_later lo hi w i j r c :
  lo ≤ i < hi → j < w →
  before (r, c) (i, j) ∨ (r, c) = (i, j) →
  (r, c) ∉ drop (S ((i - lo) * w + j)) (raster lo hi w).
Proof.
  intros Hi Hj Hrc.
  destruct (decide ((r, c) ∈ raster lo hi w)) as [Hin|Hnin].
  - apply take_drop_disjoint; [apply raster_NoDup|].
    apply raster_elem in Hin as [Hr Hc].
    rewrite raster_take_elem. split; [done|]. split; [done|].
    destruct Hrc as [Hb|[= -> ->]]; [|lia].
    assert (before (r - lo, c) (i - lo, j)) as Hb'.
    { unfold before in *. cbn [fst snd] in *. lia. }
    pose proof (proj2 (index_before w (r - lo) c (i - lo) j Hc Hj) Hb'). lia.
  - intros Hd. apply Hnin. by eapply subseteq_drop.
Qed.

(** Running the loops over the rows from [lo] on with a raster-causal model
    and a pixelwise binarization ends on a canvas that holds, at every
    pixel of those rows, the binarized output of the model on that very
    canvas. *)
Lemma raster_run_fixed_point {F : Type} `{Scalar F} {rng Sess : Type}
    (f : F → F)
    (run : Sess → node → node → tensor F → option (tensor F))
    (sess : Sess) (inputs output : node) (n h w c lo : nat)
    (seed : tensor F) (g : rng) :
  (∀ t, has_shape n h w c t →
        ∃ y, run sess output inputs t = Some y ∧ has_shape n h w c y) →
  raster_causal run sess inputs output n h w c →
  has_shape n h w c seed →
  ∃ out g' probs,
    run_steps (pixelwise f) run sess inputs output (raster lo h w) (seed, g)
      = Some (out, g') ∧
    has_shape n h w c out ∧
    run sess output inputs out = Some probs ∧
    ∀ b i j, lo ≤ i → px out b i j = px (map4 f probs) b i j.
Proof.
  intros Hrun Hcausal Hseed.
  assert (Hbin : ∀ t g', has_shape n h w c t →
                         has_shape n h w c (pixelwise (rng:=rng) f t g').1).
  { intros t g' Ht. by apply pixelwise_shape. }
  destruct (run_steps_spec (pixelwise f) run sess inputs output n h w c
              Hrun Hbin (raster lo h w) seed g Hseed
              (raster_in_range _ _ _) (raster_NoDup _ _ _))
    as (out & g' & Hout & Hshape & _).
  destruct (Hrun out Hshape) as (probs & Hprobs & Hpshape).
  exists out, g', probs. split; [done|]. split; [done|]. split; [done|].
  intros b i j Hlo.
  destruct (decide (b < n ∧ i < h ∧ j < w)) as [(Hb & Hi & Hj)|Hrange].
  - assert (Hk : raster lo h w !! ((i - lo) * w + j) = Some (i, j)).
    { apply raster_lookup_ix; lia. }
    destruct (run_steps_at (pixelwise f) run sess inputs output n h w c
                Hrun Hbin (raster lo h w) ((i - lo) * w + j) i j seed g
                Hseed (raster_in_range _ _ _) (raster_NoDup _ _ _) Hk)
      as (s0 & g0 & probs0 & s1 & s2 & g2 & _ & Hp0 & _ & H2 & Hw & Ho & _
          & Hfin & Hs0 & _).
    rewrite Hout in H2. injection H2 as <- <-.
    rewrite (Hfin b i j)
      by (apply raster_earlier_not_later; [lia|done|by right]).
    rewrite Hw. unfold pixelwise. cbn [fst]. rewrite !px_of_map4. f_equal.
    eapply Hcausal; [exact Hs0|exact Hshape|done|done|].
    intros r c' Hbefore.
    rewrite (Hfin b r c')
      by (apply raster_earlier_not_later; [lia|done|by left]).
    symmetry. apply Ho. intros [= -> ->].
    unfold before in Hbefore. cbn [fst snd] in Hbefore. lia.
  - rewrite px_of_map4.
    rewrite (px_out_of_range n h w c out) by done.
    by rewrite (px_out_of_range n h w c probs).
Qed.

Lemma raster_lookup_ix_inv lo hi w k i j :
  raster lo hi w !! k = Some (i, j) → lo ≤ hi → k = (i - lo) * w + j.
Proof.
  intros Hk Hle. replace hi with (lo + (hi - lo)) in Hk by lia.
  apply raster_lookup in Hk. lia.
Qed.

(** Two runs of the loops over the rows from [lo] on, from canvases that
    agree above row [lo], agree after every step on the rows above [lo] and
    on the pixels visited so far. *)
Lemma raster_runs_agree {F : Type} `{Scalar F} {rng Sess : Type}
    (f : F → F)
    (run : Sess → node → node → tensor F → option (tensor F))
    (sess : Sess) (inputs output : node) (n h w c lo : nat)
    (seed seed' : tensor F) (g : rng) :
  (∀ t, has_shape n h w c t →
        ∃ y, run sess output inputs t = Some y ∧ has_shape n h w c y) →
  raster_causal run sess inputs output n h w c →
  has_shape n h w c seed → has_shape n h w c seed' →
  (∀ b i, i < lo → row seed b i = row seed' b i) →
  ∀ k, ∃ s s' gk,
    run_steps (pixelwise f) run sess inputs output (take k (raster lo h w))
      (seed, g) = Some (s, gk) ∧
    run_steps (pixelwise f) run sess inputs output (take k (raster lo h w))
      (seed', g) = Some (s', gk) ∧
    has_shape n h w c s ∧ has_shape n h w c s' ∧
    ∀ b r c', r < lo ∨ (r, c') ∈ take k (raster lo h w) →
              px s b r c' = px s' b r c'.
Proof.
  intros Hrun Hcausal Hseed Hseed' Htop.
  assert (Hbin : ∀ t g', has_shape n h w c t →
                         has_shape n h w c (pixelwise (rng:=rng) f t g').1).
  { intros t g' Ht. by apply pixelwise_shape. }
  induction k as [|k IH].
  - exists seed, seed', g. rewrite take_0.
    split; [done|]. split; [done|]. split; [done|]. split; [done|].
    intros b r c' [Hr|Hin]; [|by apply elem_of_nil in Hin].
    by rewrite !px_row, Htop.
  - destruct IH as (s & s' & gk & Hs & Hs' & Hsh & Hsh' & Hag).
    destruct (raster lo h w !! k) as [[i j]|] eqn:Hk.
    + pose proof (list_elem_of_lookup_2 _ _ _ Hk) as [Hi Hj]%raster_elem.
      rewrite (take_S_r _ _ _ Hk), !run_steps_app, Hs, Hs'. simpl.
      destruct (pixel_step_spec (pixelwise f) run sess inputs output n h w c
                  Hrun Hbin i j s gk Hsh (proj2 Hi) Hj)
        as (s1 & probs & Hp & Hstep & Hsh1 & Hw1 & Ho1).
      destruct (pixel_step_spec (pixelwise f) run sess inputs output n h w c
                  Hrun Hbin i j s' gk Hsh' (proj2 Hi) Hj)
        as (s1' & probs' & Hp' & Hstep' & Hsh1' & Hw1' & Ho1').
      rewrite Hstep, Hstep'. unfold pixelwise at 1 2. cbn [snd].
      exists s1, s1', gk.
      split; [done|]. split; [done|]. split; [done|]. split; [done|].
      assert (Hvisited : ∀ b, px s1 b i j = px s1' b i j).
      { intros b. rewrite Hw1, Hw1'. unfold pixelwise. cbn [fst].
        rewrite !px_of_map4. f_equal.
        eapply Hcausal; [exact Hsh|exact Hsh'|done|done|].
        intros r c' Hbefore.
        destruct (decide (r < lo)) as [Hr|Hr]; [apply Hag; by left|].
        destruct (decide (c' < w)) as [Hc|Hc].
        - apply Hag. right. rewrite raster_take_elem.
          apply raster_lookup_ix_inv in Hk as Hkeq; [|lia].
          assert (before (r - lo, c') (i - lo, j)) as Hb'.
          { unfold before in *. cbn [fst snd] in *. lia. }
          pose proof (proj2 (index_before w (r - lo) c' (i - lo) j Hc Hj) Hb').
          unfold before in Hbefore. cbn [fst snd] in Hbefore. lia.
        - rewrite (px_out_of_range n h w c s) by (done || lia).
          by rewrite (px_out_of_range n h w c s') by (done || lia). }
      intros b r c' Hrc.
      destruct (decide ((r, c') = (i, j))) as [[= -> ->]|Hne]; [apply Hvisited|].
      rewrite Ho1, Ho1' by done. apply Hag.
      destruct Hrc as [Hr|Hin]; [by left|right].
      apply elem_of_app in Hin as [Hin|Hin%list_elem_of_singleton]; done.
    + apply lookup_ge_None_1 in Hk.
      rewrite (take_ge _ (S k)) by lia.
      rewrite (take_ge _ k) in Hs, Hs', Hag by lia.
      exists s, s', gk. done.
Qed.

(** The network of [pixelRNN], run through [sess_run], is raster-causal. *)
Lemma pixelRNN_raster_causal {F : Type} `{ScalarZero F} `{Activation F}
    (sess : session F) (height width : nat) (ps : params) (n : nat) :
  raster_causal sess_run sess
    (pixelRNN height width 1 (with_gpu ps true)).1.1
    (pixelRNN height width 1 (with_gpu ps true)).1.2 n height width 1.
Proof.
  intros x x' y y' b i j Hx Hx' Hy Hy' Hag.
  destruct (pixelRNN_run_eval sess height width ps n x Hx) as [Hev _].
  destruct (pixelRNN_run_eval sess height width ps n x' Hx') as [Hev' _].
  rewrite Hev in Hy. rewrite Hev' in Hy'. simplify_eq.
  apply causal_depends; [apply pixelRNN_causal| |done].
  intros r c. by rewrite !(has_shape_px_is_Some n height width 1).
Qed.

(** X1: with a raster-causal model and a pixelwise binarization, the canvas
    [generate] returns is the binarized output of the model on that very
    canvas: recomputing everything at each step and keeping one pixel loses
    nothing. *)
Theorem generate_fixed_point {F : Type} `{Scalar F} {rng Sess : Type}
    (f : F → F)
    (run : Sess → node → node → tensor F → option (tensor F))
    (g : rng) (sess : Sess) (height width : nat) (inputs output : node) :
  (∀ t, has_shape 100 height width 1 t →
        ∃ y, run sess output inputs t = Some y ∧ has_shape 100 height width 1 y) →
  raster_causal run sess inputs output 100 height width 1 →
  ∃ out probs,
    generate (pixelwise f) run g sess height width inputs output = Some out ∧
    run sess output inputs out = Some probs ∧
    out = map4 f probs.
Proof.
  intros Hrun Hcausal.
  destruct (raster_run_fixed_point f run sess inputs output 100 height width 1 0
              (np_full 100 height width 1 fzero) g Hrun Hcausal
              (np_full_shape _ _ _ _ _))
    as (out & g' & probs & Hout & Hshape & Hprobs & Hfix).
  exists out, probs. rewrite generate_run, Hout.
  split; [done|]. split; [done|].
  destruct (Hrun out Hshape) as (probs' & Hprobs' & Hpshape).
  rewrite Hprobs in Hprobs'. injection Hprobs' as <-.
  apply (tensor_ext 100 height width 1); [done|by apply map4_shape|].
  intros b i j. apply Hfix. lia.
Qed.

Lemma generate_fixed_point_witness :
  ∃ out probs,
    generate (F:=Z) (rng:=unit) (pixelwise fsigmoid) sess_run tt tiny_session 2 2
      (pixelRNN 2 2 1 (with_gpu tiny true)).1.1
      (pixelRNN 2 2 1 (with_gpu tiny true)).1.2 = Some out ∧
    sess_run tiny_session (pixelRNN 2 2 1 (with_gpu tiny true)).1.2
      (pixelRNN 2 2 1 (with_gpu tiny true)).1.1 out = Some probs ∧
    out = map4 fsigmoid probs.
Proof.
  apply (generate_fixed_point (F:=Z) (rng:=unit) fsigmoid sess_run tt
           tiny_session 2 2).
  - apply pixelRNN_run_shape.
  - apply pixelRNN_raster_causal.
Defined.

(** X2: with a raster-causal model and a pixelwise binarization, every
    pixel of the rows [generate_occlusions] regenerates, from
    [height // 2] on, holds the binarized output of the model on the
    returned canvas. *)
Theorem generate_occlusions_fixed_point {F : Type} `{Scalar F} {rng Sess : Type}
    (f : F → F)
    (occlude : tensor F → nat → nat → tensor F)
    (run : Sess → node → node → tensor F → option (tensor F))
    (images : tensor F) (g : rng) (sess : Sess) (height width : nat)
    (inputs output : node) (n c : nat) :
  has_shape n height width c (occlude images height width) →
  (∀ t, has_shape n height width c t →
        ∃ y, run sess output inputs t = Some y ∧ has_shape n height width c y) →
  raster_causal run sess inputs output n height width c →
  ∃ out probs,
    generate_occlusions (pixelwise f) occlude run images g sess height width
      inputs output = Some out ∧
    run sess output inputs out = Some probs ∧
    ∀ b i j, height / 2 ≤ i → px out b i j = px (map4 f probs) b i j.
Proof.
  intros Hseed Hrun Hcausal.
  destruct (raster_run_fixed_point f run sess inputs output n height width c
              (height / 2) (occlude images height width) g Hrun Hcausal Hseed)
    as (out & g' & probs & Hout & Hshape & Hprobs & Hfix).
  exists out, probs. by rewrite generate_occlusions_run, Hout.
Qed.

Lemma generate_occlusions_fixed_point_witness :
  ∃ out probs,
    generate_occlusions (F:=Z) (rng:=unit) (pixelwise fsigmoid) (λ t _ _, t)
      sess_run canvas_a tt tiny_session 2 2
      (pixelRNN 2 2 1 (with_gpu tiny true)).1.1
      (pixelRNN 2 2 1 (with_gpu tiny true)).1.2 = Some out ∧
    sess_run tiny_session (pixelRNN 2 2 1 (with_gpu tiny true)).1.2
      (pixelRNN 2 2 1 (with_gpu tiny true)).1.1 out = Some probs ∧
    ∀ b i j, 2 / 2 ≤ i → px out b i j = px (map4 fsigmoid probs) b i j.
Proof.
  apply (generate_occlusions_fixed_point (F:=Z) (rng:=unit) fsigmoid
           (λ t _ _, t) sess_run canvas_a tt tiny_session 2 2 _ _ 1 1).
  - vm_compute. repeat constructor.
  - apply pixelRNN_run_shape.
  - apply pixelRNN_raster_causal.
Defined.

(** Two runs of the loops from canvases that agree above row [lo] end on
    the same canvas. *)
Lemma raster_runs_equal {F : Type} `{Scalar F} {rng Sess : Type}
    (f : F → F)
    (run : Sess → node → node → tensor F → option (tensor F))
    (sess : Sess) (inputs output : node) (n h w c lo : nat)
    (seed seed' : tensor F) (g : rng) :
  (∀ t, has_shape n h w c t →
        ∃ y, run sess output inputs t = Some y ∧ has_shape n h w c y) →
  raster_causal run sess inputs output n h w c →
  has_shape n h w c seed → has_shape n h w c seed' →
  (∀ b i, i < lo → row seed b i = row seed' b i) →
  ∃ out g',
    run_steps (pixelwise f) run sess inputs output (raster lo h w) (seed, g)
      = Some (out, g') ∧
    run_steps (pixelwise f) run sess inputs output (raster lo h w) (seed', g)
      = Some (out, g').
Proof.
  intros Hrun Hcausal Hseed Hseed' Htop.
  destruct (raster_runs_agree f run sess inputs output n h w c lo _ _ g
              Hrun Hcausal Hseed Hseed' Htop (length (raster lo h w)))
    as (s & s' & gk & Hs & Hs' & Hsh & Hsh' & Hag).
  rewrite take_ge in Hs, Hs', Hag by done.
  exists s, gk. split; [done|]. rewrite Hs'. do 2 f_equal. symmetry.
  apply (tensor_ext n h w c); [done|done|].
  intros b i j.
  destruct (decide (b < n ∧ i < h ∧ j < w)) as [(Hb & Hi & Hj)|Hrange].
  - apply Hag. destruct (decide (i < lo)); [by left|right].
    apply raster_elem. lia.
  - rewrite (px_out_of_range n h w c s) by done.
    by rewrite (px_out_of_range n h w c s').
Qed.

(** X3: with a raster-causal model and a pixelwise binarization,
    [generate_occlusions] never looks at the occluded half: two seeded
    canvases that agree on the rows above [height // 2] give the same
    returned canvas, whatever they hold in the rows below. *)
Theorem generate_occlusions_ignores_hidden_rows
    {F : Type} `{Scalar F} {rng Sess : Type}
    (f : F → F)
    (occlude : tensor F → nat → nat → tensor F)
    (run : Sess → node → node → tensor F → option (tensor F))
    (images images' : tensor F) (g : rng) (sess : Sess) (height width : nat)
    (inputs output : node) (n c : nat) :
  has_shape n height width c (occlude images height width) →
  has_shape n height width c (occlude images' height width) →
  (∀ b i, i < height / 2 →
     row (occlude images height width) b i = row (occlude images' height width) b i) →
  (∀ t, has_shape n height width c t →
        ∃ y, run sess output inputs t = Some y ∧ has_shape n height width c y) →
  raster_causal run sess inputs output n height width c →
  ∃ out,
    generate_occlusions (pixelwise f) occlude run images g sess height width
      inputs output = Some out ∧
    generate_occlusions (pixelwise f) occlude run images' g sess height width
      inputs output = Some out.
Proof.
  intros Hseed Hseed' Htop Hrun Hcausal.
  destruct (raster_runs_equal f run sess inputs output n height width c
              (height / 2) _ _ g Hrun Hcausal Hseed Hseed' Htop)
    as (out & g' & Hout & Hout').
  exists out. by rewrite !generate_occlusions_run, Hout, Hout'.
Qed.

Lemma generate_occlusions_ignores_hidden_rows_witness :
  ∃ out,
    generate_occlusions (F:=Z) (rng:=unit) (pixelwise fsigmoid) (λ t _ _, t)
      sess_run canvas_a tt tiny_session 2 2
      (pixelRNN 2 2 1 (with_gpu tiny true)).1.1
      (pixelRNN 2 2 1 (with_gpu tiny true)).1.2 = Some out ∧
    generate_occlusions (F:=Z) (rng:=unit) (pixelwise fsigmoid) (λ t _ _, t)
      sess_run canvas_b tt tiny_session 2 2
      (pixelRNN 2 2 1 (with_gpu tiny true)).1.1
      (pixelRNN 2 2 1 (with_gpu tiny true)).1.2 = Some out.
Proof.
  apply (generate_occlusions_ignores_hidden_rows (F:=Z) (rng:=unit) fsigmoid
           (λ t _ _, t) sess_run canvas_a canvas_b tt tiny_session 2 2 _ _ 1 1).
  - vm_compute. repeat constructor.
  - vm_compute. repeat constructor.
  - intros b i Hi. assert (i = 0) as -> by (simpl in Hi; lia).
    by destruct b as [|b].
  - apply pixelRNN_run_shape.
  - apply pixelRNN_raster_causal.
Defined.

(** ** What the returned canvases hold *)

(** The run over the rows from [lo] on leaves the rows above [lo] alone and
    writes a binarized value at every other pixel. *)
Lemma raster_run_pixels {F : Type} `{Scalar F} {rng Sess : Type}
    (binarize : tensor F → rng → tensor F * rng)
    (run : Sess → node → node → tensor F → option (tensor F))
    (sess : Sess) (inputs output : node) (n h w c lo : nat)
    (seed : tensor F) (g : rng) :
  (∀ t, has_shape n h w c t →
        ∃ y, run sess output inputs t = Some y ∧ has_shape n h w c y) →
  (∀ t g', has_shape n h w c t → has_shape n h w c (binarize t g').1) →
  has_shape n h w c seed →
  ∃ out g',
    run_steps binarize run sess inputs output (raster lo h w) (seed, g)
      = Some (out, g') ∧
    has_shape n h w c out ∧
    (∀ b i, i < lo → row out b i = row seed b i) ∧
    (∀ b i j v, lo ≤ i → px out b i j = Some v →
       ∃ t gt, px (binarize t gt).1 b i j = Some v).
Proof.
  intros Hrun Hbin Hseed.
  destruct (run_steps_spec binarize run sess inputs output n h w c
              Hrun Hbin (raster lo h w) seed g Hseed
              (raster_in_range _ _ _) (raster_NoDup _ _ _))
    as (out & g' & Hout & Hshape & Hframe & Hvals).
  exists out, g'. split; [done|]. split; [done|]. split.
  - intros b i Hi. apply row_ext.
    + by rewrite !(has_shape_row_is_Some n h w c).
    + intros j. apply Hframe. intros Hin%raster_elem. lia.
  - intros b i j v Hlo Hv.
    assert (is_Some (px out b i j)) as Hs by done.
    eapply has_shape_px_is_Some in Hs as (Hb & Hi & Hj); [|done].
    destruct (Hvals ((i - lo) * w + j) i j) as (sk & gk & probs & _ & _ & Hval).
    { apply raster_lookup_ix; lia. }
    exists probs, gk. by rewrite <- Hval.
Qed.

(** X4: every pixel of the canvas [generate] returns was produced by
    [binarize]: whatever holds of all binarized pixels holds of the whole
    result. *)
Theorem generate_output_is_binarized {F : Type} `{Scalar F} {rng Sess : Type}
    (binarize : tensor F → rng → tensor F * rng)
    (run : Sess → node → node → tensor F → option (tensor F))
    (g : rng) (sess : Sess) (height width : nat) (inputs output : node)
    (P : list F → Prop) :
  (∀ t, has_shape 100 height width 1 t →
        ∃ y, run sess output inputs t = Some y ∧ has_shape 100 height width 1 y) →
  (∀ t g', has_shape 100 height width 1 t →
           has_shape 100 height width 1 (binarize t g').1) →
  (∀ t g' b i j v, px (binarize t g').1 b i j = Some v → P v) →
  ∃ out,
    generate binarize run g sess height width inputs output = Some out ∧
    ∀ b i j v, px out b i j = Some v → P v.
Proof.
  intros Hrun Hbin HP.
  destruct (raster_run_pixels binarize run sess inputs output 100 height width 1
              0 (np_full 100 height width 1 fzero) g Hrun Hbin
              (np_full_shape _ _ _ _ _))
    as (out & g' & Hout & _ & _ & Hpix).
  exists out. rewrite generate_run, Hout. split; [done|].
  intros b i j v Hv.
  destruct (Hpix b i j v ltac:(lia) Hv) as (t & gt & Ht). by eapply HP.
Qed.

Lemma binarize_threshold_values t g b i j v :
  px (binarize_threshold t g).1 b i j = Some v →
  Forall (λ x, x = 0%Q ∨ x = 1%Q) v.
Proof.
  unfold binarize_threshold. cbn [fst]. rewrite px_of_map4.
  destruct (px t b i j) as [v0|]; [|done]. intros [= <-].
  apply Forall_fmap, Forall_forall. intros x _. simpl.
  unfold binarize_px. destruct (Qle_bool x (1 # 2)); auto.
Qed.

Lemma generate_output_is_binarized_witness :
  ∃ out,
    generate binarize_threshold (constant_model (9 # 10)) tt tt 3 3
      (pixelRNN 3 3 1 p).1.1 (pixelRNN 3 3 1 p).1.2 = Some out ∧
    ∀ b i j v, px out b i j = Some v → Forall (λ x, x = 0%Q ∨ x = 1%Q) v.
Proof.
  apply (generate_output_is_binarized binarize_threshold
           (constant_model (9 # 10)) tt tt 3 3
           (pixelRNN 3 3 1 p).1.1 (pixelRNN 3 3 1 p).1.2
           (Forall (λ x, x = 0%Q ∨ x = 1%Q))).
  - intros t. apply constant_model_shape.
  - intros t g'. apply binarize_threshold_shape.
  - apply binarize_threshold_values.
Defined.

(** X5: the canvas [generate_occlusions] returns holds seed pixels above
    row [height // 2] and binarized pixels from there on: whatever holds of
    the seed pixels and of all binarized pixels holds of the whole
    result. *)
Theorem generate_occlusions_output_pixels
    {F : Type} `{Scalar F} {rng Sess : Type}
    (binarize : tensor F → rng → tensor F * rng)
    (occlude : tensor F → nat → nat → tensor F)
    (run : Sess → node → node → tensor F → option (tensor F))
    (images : tensor F) (g : rng) (sess : Sess) (height width : nat)
    (inputs output : node) (n c : nat) (P : list F → Prop) :
  has_shape n height width c (occlude images height width) →
  (∀ t, has_shape n height width c t →
        ∃ y, run sess output inputs t = Some y ∧ has_shape n height width c y) →
  (∀ t g', has_shape n height width c t →
           has_shape n height width c (binarize t g').1) →
  (∀ b i j v, px (occlude images height width) b i j = Some v → P v) →
  (∀ t g' b i j v, px (binarize t g').1 b i j = Some v → P v) →
  ∃ out,
    generate_occlusions binarize occlude run images g sess height width
      inputs output = Some out ∧
    ∀ b i j v, px out b i j = Some v → P v.
Proof.
  intros Hseed Hrun Hbin HPseed HP.
  destruct (raster_run_pixels binarize run sess inputs output n height width c
              (height / 2) (occlude images height width) g Hrun Hbin Hseed)
    as (out & g' & Hout & _ & Htop & Hpix).
  exists out. rewrite generate_occlusions_run, Hout. split; [done|].
  intros b i j v Hv.
  destruct (decide (i < height / 2)) as [Hi|Hi].
  - rewrite px_row, Htop, <- px_row in Hv by done. by eapply HPseed.
  - destruct (Hpix b i j v ltac:(lia) Hv) as (t & gt & Ht). by eapply HP.
Qed.

Lemma generate_occlusions_output_pixels_witness :
  ∃ out,
    generate_occlusions binarize_threshold occlude_copy (constant_model (9 # 10))
      seed_top tt tt 4 4 (pixelRNN 4 4 1 p).1.1 (pixelRNN 4 4 1 p).1.2
      = Some out ∧
    ∀ b i j v, px out b i j = Some v → Forall (λ x, x = 0%Q ∨ x = 1%Q) v.
Proof.
  apply (generate_occlusions_output_pixels binarize_threshold occlude_copy
           (constant_model (9 # 10)) seed_top tt tt 4 4
           (pixelRNN 4 4 1 p).1.1 (pixelRNN 4 4 1 p).1.2 1 1
           (Forall (λ x, x = 0%Q ∨ x = 1%Q))).
  - vm_compute. repeat constructor.
  - intros t. apply constant_model_shape.
  - intros t g'. apply binarize_threshold_shape.
  - intros b i j v Hv. unfold occlude_copy in Hv.
    destruct b as [|b]; [|done].
    destruct i as [|[|[|[|i]]]]; try done;
      destruct j as [|[|[|[|j]]]]; try done;
      injection Hv as <-; (constructor; [auto|constructor]).
  - apply binarize_threshold_values.
Defined.

(** X6: regenerating the lower half of a canvas that [generate_occlusions]
    returned gives the same canvas again, for a raster-causal model, a
    pixelwise binarization and an [occlude] that keeps the shape and the
    rows above [height // 2]. *)
Theorem generate_occlusions_idempotent {F : Type} `{Scalar F} {rng Sess : Type}
    (f : F → F)
    (occlude : tensor F → nat → nat → tensor F)
    (run : Sess → node → node → tensor F → option (tensor F))
    (images : tensor F) (g : rng) (sess : Sess) (height width : nat)
    (inputs output : node) (n c : nat) :
  has_shape n height width c (occlude images height width) →
  (∀ t, has_shape n height width c t →
        has_shape n height width c (occlude t height width) ∧
        ∀ b i, i < height / 2 → row (occlude t height width) b i = row t b i) →
  (∀ t, has_shape n height width c t →
        ∃ y, run sess output inputs t = Some y ∧ has_shape n height width c y) →
  raster_causal run sess inputs output n height width c →
  ∃ out,
    generate_occlusions (pixelwise f) occlude run images g sess height width
      inputs output = Some out ∧
    generate_occlusions (pixelwise f) occlude run out g sess height width
      inputs output = Some out.
Proof.
  intros Hseed Hocc Hrun Hcausal.
  assert (Hbin : ∀ t g', has_shape n height width c t →
                         has_shape n height width c (pixelwise (rng:=rng) f t g').1).
  { intros t g' Ht. by apply pixelwise_shape. }
  destruct (raster_run_pixels (pixelwise f) run sess inputs output
              n height width c (height / 2) (occlude images height width) g
              Hrun Hbin Hseed)
    as (out & g' & Hout & Hshape & Htop & _).
  destruct (Hocc out Hshape) as [Hoshape Hotop].
  destruct (raster_runs_equal f run sess inputs output n height width c
              (height / 2) (occlude images height width)
              (occlude out height width) g Hrun Hcausal Hseed Hoshape)
    as (out' & g'' & Hout1 & Hout2).
  { intros b i Hi. by rewrite Hotop, Htop. }
  rewrite Hout in Hout1. injection Hout1 as <- <-.
  exists out. by rewrite !generate_occlusions_run, Hout, Hout2.
Qed.

Lemma generate_occlusions_idempotent_witness :
  ∃ out,
    generate_occlusions (F:=Z) (rng:=unit) (pixelwise fsigmoid) (λ t _ _, t)
      sess_run canvas_a tt tiny_session 2 2
      (pixelRNN 2 2 1 (with_gpu tiny true)).1.1
      (pixelRNN 2 2 1 (with_gpu tiny true)).1.2 = Some out ∧
    generate_occlusions (F:=Z) (rng:=unit) (pixelwise fsigmoid) (λ t _ _, t)
      sess_run out tt tiny_session 2 2
      (pixelRNN 2 2 1 (with_gpu tiny true)).1.1
      (pixelRNN 2 2 1 (with_gpu tiny true)).1.2 = Some out.
Proof.
  apply (generate_occlusions_idempotent (F:=Z) (rng:=unit) fsigmoid
           (λ t _ _, t) sess_run canvas_a tt tiny_session 2 2 _ _ 1 1).
  - vm_compute. repeat constructor.
  - intros t Ht. done.
  - apply pixelRNN_run_shape.
  - apply pixelRNN_raster_causal.
Defined.

(** ** Empty images *)

Lemma raster_no_columns lo hi : raster lo hi 0 = [].
Proof.
  unfold raster. generalize (range lo hi). intros l.
  induction l as [|i l IH]; [done|]. by rewrite bind_cons, IH.
Qed.

(** X7: for images without rows or without columns both loops return their
    initial canvas and never run the model, so they succeed even with a
    session that rejects every feed. *)
Theorem generation_of_empty_images {F : Type} `{Scalar F} {rng Sess : Type}
    (binarize : tensor F → rng → tensor F * rng)
    (occlude : tensor F → nat → nat → tensor F)
    (run : Sess → node → node → tensor F → option (tensor F))
    (images : tensor F) (g : rng) (sess : Sess) (height width : nat)
    (inputs output : node) :
  generate binarize run g sess 0 width inputs output
    = Some (np_full 100 0 width 1 fzero) ∧
  generate binarize run g sess height 0 inputs output
    = Some (np_full 100 height 0 1 fzero) ∧
  generate_occlusions binarize occlude run images g sess 0 width inputs output
    = Some (occlude images 0 width) ∧
  generate_occlusions binarize occlude run images g sess height 0 inputs output
    = Some (occlude images height 0).
Proof.
  rewrite !generate_run, !generate_occlusions_run, !raster_no_columns.
  rewrite !raster_empty. done.
Qed.

(** ** Variable scopes of the network *)

Lemma scopes_bare_stack (name : nat → string) l x :
  scopes (foldl (λ acc idx, Conv2d acc 3 (1, 1) B (name idx)) x l)
  = scopes x ++ (name <$> l).
Proof.
  revert x. induction l as [|k l IH]; intros x; simpl.
  - by rewrite app_nil_r.
  - rewrite IH. simpl. by rewrite <- app_assoc.
Qed.

Lemma scopes_relu_stack (name : nat → string) o l x :
  scopes (foldl (λ acc idx, Relu (Conv2d acc o (1, 1) B (name idx))) x l)
  = scopes x ++ (name <$> l).
Proof.
  revert x. induction l as [|k l IH]; intros x; simpl.
  - by rewrite app_nil_r.
  - rewrite IH. simpl. by rewrite <- app_assoc.
Qed.

(** A decimal numeral does not start with an underscore. *)
Lemma pretty_N_go_not_underscore (x : N) : ∀ acc rest,
  acc ≠ "_" +:+ rest → pretty_N_go x acc ≠ "_" +:+ rest.
Proof.
  induction (N.lt_wf_0 x) as [x _ IH]. intros acc rest Hacc.
  destruct (decide (x = 0)%N) as [->|Hx].
  - by rewrite pretty_N_go_0.
  - rewrite pretty_N_go_step by lia.
    apply IH; [apply N.div_lt; lia|].
    intros [= Hc _]. revert Hc. unfold pretty_N_char.
    by repeat case_match.
Qed.

Lemma pretty_nat_not_underscore (k : nat) rest : pretty k ≠ "_" +:+ rest.
Proof.
  unfold pretty, pretty_nat, pretty, pretty_N. case_decide; [done|].
  by apply pretty_N_go_not_underscore.
Qed.

(** X8: the convolutions of [pixelRNN] are created under pairwise distinct
    variable scopes, whatever the stack lengths: "conv_inputs", "CONV0",
    "CONV1", ..., "CONV_OUT0", "CONV_OUT1", ..., "conv2d_out_logits"; no
    two layers share their weights. *)
Theorem pixelRNN_scopes_distinct (height width channel : nat) (ps : params) :
  let '(_, output, conv2d_out_logits) := pixelRNN height width channel ps in
  scopes conv2d_out_logits
  = ["conv_inputs"]
    ++ ((λ idx, "CONV" +:+ pretty idx) <$> seq 0 (recurrent_length ps))
    ++ ((λ idx, "CONV_OUT" +:+ pretty idx) <$> seq 0 (out_recurrent_length ps))
    ++ ["conv2d_out_logits"] ∧
  scopes output = scopes conv2d_out_logits ∧
  NoDup (scopes conv2d_out_logits).
Proof.
  unfold pixelRNN, for_range. cbn [scopes].
  rewrite scopes_relu_stack, scopes_bare_stack, !Nat.sub_0_r. cbn [scopes app].
  split; [by rewrite <- !app_assoc|]. split; [done|].
  rewrite <- !app_assoc. cbn [app].
  apply NoDup_cons. split.
  { rewrite !elem_of_app, !list_elem_of_fmap, list_elem_of_singleton.
    intros [(k & Hk & _)|[(k & Hk & _)|Hk]]; simpl in Hk; discriminate. }
  apply NoDup_app. split; [|split].
  - apply NoDup_fmap_2; [|apply NoDup_seq].
    intros k k' Hk. simpl in Hk. injection Hk as Hk. by apply (inj pretty).
  - intros s (k & -> & _)%list_elem_of_fmap.
    rewrite elem_of_app, list_elem_of_fmap, list_elem_of_singleton.
    intros [(k' & Hk & _)|Hk]; simpl in Hk; [|discriminate].
    injection Hk as Hk. by apply pretty_nat_not_underscore in Hk.
  - apply NoDup_app. split; [|split].
    + apply NoDup_fmap_2; [|apply NoDup_seq].
      intros k k' Hk. simpl in Hk. injection Hk as Hk. by apply (inj pretty).
    + intros s (k & -> & _)%list_elem_of_fmap.
      rewrite list_elem_of_singleton. simpl. discriminate.
    + apply NoDup_singleton.
Qed.

(** ** Clipping *)

Lemma clip_towards_zero (x c : Q) :
  (0 <= c)%Q →
  ((0 <= x)%Q → (0 <= Qmax (Qmin x c) (- c) <= x)%Q) ∧
  ((x <= 0)%Q → (x <= Qmax (Qmin x c) (- c) <= 0)%Q).
Proof.
  intros Hc.
  assert (Hneg : (- c <= 0)%Q) by (by apply (Qopp_le_compat 0)).
  split; intros Hx.
  - split.
    + apply Q.max_le_iff. left. by apply Q.min_glb.
    + apply Q.max_lub; [apply Q.le_min_l|]. by apply Qle_trans with 0%Q.
  - split.
    + apply Q.max_le_iff. left. apply Q.min_glb; [apply Qle_refl|].
      by apply Qle_trans with 0%Q.
    + apply Q.max_lub; [|done]. apply Qle_trans with x; [apply Q.le_min_l|done].
Qed.

(** X9: for a non-negative [grad_clip] the clipping in [optim] never flips
    the sign of a gradient entry and never moves it away from zero, and it
    is idempotent: the clipped gradients pass through [optim] unchanged. *)
Theorem optim_shrinks_gradients (ps : params)
    (grads_and_vars : list (list Q * string)) :
  (0 <= grad_clip ps)%Q →
  ∃ new_grads_and_vars,
    optim ps grads_and_vars = ApplyGradients new_grads_and_vars ∧
    Forall2 (λ gv gv',
      Forall2 (λ x x',
        ((0 <= x)%Q → (0 <= x' <= x)%Q) ∧ ((x <= 0)%Q → (x <= x' <= 0)%Q))
        gv.1 gv'.1)
      grads_and_vars new_grads_and_vars ∧
    optim ps new_grads_and_vars = ApplyGradients new_grads_and_vars.
Proof.
  intros Hc. eexists. split; [done|]. split.
  - apply Forall2_fmap_r, Forall_Forall2_diag, Forall_forall.
    intros [grad v] _. cbn [fst snd]. unfold clip_by_value.
    apply Forall2_fmap_r, Forall_Forall2_diag, Forall_forall.
    intros x _. by apply clip_towards_zero.
  - unfold optim. f_equal. rewrite <- list_fmap_compose.
    apply list_fmap_ext. intros _ [grad v] _. cbn [fst snd compose]. f_equal.
    unfold clip_by_value. rewrite <- list_fmap_compose.
    apply list_fmap_ext. intros _ x _. cbn [compose].
    assert (Hle : (- grad_clip ps <= grad_clip ps)%Q).
    { apply Qle_trans with 0%Q; [|done]. by apply (Qopp_le_compat 0). }
    destruct (clip_in_range x _ _ Hle) as [[Hlo Hhi] _].
    by apply clip_fixes_in_range.
Qed.

Lemma optim_shrinks_gradients_witness :
  ∃ new_grads_and_vars,
    optim p sample_grads = ApplyGradients new_grads_and_vars ∧
    Forall2 (λ gv gv',
      Forall2 (λ x x',
        ((0 <= x)%Q → (0 <= x' <= x)%Q) ∧ ((x <= 0)%Q → (x <= x' <= 0)%Q))
        gv.1 gv'.1)
      sample_grads new_grads_and_vars ∧
    optim p new_grads_and_vars = ApplyGradients new_grads_and_vars.
Proof.
  apply (optim_shrinks_gradients p sample_grads). by vm_compute.
Defined.

(** ** Reshaping *)

Lemma length_chunks {A : Type} k m (l : list A) : length (chunks k m l) = k.
Proof. revert l. induction k as [|k IH]; intros l; simpl; [done|]. by rewrite IH. Qed.

Lemma chunks_lookup {A : Type} k m (l : list A) i :
  i < k → chunks k m l !! i = Some (take m (drop (i * m) l)).
Proof.
  revert l i. induction k as [|k IH]; intros l i Hi; [lia|].
  destruct i as [|i]; simpl; [done|].
  rewrite IH by lia. by rewrite drop_drop.
Qed.

Lemma chunks_lookup_length {A : Type} k m (l : list A) i x :
  length l = k * m → chunks k m l !! i = Some x → length x = m.
Proof.
  intros Hl Hx. pose proof (lookup_lt_Some _ _ _ Hx) as Hi.
  rewrite length_chunks in Hi. rewrite chunks_lookup in Hx by done.
  injection Hx as <-. rewrite length_take, length_drop.
  assert (S i * m ≤ k * m) by (apply Nat.mul_le_mono_r; lia). lia.
Qed.

Lemma join_chunks {A : Type} k m (l : list A) :
  length l = k * m → mjoin (chunks k m l) = l.
Proof.
  revert l. induction k as [|k IH]; intros l Hl; simpl.
  - symmetry. by apply nil_length_inv.
  - rewrite IH by (rewrite length_drop; lia). apply take_drop.
Qed.

Lemma join_fmap_chunks {A : Type} (g : list A → list A) k m (l : list A) :
  length l = k * m → (∀ x, length x = m → g x = x) →
  mjoin (g <$> chunks k m l) = l.
Proof.
  intros Hl Hg. rewrite <- (join_chunks k m l Hl) at 2. f_equal.
  rewrite <- (list_fmap_id (chunks k m l)) at 2.
  apply list_eq. intros i. rewrite !list_lookup_fmap.
  destruct (chunks k m l !! i) as [x|] eqn:Hx; [|done]. simpl. f_equal.
  apply Hg. by eapply chunks_lookup_length.
Qed.

(** What a successful reshape returns. *)
Lemma np_reshape_Some {F : Type} (a : list (list F)) (n h w c : nat) :
  length (mjoin a) = n * h * w * c →
  ∃ t, np_reshape a n h w c = Some t ∧
       has_shape n h w c t ∧
       mjoin (mjoin (mjoin t)) = mjoin a ∧
       ∀ b i j k, b < n → i < h → j < w → k < c →
         get4 t b i j k = mjoin a !! (((b * h + i) * w + j) * c + k).
Proof.
  unfold np_reshape. cbv zeta. intros Hlen.
  rewrite decide_True by done. eexists. split; [done|].
  set (flat := mjoin a) in *.
  assert (Hflat : length flat = n * (h * w * c)) by lia.
  split; [|split].
  - apply has_shape_alt. split; [by rewrite length_fmap, length_chunks|].
    intros b img' (img & -> & Himg)%list_lookup_fmap_Some.
    pose proof (chunks_lookup_length _ _ _ _ _ Hflat Himg) as Hil.
    split; [by rewrite length_fmap, length_chunks|].
    intros i r' (r & -> & Hr)%list_lookup_fmap_Some.
    assert (Hil' : length img = h * (w * c)) by lia.
    pose proof (chunks_lookup_length _ _ _ _ _ Hil' Hr) as Hrl.
    split; [by rewrite length_chunks|].
    intros j v Hv. by eapply chunks_lookup_length.
  - rewrite !join_join_fmap. apply join_fmap_chunks; [done|].
    intros img Himg. rewrite join_join_fmap.
    apply join_fmap_chunks; [lia|].
    intros r Hr. by apply join_chunks.
  - intros b i j k Hb Hi Hj Hk. unfold get4, at2.
    rewrite list_lookup_fmap, chunks_lookup by done. simpl.
    rewrite list_lookup_fmap, chunks_lookup by done. simpl.
    rewrite chunks_lookup by done.
    assert (H1 : j * c + k < w * c).
    { assert (S j * c ≤ w * c) by (apply Nat.mul_le_mono_r; lia). lia. }
    assert (H2 : i * (w * c) + (j * c + k) < h * w * c).
    { assert (S i * (w * c) ≤ h * (w * c)) by (apply Nat.mul_le_mono_r; lia).
      rewrite <- Nat.mul_assoc. lia. }
    rewrite lookup_take_lt, lookup_drop by done.
    rewrite lookup_take_lt, lookup_drop by done.
    rewrite lookup_take_lt, lookup_drop by done.
    f_equal. rewrite !Nat.mul_add_distr_r, <- !Nat.mul_assoc. lia.
Qed.

Lemma np_reshape_shape {F : Type} (a : list (list F)) (n h w c : nat) t :
  np_reshape a n h w c = Some t → has_shape n h w c t.
Proof.
  intros Ht. destruct (decide (length (mjoin a) = n * h * w * c)) as [Hlen|Hlen].
  - destruct (np_reshape_Some a n h w c Hlen) as (t' & Ht' & Hshape & _).
    by simplify_eq.
  - unfold np_reshape in Ht. cbv zeta in Ht. by rewrite decide_False in Ht.
Qed.

(** ** The training cell *)

Lemma for_each_app {St : Type} (l1 l2 : list nat) (body : nat → St → option St) s :
  for_each (l1 ++ l2) body s
  = match for_each l1 body s with
    | Some s' => for_each l2 body s'
    | None => None
    end.
Proof.
  revert s. induction l1 as [|k l1 IH]; intros s; simpl; [done|].
  destruct (body k s) as [s'|]; [apply IH|done].
Qed.

Lemma range_S k : range 0 (S k) = range 0 k ++ [k].
Proof. unfold range. rewrite !Nat.sub_0_r. by rewrite seq_S. Qed.

(** A loop that ran at least once ran its last pass from an intermediate
    state. *)
Lemma for_each_last {St : Type} k (body : nat → St → option St) s s' :
  for_each (range 0 (S k)) body s = Some s' →
  ∃ mid, for_each (range 0 k) body s = Some mid ∧ body k mid = Some s'.
Proof.
  rewrite range_S, for_each_app.
  destruct (for_each (range 0 k) body s) as [mid|]; [|done].
  simpl. destruct (body k mid) as [s''|] eqn:Hb; [|done].
  intros [= <-]. eauto.
Qed.

(** A list is distinct when it is the image of a distinct list under an
    injective naming; the epoch prefixes are such names. *)
Lemma epoch_prefix_inj : Inj (=) (=) (λ epoch : nat, "epoch_" +:+ pretty epoch).
Proof.
  intros e e' He. simpl in He. injection He as He. by apply (inj pretty).
Qed.

Section TrainingFacts.
Context {F : Type} `{Scalar F}.
Context {rng Sess Data Cost Stat : Type}.
Variable next_batch : Data → nat → list (list F) * Data.
Variable binarize_rows : list (list F) → rng → list (list F) * rng.
Variable binarize : tensor F → rng → tensor F * rng.
Variable occlude : tensor F → nat → nat → tensor F.
Variable run : Sess → node → node → tensor F → option (tensor F).
Variable run_train : Sess → node → tensor F → option (Sess * Cost).
Variable run_loss : Sess → node → tensor F → option Cost.
Variable np_mean : list Cost → Cost.
Variable on_step : Stat → Cost → Cost → Stat.
Variables (ps : params) (height width channel : nat).
Variables (train_step_per_epoch test_step_per_epoch : nat).
Variables (inputs output : node).

Local Abbreviation state := (notebook F rng Sess Data Stat).
Local Abbreviation train :=
  (train_step next_batch binarize_rows run_train ps height width channel inputs).
Local Abbreviation test :=
  (test_step next_batch binarize_rows run_loss ps height width channel inputs).
Local Abbreviation epoch :=
  (epoch_body next_batch binarize_rows binarize occlude run run_train run_loss
     np_mean on_step ps height width channel
     train_step_per_epoch test_step_per_epoch inputs output).

Lemma train_step_Some idx (st st' : state * list Cost) :
  train idx st = Some st' →
  ∃ images data g sess cost,
    feed_batch next_batch binarize_rows ps height width channel
      (nb_train st.1) (nb_random st.1) = Some (images, data, g) ∧
    run_train (nb_sess st.1) inputs images = Some (sess, cost) ∧
    st' = ({| nb_images := Some images; nb_sess := sess;
              nb_train := data; nb_test := nb_test st.1;
              nb_random := g; nb_stat := nb_stat st.1;
              nb_samples := nb_samples st.1 |}, st.2 ++ [cost]).
Proof using Type.
  unfold train_step.
  destruct (feed_batch _ _ _ _ _ _ _ _) as [[[images data] g]|]; [|done].
  destruct (run_train _ _ _) as [[sess cost]|] eqn:Hrun; [|done].
  intros [= <-]. by exists images, data, g, sess, cost.
Qed.

Lemma test_step_Some idx (st st' : state * list Cost) :
  test idx st = Some st' →
  ∃ images data g cost,
    feed_batch next_batch binarize_rows ps height width channel
      (nb_test st.1) (nb_random st.1) = Some (images, data, g) ∧
    run_loss (nb_sess st.1) inputs images = Some cost ∧
    st' = ({| nb_images := Some images; nb_sess := nb_sess st.1;
              nb_train := nb_train st.1; nb_test := data;
              nb_random := g; nb_stat := nb_stat st.1;
              nb_samples := nb_samples st.1 |}, st.2 ++ [cost]).
Proof using Type.
  unfold test_step.
  destruct (feed_batch _ _ _ _ _ _ _ _) as [[[images data] g]|]; [|done].
  destruct (run_loss _ _ _) as [cost|] eqn:Hrun; [|done].
  intros [= <-]. by exists images, data, g, cost.
Qed.

(** Neither loop writes image sheets; the test loop leaves the session and
    the training cursor alone, the training loop the test cursor. *)
Lemma train_loop_frame l (st st' : state * list Cost) :
  for_each l train st = Some st' →
  nb_samples st'.1 = nb_samples st.1 ∧ nb_test st'.1 = nb_test st.1 ∧
  nb_stat st'.1 = nb_stat st.1.
Proof using Type.
  revert st. induction l as [|k l IH]; intros st; simpl.
  { by intros [= <-]. }
  destruct (train k st) as [st1|] eqn:Hst1; [|done]. intros Hl.
  apply train_step_Some in Hst1 as (? & ? & ? & ? & ? & _ & _ & ->).
  by destruct (IH _ Hl) as (-> & -> & ->).
Qed.

Lemma test_loop_frame l (st st' : state * list Cost) :
  for_each l test st = Some st' →
  nb_samples st'.1 = nb_samples st.1 ∧ nb_train st'.1 = nb_train st.1 ∧
  nb_sess st'.1 = nb_sess st.1 ∧ nb_stat st'.1 = nb_stat st.1.
Proof using Type.
  revert st. induction l as [|k l IH]; intros st; simpl.
  { by intros [= <-]. }
  destruct (test k st) as [st1|] eqn:Hst1; [|done]. intros Hl.
  apply test_step_Some in Hst1 as (? & ? & ? & ? & _ & _ & ->).
  by destruct (IH _ Hl) as (-> & -> & -> & ->).
Qed.

(** The parts of an epoch that went through. *)
Lemma epoch_body_Some e (nb nb' : state) :
  epoch e nb = Some nb' →
  ∃ nb1 train_costs nb2 test_costs images samples g,
    for_each (range 0 train_step_per_epoch) train (nb, []) = Some (nb1, train_costs) ∧
    for_each (range 0 test_step_per_epoch) test (nb1, []) = Some (nb2, test_costs) ∧
    nb_images nb2 = Some images ∧
    generate_occlusions_state binarize occlude run images (nb_random nb2)
      (nb_sess nb2) height width inputs output = Some (samples, g) ∧
    nb' = {| nb_images := nb_images nb2; nb_sess := nb_sess nb2;
             nb_train := nb_train nb2; nb_test := nb_test nb2;
             nb_random := g;
             nb_stat := on_step (nb_stat nb2) (np_mean train_costs)
                          (np_mean test_costs);
             nb_samples := nb_samples nb2 ++ [("epoch_" +:+ pretty e, samples)] |}.
Proof using Type.
  unfold epoch_body.
  destruct (for_each _ train _) as [[nb1 train_costs]|] eqn:Htrain; [|done].
  destruct (for_each _ test _) as [[nb2 test_costs]|] eqn:Htest; [|done].
  cbv zeta.
  destruct (nb_images nb2) as [images|] eqn:Himg; [|done].
  destruct (generate_occlusions_state _ _ _ _ _ _ _ _ _ _)
    as [[samples g]|] eqn:Hgen; [|done].
  intros [= <-]. exists nb1, train_costs, nb2, test_costs, images, samples, g.
  rewrite Himg. done.
Qed.
End TrainingFacts.

Lemma generate_occlusions_of_state {F : Type} {rng Sess : Type}
    (binarize : tensor F → rng → tensor F * rng)
    (occlude : tensor F → nat → nat → tensor F)
    (run : Sess → node → node → tensor F → option (tensor F))
    (images : tensor F) (g : rng) (sess : Sess) (height width : nat)
    (inputs output : node) :
  generate_occlusions binarize occlude run images g sess height width inputs output
  = fst <$> generate_occlusions_state binarize occlude run images g sess
              height width inputs output.
Proof. reflexivity. Qed.

(** Step 3 of an epoch is the call
    [generate_occlusions(sess, height, width, inputs, output)] in the
    notebook as the two loops left it: the seed it completes is the batch
    those loops bound to [images] last. *)
Lemma epoch_body_call {F : Type} `{Scalar F} {rng Sess Data Cost Stat : Type}
    (next_batch : Data → nat → list (list F) * Data)
    (binarize_rows : list (list F) → rng → list (list F) * rng)
    (binarize : tensor F → rng → tensor F * rng)
    (occlude : tensor F → nat → nat → tensor F)
    (run : Sess → node → node → tensor F → option (tensor F))
    (run_train : Sess → node → tensor F → option (Sess * Cost))
    (run_loss : Sess → node → tensor F → option Cost)
    (np_mean : list Cost → Cost) (on_step : Stat → Cost → Cost → Stat)
    (ps : params) (height width channel : nat)
    (train_step_per_epoch test_step_per_epoch : nat) (inputs output : node)
    (epoch : nat) (nb nb' : notebook F rng Sess Data Stat) :
  epoch_body next_batch binarize_rows binarize occlude run run_train run_loss
    np_mean on_step ps height width channel
    train_step_per_epoch test_step_per_epoch inputs output epoch nb = Some nb' →
  ∃ nb1 train_costs nb2 test_costs samples,
    for_each (range 0 train_step_per_epoch)
      (train_step next_batch binarize_rows run_train ps height width channel
         inputs) (nb, []) = Some (nb1, train_costs) ∧
    for_each (range 0 test_step_per_epoch)
      (test_step next_batch binarize_rows run_loss ps height width channel
         inputs) (nb1, []) = Some (nb2, test_costs) ∧
    call_generate_occlusions binarize occlude run nb2
      [VSess (nb_sess nb2); VInt height; VInt width; VNode inputs; VNode output]
      [] = Some samples ∧
    last (nb_samples nb') = Some ("epoch_" +:+ pretty epoch, samples).
Proof.
  intros He. apply epoch_body_Some in He
    as (nb1 & trc & nb2 & tec & images & samples & g & Htr & Hte & Himg & Hgen & ->).
  exists nb1, trc, nb2, tec, samples. split; [done|]. split; [done|]. split.
  - unfold call_generate_occlusions. rewrite bind_args_positional, Himg.
    by rewrite generate_occlusions_of_state, Hgen.
  - cbn [nb_samples]. by rewrite last_snoc.
Qed.

Section TrainingTheorems.
Context {F : Type} `{Scalar F}.
Context {rng Sess Data Cost Stat : Type}.
Variable next_batch : Data → nat → list (list F) * Data.
Variable binarize_rows : list (list F) → rng → list (list F) * rng.
Variable binarize : tensor F → rng → tensor F * rng.
Variable occlude : tensor F → nat → nat → tensor F.
Variable run : Sess → node → node → tensor F → option (tensor F).
Variable run_train : Sess → node → tensor F → option (Sess * Cost).
Variable run_loss : Sess → node → tensor F → option Cost.
Variable np_mean : list Cost → Cost.
Variable on_step : Stat → Cost → Cost → Stat.

Lemma epochs_samples (ps : params) (height width channel : nat)
    (train_step_per_epoch test_step_per_epoch : nat) (inputs output : node)
    (l : list nat) : ∀ nb nb' : notebook F rng Sess Data Stat,
  for_each l
    (epoch_body next_batch binarize_rows binarize occlude run run_train
       run_loss np_mean on_step ps height width channel
       train_step_per_epoch test_step_per_epoch inputs output) nb = Some nb' →
  ∃ sheets,
    nb_samples nb' = nb_samples nb ++ sheets ∧
    sheets.*1 = (λ epoch, "epoch_" +:+ pretty epoch) <$> l.
Proof using Type.
  induction l as [|e l IH]; intros nb nb'; simpl.
  { intros [= <-]. exists []. by rewrite app_nil_r. }
  destruct (epoch_body _ _ _ _ _ _ _ _ _ _ _ _ _ _ _ _ _ e nb) as [nb1|] eqn:He;
    [|done].
  intros Hl. destruct (IH _ _ Hl) as (sheets & Hs & Hnames).
  apply epoch_body_Some in He
    as (nb2 & trc & nb3 & tec & images & samples & g & Htr & Hte & _ & _ & ->).
  apply train_loop_frame in Htr as (Hs2 & _). apply test_loop_frame in Hte as (Hs3 & _).
  cbn [fst nb_samples] in *.
  exists (("epoch_" +:+ pretty e, samples) :: sheets). split.
  - rewrite Hs, Hs3, Hs2, <- app_assoc. done.
  - rewrite fmap_cons, Hnames. done.
Qed.

(** X10: a training run that goes through hands [save_images] exactly one
    sheet per epoch, in order, under the prefixes "epoch_0", "epoch_1",
    ...; the prefixes are pairwise distinct, and neither the training nor
    the test loop saves anything. *)
Theorem training_saves_one_sheet_per_epoch
    (ps : params) (max_epoch height width channel : nat)
    (train_step_per_epoch test_step_per_epoch : nat) (inputs output : node)
    (nb nb' : notebook F rng Sess Data Stat) :
  training next_batch binarize_rows binarize occlude run run_train run_loss
    np_mean on_step ps max_epoch height width channel
    train_step_per_epoch test_step_per_epoch inputs output nb = Some nb' →
  ∃ sheets,
    nb_samples nb' = nb_samples nb ++ sheets ∧
    sheets.*1 = (λ epoch, "epoch_" +:+ pretty epoch) <$> seq 0 max_epoch ∧
    NoDup sheets.*1.
Proof using Type.
  unfold training, range. rewrite Nat.sub_0_r. intros Hrun.
  destruct (epochs_samples _ _ _ _ _ _ _ _ _ _ _ Hrun) as (sheets & Hs & Hnames).
  exists sheets. split; [done|]. split; [done|].
  rewrite Hnames. apply (@NoDup_fmap_2 _ _ _ epoch_prefix_inj), NoDup_seq.
Qed.

(** X11: the samples of an epoch are completions of the batch bound to
    [images] last: the batch of the last test step; without test steps,
    that of the last training step; without either, whatever [images] held
    before the epoch.  Generation starts from the generator state left by
    binarizing that batch and uses the session left by the training
    loop. *)
Theorem epoch_samples_seed
    (ps : params) (height width channel : nat)
    (train_step_per_epoch test_step_per_epoch : nat) (inputs output : node)
    (epoch : nat) (nb nb' : notebook F rng Sess Data Stat) :
  epoch_body next_batch binarize_rows binarize occlude run run_train run_loss
    np_mean on_step ps height width channel
    train_step_per_epoch test_step_per_epoch inputs output epoch nb = Some nb' →
  ∃ images samples g,
    generate_occlusions binarize occlude run images g (nb_sess nb')
      height width inputs output = Some samples ∧
    last (nb_samples nb') = Some ("epoch_" +:+ pretty epoch, samples) ∧
    (0 < test_step_per_epoch →
     ∃ data g0,
       feed_batch next_batch binarize_rows ps height width channel data g0
       = Some (images, nb_test nb', g)) ∧
    (test_step_per_epoch = 0 → 0 < train_step_per_epoch →
     ∃ data g0,
       feed_batch next_batch binarize_rows ps height width channel data g0
       = Some (images, nb_train nb', g)) ∧
    (test_step_per_epoch = 0 → train_step_per_epoch = 0 →
     nb_images nb = Some images ∧ g = nb_random nb ∧ nb_sess nb' = nb_sess nb).
Proof using Type.
  intros He. apply epoch_body_Some in He
    as (nb1 & trc & nb2 & tec & images & samples & g & Htr & Hte & Himg & Hgen & ->).
  exists images, samples, (nb_random nb2). cbn [nb_images nb_sess nb_samples nb_test nb_train].
  split; [by rewrite generate_occlusions_of_state, Hgen|].
  split; [by rewrite last_snoc|].
  split; [|split].
  - intros Hpos. destruct test_step_per_epoch as [|k]; [lia|].
    apply for_each_last in Hte as (mid & _ & Hlast).
    apply test_step_Some in Hlast as (images' & data & g' & cost & Hfeed & _ & Heq).
    injection Heq as -> _. cbn [nb_images nb_test nb_random] in *.
    injection Himg as ->. eauto.
  - intros -> Hpos. simpl in Hte. injection Hte as <- _.
    destruct train_step_per_epoch as [|k]; [lia|].
    apply for_each_last in Htr as (mid & _ & Hlast).
    apply train_step_Some in Hlast
      as (images' & data & g' & sess & cost & Hfeed & _ & Heq).
    injection Heq as -> _. cbn [nb_images nb_train nb_random] in *.
    injection Himg as ->. eauto.
  - intros -> ->. simpl in Hte, Htr.
    injection Hte as <- _. injection Htr as <- _. done.
Qed.

(** X12: the batches the training cell feeds always have the layout (batch,
    height, width, channel).  They fit the placeholder built with
    [use_gpu]; with the other layout the first training step is rejected
    and the run fails, unless height, width and channel coincide. *)
Theorem training_needs_use_gpu
    (ps : params) (max_epoch height width channel : nat)
    (train_step_per_epoch test_step_per_epoch : nat)
    (nb : notebook F rng Sess Data Stat) :
  (∀ sess sh t, ¬ feedable sh t → run_train sess (Placeholder sh) t = None) →
  0 < max_epoch → 0 < train_step_per_epoch →
  0 < batch_size ps → 0 < height → 0 < width →
  ¬ (height = channel ∧ width = height ∧ channel = width) →
  (∀ data g images data' g',
     feed_batch next_batch binarize_rows ps height width channel data g
     = Some (images, data', g') →
     feedable (input_shape height width channel (with_gpu ps true)) images) ∧
  training next_batch binarize_rows binarize occlude run run_train run_loss
    np_mean on_step (with_gpu ps false) max_epoch height width channel
    train_step_per_epoch test_step_per_epoch
    (pixelRNN height width channel (with_gpu ps false)).1.1
    (pixelRNN height width channel (with_gpu ps false)).1.2 nb = None.
Proof using Type.
  intros Hreject Hepochs Hsteps Hbatch Hh Hw Hdims. split.
  - intros data g images data' g'. unfold feed_batch. cbv zeta.
    destruct (np_reshape _ _ _ _ _) as [t|] eqn:Ht; [|done].
    intros [= <- _ _]. apply np_reshape_shape in Ht. destruct Ht as [_ Ht].
    split; [done|]. exact Ht.
  - unfold training, range. rewrite Nat.sub_0_r.
    destruct max_epoch as [|E]; [lia|]. cbn [seq for_each].
    unfold epoch_body at 1, range. rewrite Nat.sub_0_r.
    destruct train_step_per_epoch as [|k]; [lia|]. cbn [seq for_each].
    unfold train_step at 1, feed_batch. cbv zeta.
    cbn [fst snd nb_train nb_random nb_sess with_gpu batch_size].
    destruct (np_reshape _ _ _ _ _) as [t|] eqn:Ht; [|done].
    apply np_reshape_shape in Ht.
    unfold pixelRNN, input_shape. cbn [fst snd with_gpu use_gpu].
    rewrite Hreject; [done|].
    intros Hfeed. apply Hdims.
    exact (channel_first_feedable _ _ _ _ _ Hbatch Hh Hw Ht Hfeed).
Qed.
End TrainingTheorems.

(** ** The layout of a fed batch *)

Lemma join_lookup_row {A : Type} (m : nat) (a : list (list A)) :
  Forall (λ r, length r = m) a →
  ∀ b r, r < m → mjoin a !! (b * m + r) = a !! b ≫= (λ row, row !! r).
Proof.
  induction 1 as [|x a Hx Ha IH]; intros b r Hr.
  { by rewrite !lookup_nil. }
  destruct b as [|b]; simpl.
  - rewrite lookup_app_l by lia. done.
  - rewrite lookup_app_r by lia.
    replace (m + b * m + r - length x) with (b * m + r) by lia.
    by apply IH.
Qed.

Lemma length_join_rows {A : Type} (m : nat) (a : list (list A)) :
  Forall (λ r, length r = m) a → length (mjoin a) = length a * m.
Proof.
  induction 1 as [|x a Hx Ha IH]; [done|].
  simpl. rewrite length_app, IH. lia.
Qed.

Lemma pixel_index (b h w c i j k : nat) :
  i < h → j < w → k < c →
  ((b * h + i) * w + j) * c + k = b * (h * w * c) + ((i * w + j) * c + k) ∧
  (i * w + j) * c + k < h * w * c.
Proof.
  intros Hi Hj Hk. split.
  - rewrite !Nat.mul_add_distr_r, <- !Nat.mul_assoc. lia.
  - assert ((i * w + j) * c + k < (i * w + j + 1) * c) by lia.
    assert ((i * w + j + 1) * c ≤ (i * w + w) * c)
      by (apply Nat.mul_le_mono_r; lia).
    assert ((i * w + w) * c ≤ h * w * c).
    { apply Nat.mul_le_mono_r. replace (i * w + w) with (S i * w) by lia.
      apply Nat.mul_le_mono_r. lia. }
    lia.
Qed.

Section FeedBatch.
Context {F : Type} {rng Data : Type}.
Variable next_batch : Data → nat → list (list F) * Data.
Variable binarize_rows : list (list F) → rng → list (list F) * rng.

(** X13: when the data set hands out [batch_size] rows of [m] entries, the
    batch fed to the model is built exactly when [m = height * width *
    channel] (otherwise the reshape fails, for a non-empty batch); image
    [b] of the feed is then row [b] of the binarized batch, its pixel
    [(i, j)], channel [k], entry [(i * width + j) * channel + k] of that
    row. *)
Theorem feed_batch_layout (ps : params) (height width channel m : nat)
    (data : Data) (g : rng) :
  let batch := next_batch data (batch_size ps) in
  let rows := binarize_rows batch.1 g in
  length rows.1 = batch_size ps →
  Forall (λ r, length r = m) rows.1 →
  (m = height * width * channel →
   ∃ images,
     feed_batch next_batch binarize_rows ps height width channel data g
     = Some (images, batch.2, rows.2) ∧
     has_shape (batch_size ps) height width channel images ∧
     ∀ b i j k, b < batch_size ps → i < height → j < width → k < channel →
       get4 images b i j k
       = rows.1 !! b ≫= (λ row, row !! ((i * width + j) * channel + k))) ∧
  (m ≠ height * width * channel → 0 < batch_size ps →
   feed_batch next_batch binarize_rows ps height width channel data g = None).
Proof using Type.
  intros batch rows Hn Hrows.
  pose proof (length_join_rows m _ Hrows) as Hlen. rewrite Hn in Hlen.
  unfold feed_batch. cbv zeta. fold batch. fold rows. split.
  - intros ->.
    destruct (np_reshape_Some rows.1 (batch_size ps) height width channel)
      as (images & -> & Hshape & _ & Hget); [lia|].
    exists images. split; [done|]. split; [done|].
    intros b i j k Hb Hi Hj Hk. rewrite Hget by done.
    destruct (pixel_index b height width channel i j k Hi Hj Hk) as [-> Hlt].
    by apply join_lookup_row.
  - intros Hm Hpos. unfold np_reshape. cbv zeta.
    rewrite decide_False; [done|]. rewrite Hlen. intros Heq.
    apply Hm. rewrite <- !Nat.mul_assoc in Heq.
    apply Nat.mul_cancel_l in Heq; lia.
Qed.
End FeedBatch.

Lemma feed_batch_layout_witness :
  let batch := toy_next_batch 0 (batch_size tiny) in
  let rows := toy_binarize_rows batch.1 tt in
  (4 = 2 * 2 * 1 →
   ∃ images,
     feed_batch toy_next_batch toy_binarize_rows tiny 2 2 1 0 tt
     = Some (images, batch.2, rows.2) ∧
     has_shape (batch_size tiny) 2 2 1 images ∧
     ∀ b i j k, b < batch_size tiny → i < 2 → j < 2 → k < 1 →
       get4 images b i j k
       = rows.1 !! b ≫= (λ row, row !! ((i * 2 + j) * 1 + k))) ∧
  (4 ≠ 2 * 2 * 1 → 0 < batch_size tiny →
   feed_batch toy_next_batch toy_binarize_rows tiny 2 2 1 0 tt = None).
Proof.
  apply (feed_batch_layout toy_next_batch toy_binarize_rows tiny 2 2 1 4 0 tt).
  - reflexivity.
  - repeat constructor.
Defined.

(** ** The training cell on the toy pipeline *)

Lemma training_saves_one_sheet_per_epoch_witness :
  ∃ nb',
    training toy_next_batch toy_binarize_rows binarize_threshold occlude_copy
      (constant_model (9 # 10)) toy_run_train toy_run_loss toy_mean toy_on_step
      tiny 2 2 2 1 1 1
      (pixelRNN 2 2 1 tiny).1.1 (pixelRNN 2 2 1 tiny).1.2 fresh_notebook
    = Some nb' ∧
    ∃ sheets,
      nb_samples nb' = nb_samples fresh_notebook ++ sheets ∧
      sheets.*1 = (λ epoch, "epoch_" +:+ pretty epoch) <$> seq 0 2 ∧
      NoDup sheets.*1.
Proof.
  eexists. split; [vm_compute; reflexivity|].
  eapply (training_saves_one_sheet_per_epoch toy_next_batch toy_binarize_rows
            binarize_threshold occlude_copy (constant_model (9 # 10))
            toy_run_train toy_run_loss toy_mean toy_on_step
            tiny 2 2 2 1 1 1
            (pixelRNN 2 2 1 tiny).1.1 (pixelRNN 2 2 1 tiny).1.2 fresh_notebook).
  vm_compute. reflexivity.
Defined.

Lemma epoch_samples_seed_witness :
  ∃ nb',
    epoch_body toy_next_batch toy_binarize_rows binarize_threshold occlude_copy
      (constant_model (9 # 10)) toy_run_train toy_run_loss toy_mean toy_on_step
      tiny 2 2 1 1 1
      (pixelRNN 2 2 1 tiny).1.1 (pixelRNN 2 2 1 tiny).1.2 0 fresh_notebook
    = Some nb' ∧
    ∃ images samples g,
      generate_occlusions binarize_threshold occlude_copy
        (constant_model (9 # 10)) images g (nb_sess nb') 2 2
        (pixelRNN 2 2 1 tiny).1.1 (pixelRNN 2 2 1 tiny).1.2 = Some samples ∧
      last (nb_samples nb') = Some ("epoch_" +:+ pretty 0, samples) ∧
      (0 < 1 →
       ∃ data g0,
         feed_batch toy_next_batch toy_binarize_rows tiny 2 2 1 data g0
         = Some (images, nb_test nb', g)) ∧
      (1 = 0 → 0 < 1 →
       ∃ data g0,
         feed_batch toy_next_batch toy_binarize_rows tiny 2 2 1 data g0
         = Some (images, nb_train nb', g)) ∧
      (1 = 0 → 1 = 0 →
       nb_images fresh_notebook = Some images ∧ g = nb_random fresh_notebook ∧
       nb_sess nb' = nb_sess fresh_notebook).
Proof.
  eexists. split; [vm_compute; reflexivity|].
  eapply (epoch_samples_seed toy_next_batch toy_binarize_rows
            binarize_threshold occlude_copy (constant_model (9 # 10))
            toy_run_train toy_run_loss toy_mean toy_on_step
            tiny 2 2 1 1 1
            (pixelRNN 2 2 1 tiny).1.1 (pixelRNN 2 2 1 tiny).1.2 0 fresh_notebook).
  vm_compute. reflexivity.
Defined.

Lemma training_needs_use_gpu_witness :
  (∀ data g images data' g',
     feed_batch toy_next_batch toy_binarize_rows tiny 2 2 1 data g
     = Some (images, data', g') →
     feedable (input_shape 2 2 1 (with_gpu tiny true)) images) ∧
  training toy_next_batch toy_binarize_rows binarize_threshold occlude_copy
    (constant_model (9 # 10)) toy_run_train toy_run_loss toy_mean toy_on_step
    (with_gpu tiny false) 2 2 2 1 1 1
    (pixelRNN 2 2 1 (with_gpu tiny false)).1.1
    (pixelRNN 2 2 1 (with_gpu tiny false)).1.2 fresh_notebook = None.
Proof.
  apply (training_needs_use_gpu toy_next_batch toy_binarize_rows
           binarize_threshold occlude_copy (constant_model (9 # 10))
           toy_run_train toy_run_loss toy_mean toy_on_step
           tiny 2 2 2 1 1 1 fresh_notebook).
  - intros sess sh t Hno. unfold toy_run_train. by rewrite decide_False.
  - lia.
  - lia.
  - simpl. lia.
  - lia.
  - lia.
  - lia.
Defined.
